(** * The in-memory indexed store of the task/list backend

    A shallow embedding of [src/storage/memoryStore.ts] (the record maps, the
    four secondary indexes, the capacity guard), of the task and list
    repositories built on it ([TaskRepository], [ListRepository]), of
    their query pipeline (filter, sort, paginate) and of the methods of the
    two services that validate nothing but ids ([TaskService],
    [ListService]), followed by the properties of the specification that
    concern them and by further properties of the code.

    Conventions of the embedding:
    - a [Date] is its time value, the number of milliseconds since the epoch,
      a [Z] (every date is a valid date); [new Date()] is the argument [now]
      of the operation that reads the clock (the clock does not move while
      one operation runs);
    - the time zone of the host is a parameter of what reads local time, as
      the collation of the host is: its [LocalTZA], the offset of local
      time from UTC, which may change with the date;
    - a string is a [string] of ASCII characters;
    - a [Map] is a [gmap], a [Set<string>] a [gset string]: the iteration
      order of the JavaScript containers is not modelled;
    - an optional field is an [option], a partial object a record of
      options ([None]: the key is absent);
    - a method of the store is a function from the store to a result and the
      store it leaves; an exception is the result [Err]. *)

From Stdlib Require Import ZArith Lia Ascii.
From stdpp Require Import base tactics option list gmap sets strings countable sorting.

Local Open Scope Z_scope.
#[local] Set Warnings "-clear-no-such-hyp".

(** ** Entities ([src/models/entities.ts], enums) *)

Inductive TaskStatus := PENDING | COMPLETED.
Inductive TaskPriority := LOW | MEDIUM | HIGH.

#[global] Instance TaskStatus_eq_dec : EqDecision TaskStatus.
Proof. solve_decision. Defined.
#[global] Instance TaskPriority_eq_dec : EqDecision TaskPriority.
Proof. solve_decision. Defined.

#[global] Instance TaskStatus_countable : Countable TaskStatus.
Proof.
  refine (inj_countable' (λ s, match s with PENDING => 0%nat | COMPLETED => 1%nat end)
            (λ n, match n with O => PENDING | _ => COMPLETED end) _).
  by intros [].
Defined.
#[global] Instance TaskPriority_countable : Countable TaskPriority.
Proof.
  refine (inj_countable' (λ p, match p with LOW => 0%nat | MEDIUM => 1%nat | HIGH => 2%nat end)
            (λ n, match n with O => LOW | 1%nat => MEDIUM | _ => HIGH end) _).
  by intros [].
Defined.

(** [interface List extends BaseEntity]. [tasks_count] only ever receives a
    set size or the literal 0, hence a [nat]. *)
Record List := mkList {
  l_id : string;
  l_name : string;
  l_description : option string;
  l_color : option string;
  tasks_count : nat;
  l_created_at : Z;
  l_updated_at : Z;
}.

(** [interface Task extends BaseEntity]. *)
Record Task := mkTask {
  id : string;
  list_id : string;
  title : string;
  description : option string;
  deadline : option Z;
  priority : TaskPriority;
  status : TaskStatus;
  completed_at : option Z;
  created_at : Z;
  updated_at : Z;
}.

#[global] Instance List_eq_dec : EqDecision List.
Proof. solve_decision. Defined.
#[global] Instance Task_eq_dec : EqDecision Task.
Proof. solve_decision. Defined.

(** [Partial<List>] as the store's [updateList] receives it. The keys [id]
    and [updated_at] of a patch are overwritten by the store and left out. *)
Record ListUpdates := mkListUpdates {
  lu_name : option string;
  lu_description : option string;
  lu_color : option string;
  lu_tasks_count : option nat;
  lu_created_at : option Z;
}.

(** [Partial<Task>] as the store's [updateTask] receives it (again without
    [id] and [updated_at]). *)
Record TaskUpdates := mkTaskUpdates {
  u_list_id : option string;
  u_title : option string;
  u_description : option string;
  u_deadline : option Z;
  u_priority : option TaskPriority;
  u_status : option TaskStatus;
  u_completed_at : option Z;
  u_created_at : option Z;
}.

(** ** The store ([src/storage/memoryStore.ts]) *)

(** [interface StorageIndexes]. The key of [tasksByDeadlineDate] is the
    text YYYY-MM-DD of a UTC calendar day; it is represented by the number
    of that day (days since the epoch), which it determines and which
    determines it. *)
Record StorageIndexes := mkIndexes {
  tasksByListId : gmap string (gset string);
  tasksByStatus : gmap TaskStatus (gset string);
  tasksByPriority : gmap TaskPriority (gset string);
  tasksByDeadlineDate : gmap Z (gset string);
}.

(** [interface MemoryStoreStats], without [memoryUsage] (an estimate from
    the length of JSON text). *)
Record MemoryStoreStats := mkStats {
  listsCount : Z;
  tasksCount : Z;
  lastAccessed : Z;
  operationsCount : Z;
}.

Record MemoryStore := mkStore {
  lists : gmap string List;
  tasks : gmap string Task;
  indexes : StorageIndexes;
  maxSize : Z;
  stats : MemoryStoreStats;
}.

(** What a throwing method raises: the store's capacity error (its message
    carries the maximum and the current count), the two errors of the
    repositories, and the errors of the task service (VALIDATION_ERROR,
    NOT_FOUND, INTERNAL_ERROR). *)
Inductive StoreError :=
| CapacityExceeded (maximum current : Z)
| ListDoesNotExist (listId : string)
| ListNameExists (name : string)
| InvalidTaskId (i : string)
| TaskNotFound (i : string)
| FailedToComplete (i : string).

Inductive Result (A : Type) :=
| Ok (a : A)
| Err (e : StoreError).
Arguments Ok {A} a.
Arguments Err {A} e.

(** [new MemoryStore(maxSize)] at time [now]. *)
Definition newStore (maxSize0 now : Z) : MemoryStore :=
  {| lists := ∅; tasks := ∅;
     indexes := {| tasksByListId := ∅; tasksByStatus := ∅;
                   tasksByPriority := ∅; tasksByDeadlineDate := ∅ |};
     maxSize := maxSize0;
     stats := {| listsCount := 0; tasksCount := 0; lastAccessed := now;
                 operationsCount := 0 |} |}.

Definition withLists (f : gmap string List → gmap string List) (s : MemoryStore) : MemoryStore :=
  {| lists := f (lists s); tasks := tasks s; indexes := indexes s;
     maxSize := maxSize s; stats := stats s |}.
Definition withTasks (f : gmap string Task → gmap string Task) (s : MemoryStore) : MemoryStore :=
  {| lists := lists s; tasks := f (tasks s); indexes := indexes s;
     maxSize := maxSize s; stats := stats s |}.
Definition withIndexes (f : StorageIndexes → StorageIndexes) (s : MemoryStore) : MemoryStore :=
  {| lists := lists s; tasks := tasks s; indexes := f (indexes s);
     maxSize := maxSize s; stats := stats s |}.
Definition withStats (f : MemoryStoreStats → MemoryStoreStats) (s : MemoryStore) : MemoryStore :=
  {| lists := lists s; tasks := tasks s; indexes := indexes s;
     maxSize := maxSize s; stats := f (stats s) |}.

(** [updateStats()]: the access time and the operation counter. *)
Definition updateStats (now : Z) (s : MemoryStore) : MemoryStore :=
  withStats (λ st, {| listsCount := listsCount st; tasksCount := tasksCount st;
                      lastAccessed := now;
                      operationsCount := operationsCount st + 1 |}) s.

Definition bumpListsCount (d : Z) (s : MemoryStore) : MemoryStore :=
  withStats (λ st, {| listsCount := listsCount st + d; tasksCount := tasksCount st;
                      lastAccessed := lastAccessed st;
                      operationsCount := operationsCount st |}) s.
Definition bumpTasksCount (d : Z) (s : MemoryStore) : MemoryStore :=
  withStats (λ st, {| listsCount := listsCount st; tasksCount := tasksCount st + d;
                      lastAccessed := lastAccessed st;
                      operationsCount := operationsCount st |}) s.

(** A string is truthy when it is not empty. *)
Definition truthy (x : string) : Prop := x ≠ "".

(** The ids under key [k]: [m.get(k)], the empty set when there is none. *)
Definition bucket `{Countable K} (m : gmap K (gset string)) (k : K) : gset string :=
  default ∅ (m !! k).

(** What [getIndexInfo()] returns: for each index, the size of the bucket
    of each key. *)
Record IndexInfo := mkIndexInfo {
  info_tasksByListId : gmap string nat;
  info_tasksByStatus : gmap TaskStatus nat;
  info_tasksByPriority : gmap TaskPriority nat;
  info_tasksByDeadlineDate : gmap Z nat;
}.

Module memoryStore.

(** *** Index maintenance *)

(** [if (!m.has(k)) m.set(k, new Set()); m.get(k)!.add(i)] *)
Definition indexAdd `{Countable K} (k : K) (i : string)
    (m : gmap K (gset string)) : gmap K (gset string) :=
  <[k := {[i]} ∪ bucket m k]> m.

(** [const ids = m.get(k); if (ids) { ids.delete(i); if (ids.size === 0) m.delete(k) }] *)
Definition indexRemove `{Countable K} (k : K) (i : string)
    (m : gmap K (gset string)) : gmap K (gset string) :=
  match m !! k with
  | Some ids =>
      let ids' := ids ∖ {[i]} in
      if decide (size ids' = 0%nat) then delete k m else <[k := ids']> m
  | None => m
  end.

Definition msPerDay : Z := 86400000.

(** [date.toISOString().split('T')[0]]: the UTC calendar day of [date]. *)
Definition formatDateKey (date : Z) : Z := date / msPerDay.

Definition updateTaskIndexes (task : Task) (ix : StorageIndexes) : StorageIndexes :=
  {| tasksByListId := indexAdd (list_id task) (id task) (tasksByListId ix);
     tasksByStatus := indexAdd (status task) (id task) (tasksByStatus ix);
     tasksByPriority := indexAdd (priority task) (id task) (tasksByPriority ix);
     tasksByDeadlineDate :=
       match deadline task with
       | Some d => indexAdd (formatDateKey d) (id task) (tasksByDeadlineDate ix)
       | None => tasksByDeadlineDate ix
       end |}.

Definition removeTaskFromIndexes (task : Task) (ix : StorageIndexes) : StorageIndexes :=
  {| tasksByListId := indexRemove (list_id task) (id task) (tasksByListId ix);
     tasksByStatus := indexRemove (status task) (id task) (tasksByStatus ix);
     tasksByPriority := indexRemove (priority task) (id task) (tasksByPriority ix);
     tasksByDeadlineDate :=
       match deadline task with
       | Some d => indexRemove (formatDateKey d) (id task) (tasksByDeadlineDate ix)
       | None => tasksByDeadlineDate ix
       end |}.

Definition setTasksCount (n : nat) (now : Z) (l : List) : List :=
  {| l_id := l_id l; l_name := l_name l; l_description := l_description l;
     l_color := l_color l; tasks_count := n;
     l_created_at := l_created_at l; l_updated_at := now |}.

(** [updateListTaskCount(listId)]: the list record is changed in place. *)
Definition updateListTaskCount (listId : string) (now : Z) (s : MemoryStore) : MemoryStore :=
  match lists s !! listId with
  | Some l =>
      let n := match tasksByListId (indexes s) !! listId with
               | Some ids => size ids
               | None => 0%nat
               end in
      withLists (<[listId := setTasksCount n now l]>) s
  | None => s
  end.

(** [checkCapacity()]: the error it throws, if any. *)
Definition checkCapacity (s : MemoryStore) : option StoreError :=
  let totalEntities := Z.of_nat (size (lists s)) + Z.of_nat (size (tasks s)) in
  if decide (maxSize s ≤ totalEntities)
  then Some (CapacityExceeded (maxSize s) totalEntities)
  else None.

(** *** Lists *)

Definition getListById (i : string) (now : Z) (s : MemoryStore) : option List * MemoryStore :=
  (lists s !! i, updateStats now s).

Definition createList (list : List) (now : Z) (s : MemoryStore) : Result unit * MemoryStore :=
  match checkCapacity s with
  | Some e => (Err e, s)
  | None =>
      (Ok (), bumpListsCount 1 (withLists (<[l_id list := list]>) (updateStats now s)))
  end.

(** [{ ...existingList, ...updates, id, updated_at: new Date() }] *)
Definition mergeList (existing : List) (u : ListUpdates) (i : string) (now : Z) : List :=
  {| l_id := i;
     l_name := default (l_name existing) (lu_name u);
     l_description := match lu_description u with
                      | Some d => Some d
                      | None => l_description existing
                      end;
     l_color := match lu_color u with Some c => Some c | None => l_color existing end;
     tasks_count := default (tasks_count existing) (lu_tasks_count u);
     l_created_at := default (l_created_at existing) (lu_created_at u);
     l_updated_at := now |}.

Definition updateList (i : string) (u : ListUpdates) (now : Z) (s : MemoryStore)
    : bool * MemoryStore :=
  let s := updateStats now s in
  match lists s !! i with
  | None => (false, s)
  | Some existingList => (true, withLists (<[i := mergeList existingList u i now]>) s)
  end.

(** *** Tasks *)

Definition getTaskById (i : string) (now : Z) (s : MemoryStore) : option Task * MemoryStore :=
  (tasks s !! i, updateStats now s).

Definition createTask (task : Task) (now : Z) (s : MemoryStore) : Result unit * MemoryStore :=
  match checkCapacity s with
  | Some e => (Err e, s)
  | None =>
      let s := updateStats now s in
      let s := withTasks (<[id task := task]>) s in
      let s := withIndexes (updateTaskIndexes task) s in
      let s := bumpTasksCount 1 s in
      (Ok (), updateListTaskCount (list_id task) now s)
  end.

(** [{ ...existingTask, ...updates, id, updated_at: new Date() }], then the
    two adjustments of [completed_at]. *)
Definition mergeTask (existing : Task) (u : TaskUpdates) (i : string) (now : Z) : Task :=
  let orElse {A} (o1 o2 : option A) := match o1 with Some a => Some a | None => o2 end in
  let merged_completed_at := orElse (u_completed_at u) (completed_at existing) in
  let completed_at1 :=
    if decide (u_status u = Some COMPLETED ∧ status existing ≠ COMPLETED)
    then Some now else merged_completed_at in
  let completed_at2 :=
    if decide (u_status u = Some PENDING) then None else completed_at1 in
  {| id := i;
     list_id := default (list_id existing) (u_list_id u);
     title := default (title existing) (u_title u);
     description := orElse (u_description u) (description existing);
     deadline := orElse (u_deadline u) (deadline existing);
     priority := default (priority existing) (u_priority u);
     status := default (status existing) (u_status u);
     completed_at := completed_at2;
     created_at := default (created_at existing) (u_created_at u);
     updated_at := now |}.

Definition updateTask (i : string) (u : TaskUpdates) (now : Z) (s : MemoryStore)
    : bool * MemoryStore :=
  let s := updateStats now s in
  match tasks s !! i with
  | None => (false, s)
  | Some existingTask =>
      let s := withIndexes (removeTaskFromIndexes existingTask) s in
      let updatedTask := mergeTask existingTask u i now in
      let s := withTasks (<[i := updatedTask]>) s in
      let s := withIndexes (updateTaskIndexes updatedTask) s in
      let s :=
        match u_list_id u with
        | Some newList =>
            if decide (truthy newList ∧ newList ≠ list_id existingTask)
            then updateListTaskCount newList now
                   (updateListTaskCount (list_id existingTask) now s)
            else s
        | None => s
        end in
      (true, s)
  end.

Definition deleteTask (i : string) (now : Z) (s : MemoryStore) : bool * MemoryStore :=
  let s := updateStats now s in
  match tasks s !! i with
  | None => (false, s)
  | Some task =>
      let s := withIndexes (removeTaskFromIndexes task) s in
      let s := withTasks (delete i) s in
      let s := bumpTasksCount (-1) s in
      (true, updateListTaskCount (list_id task) now s)
  end.

(** [deleteList(id, deleteAssociatedTasks)]. The loop runs [deleteTask] over
    the ids of the list's bucket; [deleteTask x] takes only [x] itself out of
    that set, so the ids visited are those the set held when the loop began. *)
Definition deleteList (i : string) (deleteAssociatedTasks : bool) (now : Z)
    (s : MemoryStore) : bool * MemoryStore :=
  let s := updateStats now s in
  match lists s !! i with
  | None => (false, s)
  | Some _ =>
      let s :=
        if deleteAssociatedTasks then
          match tasksByListId (indexes s) !! i with
          | Some taskIds =>
              foldl (λ s taskId, (deleteTask taskId now s).2) s (elements taskIds)
          | None => s
          end
        else s in
      (true, bumpListsCount (-1) (withLists (delete i) s))
  end.

(** *** Queries of the store *)

Definition getAllLists (now : Z) (s : MemoryStore) : list List * MemoryStore :=
  ((map_to_list (lists s)).*2, updateStats now s).

Definition getAllTasks (now : Z) (s : MemoryStore) : list Task * MemoryStore :=
  ((map_to_list (tasks s)).*2, updateStats now s).

(** [Array.from(taskIds).map(id => this.tasks.get(id)).filter(task => task !== undefined)] *)
Definition tasksOfIds (taskIds : gset string) (s : MemoryStore) : list Task :=
  omap (λ i, tasks s !! i) (elements taskIds).

Definition getTasksByListId (listId : string) (now : Z) (s : MemoryStore)
    : list Task * MemoryStore :=
  (match tasksByListId (indexes s) !! listId with
   | Some taskIds => tasksOfIds taskIds s
   | None => []
   end, updateStats now s).

Definition getTasksByStatus (st : TaskStatus) (now : Z) (s : MemoryStore)
    : list Task * MemoryStore :=
  (match tasksByStatus (indexes s) !! st with
   | Some taskIds => tasksOfIds taskIds s
   | None => []
   end, updateStats now s).

Definition getTasksByPriority (p : TaskPriority) (now : Z) (s : MemoryStore)
    : list Task * MemoryStore :=
  (match tasksByPriority (indexes s) !! p with
   | Some taskIds => tasksOfIds taskIds s
   | None => []
   end, updateStats now s).

(** [fuel] rounds of a loop at most: a round gives the next state ([inl]) or
    the result of the loop ([inr]). The bound is a binary number, so that a
    loop that ends early does not pay for a large bound. *)
Fixpoint rounds {St R : Type} (round : St → St + R) (fuel : positive) (st : St) : St + R :=
  match fuel with
  | xH => round st
  | xO fuel =>
      match rounds round fuel st with
      | inl st => rounds round fuel st
      | inr r => inr r
      end
  | xI fuel =>
      match round st with
      | inl st =>
          match rounds round fuel st with
          | inl st => rounds round fuel st
          | inr r => inr r
          end
      | inr r => inr r
      end
  end.

Section LocalTime.

(** [LocalTZA(t, isUTC)] of ECMAScript for the time zone of the host: the
    offset of local time from UTC, in milliseconds, at the UTC time [t]
    when [isUTC], at the local time [t] otherwise. *)
Variable LocalTZA : Z → bool → Z.

Definition LocalTime (t : Z) : Z := t + LocalTZA t true.
Definition UTC (t : Z) : Z := t - LocalTZA t false.

(** [date.setDate(date.getDate() + 1)]: the local time of [date] is
    [LocalTime date]; [MakeDay] of its year, its month and the day of the
    month after its own is the day number after its own, and the time
    within the day is kept, so the new local time is [msPerDay] later; it
    is stored as the time value [UTC] gives for it. Where the clocks of
    the zone change, that is not [msPerDay] after [date]. *)
Definition nextLocalDay (date : Z) : Z := UTC (LocalTime date + msPerDay).

(** One round of the loop of [getTasksByDeadlineRange],
    [while (currentDate <= toDate) { ...; currentDate.setDate(currentDate.getDate() + 1) }],
    on [currentDate] and the array [tasks]: the bucket of the UTC day of
    [currentDate] is pushed, and [currentDate] moves one local day on. *)
Definition deadlineRangeRound (toDate : Z) (s : MemoryStore) (st : Z * list Task)
    : Z * list Task + list Task :=
  let '(currentDate, tasks) := st in
  if decide (currentDate ≤ toDate) then
    inl (nextLocalDay currentDate,
         tasks ++ match tasksByDeadlineDate (indexes s) !! formatDateKey currentDate with
                  | Some taskIds => tasksOfIds taskIds s
                  | None => []
                  end)
  else inr tasks.

(** A bound on the rounds of the loop from [fromDate] to [toDate]: while
    every round moves the date forward, by one millisecond at least, the
    loop ends within it (see [deadlineRangeLoop_ends]). *)
Definition deadlineRangeFuel (fromDate toDate : Z) : positive :=
  Z.to_pos (toDate - fromDate + 2).

(** The loop: [inr tasks] when it ends, [inl] with the state reached when
    the bound is used up. *)
Definition deadlineRangeLoop (fromDate toDate : Z) (s : MemoryStore)
    : Z * list Task + list Task :=
  rounds (deadlineRangeRound toDate s) (deadlineRangeFuel fromDate toDate) (fromDate, []).

Definition getTasksByDeadlineRange (fromDate toDate : Z) (now : Z) (s : MemoryStore)
    : list Task * MemoryStore :=
  (match deadlineRangeLoop fromDate toDate s with
   | inr tasks => tasks
   | inl (_, tasks) => tasks
   end, updateStats now s).

End LocalTime.

(** *** Monitoring and admin *)

(** [getStats()]: a copy of the statistics, after the access is counted. *)
Definition getStats (now : Z) (s : MemoryStore) : MemoryStoreStats * MemoryStore :=
  let s := updateStats now s in (stats s, s).

(** [clear()]: the maps and the counters are reset; the capacity and the
    time of the last access stay. *)
Definition clear (s : MemoryStore) : MemoryStore :=
  {| lists := ∅; tasks := ∅;
     indexes := {| tasksByListId := ∅; tasksByStatus := ∅;
                   tasksByPriority := ∅; tasksByDeadlineDate := ∅ |};
     maxSize := maxSize s;
     stats := {| listsCount := 0; tasksCount := 0;
                 lastAccessed := lastAccessed (stats s);
                 operationsCount := 0 |} |}.

(** [getIndexInfo()] *)
Definition getIndexInfo (s : MemoryStore) : IndexInfo :=
  {| info_tasksByListId := size <$> tasksByListId (indexes s);
     info_tasksByStatus := size <$> tasksByStatus (indexes s);
     info_tasksByPriority := size <$> tasksByPriority (indexes s);
     info_tasksByDeadlineDate := size <$> tasksByDeadlineDate (indexes s) |}.

End memoryStore.

(** ** Strings

    The string methods the repositories call, on ASCII text. *)

Definition isWhiteSpace (c : Ascii.ascii) : bool :=
  let n := Ascii.nat_of_ascii c in
  bool_decide (n = 32 ∨ (9 ≤ n ∧ n ≤ 13))%nat.

Fixpoint trimStart (x : string) : string :=
  match x with
  | String c x' => if isWhiteSpace c then trimStart x' else x
  | EmptyString => EmptyString
  end.

(** [x.trim()] *)
Definition trim (x : string) : string :=
  String.rev (trimStart (String.rev (trimStart x))).

Definition asciiToLower (c : Ascii.ascii) : Ascii.ascii :=
  let n := Ascii.nat_of_ascii c in
  if bool_decide (65 ≤ n ∧ n ≤ 90)%nat then Ascii.ascii_of_nat (n + 32) else c.

(** [x.toLowerCase()] *)
Fixpoint toLowerCase (x : string) : string :=
  match x with
  | String c x' => String (asciiToLower c) (toLowerCase x')
  | EmptyString => EmptyString
  end.

Fixpoint startsWith (x p : string) : bool :=
  match p, x with
  | EmptyString, _ => true
  | String c p', String d x' => bool_decide (c = d) && startsWith x' p'
  | String _ _, EmptyString => false
  end.

(** [x.includes(p)] *)
Fixpoint includes (x p : string) : bool :=
  startsWith x p ||
  match x with
  | String _ x' => includes x' p
  | EmptyString => false
  end.

(** ** Identifiers ([src/utils/idGenerator.ts]) *)

Definition isHexDigit (c : Ascii.ascii) : bool :=
  let n := Ascii.nat_of_ascii c in
  bool_decide ((48 ≤ n ∧ n ≤ 57) ∨ (65 ≤ n ∧ n ≤ 70) ∨ (97 ≤ n ∧ n ≤ 102))%nat.

Definition isChar (d : Ascii.ascii) (c : Ascii.ascii) : bool := bool_decide (c = d).

(** [8], [9], [a] or [b], in either case. *)
Definition isVariantDigit (c : Ascii.ascii) : bool :=
  let n := Ascii.nat_of_ascii c in
  bool_decide (n = 56 ∨ n = 57 ∨ n = 65 ∨ n = 66 ∨ n = 97 ∨ n = 98)%nat.

(** The characters the regular expression of [isValidUuid] asks for, one
    test per position. *)
Definition uuidPattern : list (Ascii.ascii → bool) :=
  replicate 8 isHexDigit ++ [isChar "-"%char]
  ++ replicate 4 isHexDigit ++ [isChar "-"%char]
  ++ [isChar "4"%char] ++ replicate 3 isHexDigit ++ [isChar "-"%char]
  ++ [isVariantDigit] ++ replicate 3 isHexDigit ++ [isChar "-"%char]
  ++ replicate 12 isHexDigit.

Fixpoint matchesPattern (pattern : list (Ascii.ascii → bool)) (x : string) : bool :=
  match pattern, x with
  | [], EmptyString => true
  | test :: pattern, String c x => test c && matchesPattern pattern x
  | _, _ => false
  end.

Definition isValidUuid (x : string) : bool := matchesPattern uuidPattern x.

(** ** Inputs of the repositories ([src/models/entities.ts]) *)

Record CreateTaskInput := mkCreateTaskInput {
  ci_list_id : string;
  ci_title : string;
  ci_description : option string;
  ci_deadline : option Z;
  ci_priority : option TaskPriority;
}.

Record UpdateTaskInput := mkUpdateTaskInput {
  ui_title : option string;
  ui_description : option string;
  ui_deadline : option Z;
  ui_priority : option TaskPriority;
  ui_status : option TaskStatus;
  ui_list_id : option string;
}.

Record CreateListInput := mkCreateListInput {
  cl_name : string;
  cl_description : option string;
  cl_color : option string;
}.

Record UpdateListInput := mkUpdateListInput {
  ul_name : option string;
  ul_description : option string;
  ul_color : option string;
}.

Inductive SortOrder := asc | desc.

Record SortParams := mkSortParams {
  field : string;
  order : SortOrder;
}.

Record TaskFilterParams := mkTaskFilterParams {
  f_list_id : option string;
  f_status : option TaskStatus;
  f_priority : option TaskPriority;
  f_deadline_from : option Z;
  f_deadline_to : option Z;
  f_search : option string;
}.

Record ListFilterParams := mkListFilterParams {
  lf_search : option string;
}.

(** [x && x.trim()] for an optional string: a missing or empty string stays
    as it is, any other is trimmed. *)
Definition trimIfTruthy (o : option string) : option string :=
  match o with
  | Some x => if decide (truthy x) then Some (trim x) else Some x
  | None => None
  end.

(** [...(x && { key: x.trim() })]: the key is set only for a truthy [x]. *)
Definition trimmedWhenTruthy (o : option string) : option string :=
  match o with
  | Some x => if decide (truthy x) then Some (trim x) else None
  | None => None
  end.

(** ** Arrays *)

(** [array.sort(compare)]: a stable sort (ECMAScript 2019), here by
    insertion: an element goes before the first element of the sorted rest
    that it does not compare greater than. *)
Fixpoint insertSorted {A} (compare : A → A → Z) (x : A) (l : list A) : list A :=
  match l with
  | [] => [x]
  | y :: l' =>
      if decide (compare x y ≤ 0) then x :: y :: l' else y :: insertSorted compare x l'
  end.

Definition arraySort {A} (compare : A → A → Z) (l : list A) : list A :=
  foldr (insertSorted compare) [] l.

(** [array.slice(start, end)], a negative index counting from the end. *)
Definition slice {A} (l : list A) (start final : Z) : list A :=
  let len := Z.of_nat (length l) in
  let relative z := if decide (z < 0) then Z.max (len + z) 0 else Z.min z len in
  take (Z.to_nat (relative final - relative start)) (drop (Z.to_nat (relative start)) l).

(** [if (limit !== undefined && offset !== undefined) xs = xs.slice(offset, offset + limit)] *)
Definition paginate {A} (l : list A) (limit offset : option Z) : list A :=
  match limit, offset with
  | Some limit, Some offset => slice l offset (offset + limit)
  | _, _ => l
  end.

(** What a query returns: the page and the total. *)
Record Page (A : Type) := mkPage {
  items : list A;
  total : nat;
}.
Arguments mkPage {A} items total.
Arguments items {A} p.
Arguments total {A} p.

(** ** The task repository ([class TaskRepository])

    [newId] is the value [generateId()] returns (a version 4 UUID). *)

Module TaskRepository.

Definition getTaskById (i : string) (now : Z) (s : MemoryStore)
    : option Task * MemoryStore :=
  memoryStore.getTaskById i now s.

Definition createTask (input : CreateTaskInput) (newId : string) (now : Z)
    (s : MemoryStore) : Result Task * MemoryStore :=
  let '(listExists, s) := memoryStore.getListById (ci_list_id input) now s in
  match listExists with
  | None => (Err (ListDoesNotExist (ci_list_id input)), s)
  | Some _ =>
      let task :=
        {| id := newId;
           list_id := ci_list_id input;
           title := trim (ci_title input);
           description := trimmedWhenTruthy (ci_description input);
           deadline := ci_deadline input;
           priority := default MEDIUM (ci_priority input);
           status := PENDING;
           completed_at := None;
           created_at := now;
           updated_at := now |} in
      match memoryStore.createTask task now s with
      | (Err e, s) => (Err e, s)
      | (Ok _, s) => (Ok task, s)
      end
  end.

(** [{ ...input, updated_at: new Date() }] with its string fields trimmed. *)
Definition updateData (input : UpdateTaskInput) : TaskUpdates :=
  {| u_list_id := ui_list_id input;
     u_title := trimIfTruthy (ui_title input);
     u_description := trimIfTruthy (ui_description input);
     u_deadline := ui_deadline input;
     u_priority := ui_priority input;
     u_status := ui_status input;
     u_completed_at := None;
     u_created_at := None |}.

Definition updateTask (i : string) (input : UpdateTaskInput) (now : Z)
    (s : MemoryStore) : Result (option Task) * MemoryStore :=
  let '(existing, s) := memoryStore.getTaskById i now s in
  match existing with
  | None => (Ok None, s)
  | Some existingTask =>
      let '(missing, s) :=
        match ui_list_id input with
        | Some newList =>
            if decide (truthy newList ∧ newList ≠ list_id existingTask) then
              let '(listExists, s) := memoryStore.getListById newList now s in
              match listExists with
              | None => (Some (ListDoesNotExist newList), s)
              | Some _ => (None, s)
              end
            else (None, s)
        | None => (None, s)
        end in
      match missing with
      | Some e => (Err e, s)
      | None =>
          let '(success, s) := memoryStore.updateTask i (updateData input) now s in
          if success : bool then
            let '(updatedTask, s) := memoryStore.getTaskById i now s in (Ok updatedTask, s)
          else (Ok None, s)
      end
  end.

Definition deleteTask (i : string) (now : Z) (s : MemoryStore) : Result bool * MemoryStore :=
  let '(existing, s) := memoryStore.getTaskById i now s in
  match existing with
  | None => (Ok false, s)
  | Some _ => let '(success, s) := memoryStore.deleteTask i now s in (Ok success, s)
  end.

Definition completeTask (i : string) (now : Z) (s : MemoryStore)
    : Result (option Task) * MemoryStore :=
  let '(existing, s) := memoryStore.getTaskById i now s in
  match existing with
  | None => (Ok None, s)
  | Some existingTask =>
      if decide (status existingTask = COMPLETED) then (Ok (Some existingTask), s)
      else
        let updateData :=
          {| u_list_id := None; u_title := None; u_description := None;
             u_deadline := None; u_priority := None;
             u_status := Some COMPLETED; u_completed_at := Some now;
             u_created_at := None |} in
        let '(success, s) := memoryStore.updateTask i updateData now s in
        if success : bool then
          let '(updatedTask, s) := memoryStore.getTaskById i now s in (Ok updatedTask, s)
        else (Ok None, s)
  end.

(** [{ ...existingTask, status: PENDING, updated_at: new Date() }] with the
    key [completed_at] deleted. *)
Definition taskWithoutCompletedAt (existingTask : Task) : TaskUpdates :=
  {| u_list_id := Some (list_id existingTask);
     u_title := Some (title existingTask);
     u_description := description existingTask;
     u_deadline := deadline existingTask;
     u_priority := Some (priority existingTask);
     u_status := Some PENDING;
     u_completed_at := None;
     u_created_at := Some (created_at existingTask) |}.

Definition uncompleteTask (i : string) (now : Z) (s : MemoryStore)
    : Result (option Task) * MemoryStore :=
  let '(existing, s) := memoryStore.getTaskById i now s in
  match existing with
  | None => (Ok None, s)
  | Some existingTask =>
      if decide (status existingTask = PENDING) then (Ok (Some existingTask), s)
      else
        let '(success, s) := memoryStore.updateTask i (taskWithoutCompletedAt existingTask) now s in
        if success : bool then
          let '(updatedTask, s) := memoryStore.getTaskById i now s in (Ok updatedTask, s)
        else (Ok None, s)
  end.

(** [taskExists(id)]: [task !== undefined]. *)
Definition taskExists (i : string) (now : Z) (s : MemoryStore) : bool * MemoryStore :=
  let '(task, s) := memoryStore.getTaskById i now s in
  (bool_decide (is_Some task), s).

(** The predicate of [applyFilters]: whether [task] is kept. *)
Definition keeps (filters : TaskFilterParams) (task : Task) : bool :=
  if match f_list_id filters with
     | Some l => bool_decide (truthy l ∧ list_id task ≠ l)
     | None => false
     end
  then false
  else if match f_status filters with
          | Some st => bool_decide (status task ≠ st)
          | None => false
          end
  then false
  else if match f_priority filters with
          | Some p => bool_decide (priority task ≠ p)
          | None => false
          end
  then false
  else if match f_deadline_from filters, deadline task with
          | Some from, Some d => bool_decide (d < from)
          | _, _ => false
          end
  then false
  else if match f_deadline_to filters, deadline task with
          | Some to, Some d => bool_decide (to < d)
          | _, _ => false
          end
  then false
  else
    match f_search filters with
    | Some search =>
        if decide (truthy search) then
          let searchTerm := toLowerCase search in
          let titleMatch := includes (toLowerCase (title task)) searchTerm in
          let descriptionMatch :=
            match description task with
            | Some d => includes (toLowerCase d) searchTerm
            | None => false
            end in
          titleMatch || descriptionMatch
        else true
    | None => true
    end.

Definition applyFilters (tasks : list Task) (filters : TaskFilterParams) : list Task :=
  List.filter (keeps filters) tasks.

Definition priorityOrder (p : TaskPriority) : Z :=
  match p with HIGH => 3 | MEDIUM => 2 | LOW => 1 end.

(** The values of [enum TaskStatus]. *)
Definition statusText (st : TaskStatus) : string :=
  match st with PENDING => "pending" | COMPLETED => "completed" end.

Section Queries.

(** [a.localeCompare(b)], the collation of the host. *)
Variable localeCompare : string → string → Z.

(** [LocalTZA(t, isUTC)], the time zone of the host. *)
Variable LocalTZA : Z → bool → Z.

(** The comparator of [sortTasks]. *)
Definition compareTasks (sort : SortParams) (a b : Task) : Z :=
  let comparison :=
    if decide (field sort = "title") then localeCompare (title a) (title b)
    else if decide (field sort = "created_at") then created_at a - created_at b
    else if decide (field sort = "updated_at") then updated_at a - updated_at b
    else if decide (field sort = "deadline") then
      match deadline a, deadline b with
      | None, None => 0
      | None, Some _ => 1
      | Some _, None => -1
      | Some da, Some db => da - db
      end
    else if decide (field sort = "priority") then
      priorityOrder (priority a) - priorityOrder (priority b)
    else if decide (field sort = "status") then
      localeCompare (statusText (status a)) (statusText (status b))
    else created_at a - created_at b in
  match order sort with
  | desc => - comparison
  | asc => comparison
  end.

Definition sortTasks (tasks : list Task) (sort : SortParams) : list Task :=
  arraySort (compareTasks sort) tasks.

(** What the four queries do with the tasks the store hands them. *)
Definition query (tasks : list Task) (filters : option TaskFilterParams)
    (defaultSort : SortParams) (sort : option SortParams)
    (limit offset : option Z) : Page Task :=
  let tasks := match filters with
               | Some filters => applyFilters tasks filters
               | None => tasks
               end in
  let filteredTotal := length tasks in
  let tasks := sortTasks tasks (default defaultSort sort) in
  let tasks := paginate tasks limit offset in
  {| items := tasks; total := filteredTotal |}.

Definition byCreatedAtDesc : SortParams := {| field := "created_at"; order := desc |}.
Definition byDeadlineAsc : SortParams := {| field := "deadline"; order := asc |}.

Definition getAllTasks (filters : option TaskFilterParams) (sort : option SortParams)
    (limit offset : option Z) (now : Z) (s : MemoryStore) : Page Task * MemoryStore :=
  let '(tasks, s) := memoryStore.getAllTasks now s in
  (query tasks filters byCreatedAtDesc sort limit offset, s).

Definition getTasksByListId (listId : string) (filters : option TaskFilterParams)
    (sort : option SortParams) (limit offset : option Z) (now : Z) (s : MemoryStore)
    : Page Task * MemoryStore :=
  let '(tasks, s) := memoryStore.getTasksByListId listId now s in
  (query tasks filters byCreatedAtDesc sort limit offset, s).

Definition getTasksByStatus (st : TaskStatus) (filters : option TaskFilterParams)
    (sort : option SortParams) (limit offset : option Z) (now : Z) (s : MemoryStore)
    : Page Task * MemoryStore :=
  let '(tasks, s) := memoryStore.getTasksByStatus st now s in
  (query tasks filters byCreatedAtDesc sort limit offset, s).

Definition getTasksByDeadlineRange (fromDate toDate : Z)
    (filters : option TaskFilterParams) (sort : option SortParams)
    (limit offset : option Z) (now : Z) (s : MemoryStore) : Page Task * MemoryStore :=
  let '(tasks, s) := memoryStore.getTasksByDeadlineRange LocalTZA fromDate toDate now s in
  (query tasks filters byDeadlineAsc sort limit offset, s).

(** [getTasksCount(filters)]: the total of [getAllTasks(filters)]. *)
Definition getTasksCount (filters : option TaskFilterParams) (now : Z) (s : MemoryStore)
    : nat * MemoryStore :=
  let '(page, s) := getAllTasks filters None None None now s in
  (total page, s).

End Queries.

End TaskRepository.

(** ** The list repository ([class ListRepository]) *)

Module ListRepository.

Definition sameName (a b : string) : bool :=
  bool_decide (toLowerCase a = toLowerCase b).

Definition createList (input : CreateListInput) (newId : string) (now : Z)
    (s : MemoryStore) : Result List * MemoryStore :=
  let list :=
    {| l_id := newId;
       l_name := trim (cl_name input);
       l_description := trimmedWhenTruthy (cl_description input);
       l_color := match cl_color input with
                  | Some c => if decide (truthy c) then Some c else None
                  | None => None
                  end;
       tasks_count := 0;
       l_created_at := now;
       l_updated_at := now |} in
  let '(existingLists, s) := memoryStore.getAllLists now s in
  let isDuplicate := existsb (λ existingList, sameName (l_name existingList) (l_name list))
                       existingLists in
  if isDuplicate then (Err (ListNameExists (l_name list)), s)
  else
    match memoryStore.createList list now s with
    | (Err e, s) => (Err e, s)
    | (Ok _, s) => (Ok list, s)
    end.

(** [{ ...input, updated_at: new Date() }] with its string fields trimmed. *)
Definition updateData (input : UpdateListInput) : ListUpdates :=
  {| lu_name := trimIfTruthy (ul_name input);
     lu_description := trimIfTruthy (ul_description input);
     lu_color := ul_color input;
     lu_tasks_count := None;
     lu_created_at := None |}.

Definition updateList (i : string) (input : UpdateListInput) (now : Z)
    (s : MemoryStore) : Result (option List) * MemoryStore :=
  let '(existing, s) := memoryStore.getListById i now s in
  match existing with
  | None => (Ok None, s)
  | Some _ =>
      let '(duplicate, s) :=
        match ul_name input with
        | Some name =>
            if decide (truthy name) then
              let trimmedName := trim name in
              let '(allLists, s) := memoryStore.getAllLists now s in
              if existsb (λ list, bool_decide (l_id list ≠ i)
                                  && sameName (l_name list) trimmedName) allLists
              then (Some (ListNameExists trimmedName), s)
              else (None, s)
            else (None, s)
        | None => (None, s)
        end in
      match duplicate with
      | Some e => (Err e, s)
      | None =>
          let '(success, s) := memoryStore.updateList i (updateData input) now s in
          if success : bool then
            let '(updatedList, s) := memoryStore.getListById i now s in (Ok updatedList, s)
          else (Ok None, s)
      end
  end.

Definition deleteList (i : string) (deleteAssociatedTasks : bool) (now : Z)
    (s : MemoryStore) : Result bool * MemoryStore :=
  let '(existing, s) := memoryStore.getListById i now s in
  match existing with
  | None => (Ok false, s)
  | Some _ =>
      let '(_, s) := memoryStore.getTasksByListId i now s in
      let '(success, s) := memoryStore.deleteList i deleteAssociatedTasks now s in
      (Ok success, s)
  end.

Definition getListById (i : string) (now : Z) (s : MemoryStore)
    : option List * MemoryStore :=
  memoryStore.getListById i now s.

(** [listExists(id)]: [list !== undefined]. *)
Definition listExists (i : string) (now : Z) (s : MemoryStore) : bool * MemoryStore :=
  let '(list, s) := memoryStore.getListById i now s in
  (bool_decide (is_Some list), s).

(** [isListNameUnique(name, excludeId)] *)
Definition isListNameUnique (name : string) (excludeId : option string) (now : Z)
    (s : MemoryStore) : bool * MemoryStore :=
  let '(lists, s) := memoryStore.getAllLists now s in
  let trimmedName := toLowerCase (trim name) in
  (negb (existsb (λ list,
           bool_decide (toLowerCase (l_name list) = trimmedName)
           && match excludeId with
              | Some e => if decide (truthy e) then bool_decide (l_id list ≠ e) else true
              | None => true
              end) lists), s).

(** The predicate of the search filter of [getAllLists]. *)
Definition matchesSearch (searchTerm : string) (list : List) : bool :=
  includes (toLowerCase (l_name list)) searchTerm
  || match l_description list with
     | Some d => if decide (truthy d) then includes (toLowerCase d) searchTerm else false
     | None => false
     end.

Section Queries.

Variable localeCompare : string → string → Z.

(** The comparator of [sortLists]. *)
Definition compareLists (sort : SortParams) (a b : List) : Z :=
  let comparison :=
    if decide (field sort = "name") then localeCompare (l_name a) (l_name b)
    else if decide (field sort = "created_at") then l_created_at a - l_created_at b
    else if decide (field sort = "updated_at") then l_updated_at a - l_updated_at b
    else if decide (field sort = "tasks_count") then
      Z.of_nat (tasks_count a) - Z.of_nat (tasks_count b)
    else l_created_at a - l_created_at b in
  match order sort with
  | desc => - comparison
  | asc => comparison
  end.

Definition sortLists (lists : list List) (sort : SortParams) : list List :=
  arraySort (compareLists sort) lists.

Definition getAllLists (filters : option ListFilterParams) (sort : option SortParams)
    (limit offset : option Z) (now : Z) (s : MemoryStore) : Page List * MemoryStore :=
  let '(lists, s) := memoryStore.getAllLists now s in
  let total := length lists in
  let lists :=
    match filters with
    | Some filters =>
        match lf_search filters with
        | Some search =>
            if decide (truthy search)
            then List.filter (matchesSearch (toLowerCase search)) lists
            else lists
        | None => lists
        end
    | None => lists
    end in
  let lists := sortLists lists (default TaskRepository.byCreatedAtDesc sort) in
  let lists := paginate lists limit offset in
  ({| items := lists; total := total |}, s).

(** [getListsCount(filters)]: the total of [getAllLists(filters)]. *)
Definition getListsCount (filters : option ListFilterParams) (now : Z) (s : MemoryStore)
    : nat * MemoryStore :=
  let '(page, s) := getAllLists filters None None None now s in
  (total page, s).

End Queries.

End ListRepository.

(** ** The task service ([class TaskService]) *)

(** [enum ApiResponseCode] *)
Inductive ApiResponseCode :=
| SUCCESS | CREATED | NOT_FOUND | VALIDATION_ERROR | UNAUTHORIZED | FORBIDDEN
| INTERNAL_ERROR | CONFLICT | BAD_REQUEST | TOO_MANY_REQUESTS.

(** What a method of a service throws: an error it makes itself, with its
    code and the id that its message names, or an error of a repository,
    which it passes on. *)
Inductive ServiceError :=
| Thrown (code : ApiResponseCode) (about : string)
| Passed (e : StoreError).

Inductive Outcome (A : Type) :=
| Returned (a : A)
| Raised (e : ServiceError).
Arguments Returned {A} a.
Arguments Raised {A} e.

Module TaskService.

Definition completeTask (i : string) (now : Z) (s : MemoryStore)
    : Result Task * MemoryStore :=
  if isValidUuid i then
    let '(existing, s) := TaskRepository.getTaskById i now s in
    match existing with
    | None => (Err (TaskNotFound i), s)
    | Some existingTask =>
        if decide (status existingTask = COMPLETED) then (Ok existingTask, s)
        else
          match TaskRepository.completeTask i now s with
          | (Ok (Some completedTask), s) => (Ok completedTask, s)
          | (Ok None, s) => (Err (FailedToComplete i), s)
          | (Err e, s) => (Err e, s)
          end
    end
  else (Err (InvalidTaskId i), s).

Definition getTaskById (i : string) (now : Z) (s : MemoryStore)
    : Outcome Task * MemoryStore :=
  if isValidUuid i then
    let '(task, s) := TaskRepository.getTaskById i now s in
    match task with
    | None => (Raised (Thrown NOT_FOUND i), s)
    | Some task => (Returned task, s)
    end
  else (Raised (Thrown VALIDATION_ERROR i), s).

Definition deleteTask (i : string) (now : Z) (s : MemoryStore)
    : Outcome unit * MemoryStore :=
  if isValidUuid i then
    let '(existingTask, s) := TaskRepository.getTaskById i now s in
    match existingTask with
    | None => (Raised (Thrown NOT_FOUND i), s)
    | Some _ =>
        match TaskRepository.deleteTask i now s with
        | (Ok success, s) =>
            if success : bool then (Returned (), s)
            else (Raised (Thrown INTERNAL_ERROR i), s)
        | (Err e, s) => (Raised (Passed e), s)
        end
    end
  else (Raised (Thrown VALIDATION_ERROR i), s).

Definition uncompleteTask (i : string) (now : Z) (s : MemoryStore)
    : Outcome Task * MemoryStore :=
  if isValidUuid i then
    let '(existing, s) := TaskRepository.getTaskById i now s in
    match existing with
    | None => (Raised (Thrown NOT_FOUND i), s)
    | Some existingTask =>
        if decide (status existingTask = PENDING) then (Returned existingTask, s)
        else
          match TaskRepository.uncompleteTask i now s with
          | (Ok (Some uncompletedTask), s) => (Returned uncompletedTask, s)
          | (Ok None, s) => (Raised (Thrown INTERNAL_ERROR i), s)
          | (Err e, s) => (Raised (Passed e), s)
          end
    end
  else (Raised (Thrown VALIDATION_ERROR i), s).

End TaskService.

(** ** The list service ([class ListService]) *)

(** What [getListStatistics] returns beside the list, without
    [completionPercentage] (a rounded floating-point quotient). *)
Record ListStatistics := mkListStatistics {
  totalTasks : nat;
  completedTasks : nat;
  pendingTasks : nat;
  highTasks : nat;
  mediumTasks : nat;
  lowTasks : nat;
  overdueTasksCount : nat;
  upcomingTasksCount : nat;
}.

Module ListService.

Definition getListById (i : string) (now : Z) (s : MemoryStore)
    : Outcome List * MemoryStore :=
  if isValidUuid i then
    let '(list, s) := ListRepository.getListById i now s in
    match list with
    | None => (Raised (Thrown NOT_FOUND i), s)
    | Some list => (Returned list, s)
    end
  else (Raised (Thrown VALIDATION_ERROR i), s).

(** The input [{ list_id: toListId }]. *)
Definition toList (toListId : string) : UpdateTaskInput :=
  {| ui_title := None; ui_description := None; ui_deadline := None;
     ui_priority := None; ui_status := None; ui_list_id := Some toListId |}.

(** [for (const task of tasks) await taskRepository.updateTask(task.id, { list_id: toListId })];
    an error of the repository ends the loop. *)
Fixpoint moveEach (tasks : list Task) (toListId : string) (now : Z) (s : MemoryStore)
    : option StoreError * MemoryStore :=
  match tasks with
  | [] => (None, s)
  | task :: tasks =>
      match TaskRepository.updateTask (id task) (toList toListId) now s with
      | (Err e, s) => (Some e, s)
      | (Ok _, s) => moveEach tasks toListId now s
      end
  end.

Section Methods.

Variable localeCompare : string → string → Z.

Definition moveAllTasksToList (fromListId toListId : string) (now : Z) (s : MemoryStore)
    : option StoreError * MemoryStore :=
  let '(page, s) :=
    TaskRepository.getTasksByListId localeCompare fromListId None None None None now s in
  moveEach (items page) toListId now s.

(** [deleteList(id, { deleteAssociatedTasks = true, moveTasksToListId })] *)
Definition deleteList (i : string) (deleteAssociatedTasks : option bool)
    (moveTasksToListId : option string) (now : Z) (s : MemoryStore)
    : Outcome unit * MemoryStore :=
  if isValidUuid i then
    let '(existingList, s) := ListRepository.getListById i now s in
    match existingList with
    | None => (Raised (Thrown NOT_FOUND i), s)
    | Some _ =>
        let '(moveError, s) :=
          match moveTasksToListId with
          | Some target =>
              if decide (truthy target) then
                if isValidUuid target then
                  let '(targetList, s) := ListRepository.getListById target now s in
                  match targetList with
                  | None => (Some (Thrown NOT_FOUND target), s)
                  | Some _ =>
                      match moveAllTasksToList i target now s with
                      | (Some e, s) => (Some (Passed e), s)
                      | (None, s) => (None, s)
                      end
                  end
                else (Some (Thrown VALIDATION_ERROR target), s)
              else (None, s)
          | None => (None, s)
          end in
        match moveError with
        | Some e => (Raised e, s)
        | None =>
            match ListRepository.deleteList i (default true deleteAssociatedTasks) now s with
            | (Ok success, s) =>
                if success : bool then (Returned (), s)
                else (Raised (Thrown INTERNAL_ERROR i), s)
            | (Err e, s) => (Raised (Passed e), s)
            end
        end
    end
  else (Raised (Thrown VALIDATION_ERROR i), s).

(** The counts of [getListStatistics] over the tasks of the list, [now]
    being the time of the call and [nextWeek] seven days later. *)
Definition statisticsOf (tasks : list Task) (now : Z) : ListStatistics :=
  let count (test : Task → bool) := length (List.filter test tasks) in
  let totalTasks := length tasks in
  let completedTasks := count (λ task, bool_decide (status task = COMPLETED)) in
  let nextWeek := now + 7 * 24 * 60 * 60 * 1000 in
  {| totalTasks := totalTasks;
     completedTasks := completedTasks;
     pendingTasks := totalTasks - completedTasks;
     highTasks := count (λ task, bool_decide (priority task = HIGH));
     mediumTasks := count (λ task, bool_decide (priority task = MEDIUM));
     lowTasks := count (λ task, bool_decide (priority task = LOW));
     overdueTasksCount :=
       count (λ task, match deadline task with
                      | Some d => bool_decide (status task = PENDING) && bool_decide (d < now)
                      | None => false
                      end);
     upcomingTasksCount :=
       count (λ task, match deadline task with
                      | Some d => bool_decide (status task = PENDING)
                                  && bool_decide (now ≤ d) && bool_decide (d ≤ nextWeek)
                      | None => false
                      end) |}.

Definition getListStatistics (i : string) (now : Z) (s : MemoryStore)
    : Outcome (List * ListStatistics) * MemoryStore :=
  match getListById i now s with
  | (Raised e, s) => (Raised e, s)
  | (Returned list, s) =>
      let '(page, s) :=
        TaskRepository.getTasksByListId localeCompare i None None None None now s in
      (Returned (list, statisticsOf (items page) now), s)
  end.

End Methods.

End ListService.

(** * Specification

    The predicates the properties are stated with, the operations of the
    repositories as a type, and the stores and inputs of the examples. *)

Section IndexKeys.
Context `{Countable K}.
Implicit Types (m : gmap K (gset string)) (k : K) (i j : string).

(** The index [m] holds exactly the tasks of [ts], each under its key. *)
Definition indexes_by m (ts : gmap string Task) (key : Task → option K) : Prop :=
  ∀ k i, i ∈ bucket m k ↔ ∃ t, ts !! i = Some t ∧ key t = Some k.

Definition addKey (o : option K) i m : gmap K (gset string) :=
  match o with Some k => memoryStore.indexAdd k i m | None => m end.
Definition removeKey (o : option K) i m : gmap K (gset string) :=
  match o with Some k => memoryStore.indexRemove k i m | None => m end.

End IndexKeys.

(** ** Consistency of the indexes *)

(** The key of a task in each of the four indexes. *)
Definition listKey (t : Task) : option string := Some (list_id t).
Definition statusKey (t : Task) : option TaskStatus := Some (status t).
Definition priorityKey (t : Task) : option TaskPriority := Some (priority t).
Definition deadlineKey (t : Task) : option Z := memoryStore.formatDateKey <$> deadline t.

(** Every task is stored under its own id, and each index holds a task id
    under a key exactly when the stored task has that key now. *)
Record consistent (ts : gmap string Task) (ix : StorageIndexes) : Prop := {
  c_key : ∀ i t, ts !! i = Some t → id t = i;
  c_list : indexes_by (tasksByListId ix) ts listKey;
  c_status : indexes_by (tasksByStatus ix) ts statusKey;
  c_priority : indexes_by (tasksByPriority ix) ts priorityKey;
  c_deadline : indexes_by (tasksByDeadlineDate ix) ts deadlineKey;
}.

Definition indexes_consistent (s : MemoryStore) : Prop :=
  consistent (tasks s) (indexes s).

(** ** The task counts, [completed_at], the references to lists *)

(** The list map after [updateListTaskCount(listId)]. *)
Definition recount (listId : string) (now : Z) (ix : StorageIndexes)
    (ls : gmap string List) : gmap string List :=
  match ls !! listId with
  | Some l =>
      <[listId := memoryStore.setTasksCount (size (bucket (tasksByListId ix) listId)) now l]> ls
  | None => ls
  end.

(** The list map after the recounts of [updateTask]. *)
Definition recountMoved (old : string) (u : TaskUpdates) (now : Z)
    (ix : StorageIndexes) (ls : gmap string List) : gmap string List :=
  match u_list_id u with
  | Some newList =>
      if decide (truthy newList ∧ newList ≠ old)
      then recount newList now ix (recount old now ix ls)
      else ls
  | None => ls
  end.

(** The cascade of [deleteList]: [deleteTask] over a list of ids. *)
Definition deleteTasks (ids : list string) (now : Z) (s : MemoryStore) : MemoryStore :=
  foldl (λ s taskId, (memoryStore.deleteTask taskId now s).2) s ids.

(** Every list outside [E] carries the size of its bucket of [tasksByListId]. *)
Definition counts_except (E : gset string) (ls : gmap string List)
    (ix : StorageIndexes) : Prop :=
  ∀ k l, ls !! k = Some l → k ∉ E → tasks_count l = size (bucket (tasksByListId ix) k).

Definition counts_ok (s : MemoryStore) : Prop :=
  counts_except ∅ (lists s) (indexes s).

(** A patch that names another list names it by a string that is not empty. *)
Definition names_a_list (u : TaskUpdates) (t : Task) : Prop :=
  ∀ n, u_list_id u = Some n → n = list_id t ∨ truthy n.

(** The number of task records whose [list_id] is [k]. *)
Definition tasksReferencing (k : string) (s : MemoryStore) : nat :=
  size (filter (λ it : string * Task, list_id it.2 = k) (tasks s)).

(** Every list is stored under its own id. *)
Definition list_keys_ok (ls : gmap string List) : Prop :=
  ∀ k l, ls !! k = Some l → l_id l = k.

(** A task has a [completed_at] exactly when it is completed. *)
Definition completed_iff (t : Task) : Prop :=
  is_Some (completed_at t) ↔ status t = COMPLETED.

Definition completed_ok (s : MemoryStore) : Prop :=
  ∀ i t, tasks s !! i = Some t → completed_iff t.

(** Every task refers to a list of the store. *)
Definition refs_ok (s : MemoryStore) : Prop :=
  ∀ i t, tasks s !! i = Some t → is_Some (lists s !! list_id t).

(** ** Sequences of operations *)

(** The operations of the two repositories that change the store. *)
Inductive RepoOp :=
| CreateList (input : CreateListInput) (newId : string)
| UpdateList (i : string) (input : UpdateListInput)
| DeleteList (i : string) (deleteAssociatedTasks : bool)
| CreateTask (input : CreateTaskInput) (newId : string)
| UpdateTask (i : string) (input : UpdateTaskInput)
| DeleteTask (i : string)
| CompleteTask (i : string)
| UncompleteTask (i : string).

(** The store after the operation, run at time [now]. *)
Definition exec (op : RepoOp) (now : Z) (s : MemoryStore) : MemoryStore :=
  match op with
  | CreateList input newId => (ListRepository.createList input newId now s).2
  | UpdateList i input => (ListRepository.updateList i input now s).2
  | DeleteList i c => (ListRepository.deleteList i c now s).2
  | CreateTask input newId => (TaskRepository.createTask input newId now s).2
  | UpdateTask i input => (TaskRepository.updateTask i input now s).2
  | DeleteTask i => (TaskRepository.deleteTask i now s).2
  | CompleteTask i => (TaskRepository.completeTask i now s).2
  | UncompleteTask i => (TaskRepository.uncompleteTask i now s).2
  end.

(** An id that [generateId()] may return: no record carries it and no task
    refers to it. *)
Definition unused (newId : string) (s : MemoryStore) : Prop :=
  lists s !! newId = None ∧ tasks s !! newId = None
  ∧ map_Forall (λ _ t, list_id t ≠ newId) (tasks s).

(** The inputs the operations are given: a generated id is unused, and a
    patch does not name the empty string as a list id (ids are UUIDs). *)
Definition well_formed (op : RepoOp) (s : MemoryStore) : Prop :=
  match op with
  | CreateList _ newId => unused newId s
  | CreateTask _ newId => unused newId s
  | UpdateTask _ input => ui_list_id input ≠ Some ""
  | _ => True
  end.

(** A sequence of operations, each with the time it runs at. *)
Fixpoint run (ops : list (RepoOp * Z)) (s : MemoryStore) : MemoryStore :=
  match ops with
  | [] => s
  | (op, now) :: ops => run ops (exec op now s)
  end.

Fixpoint well_formed_run (ops : list (RepoOp * Z)) (s : MemoryStore) : Prop :=
  match ops with
  | [] => True
  | (op, now) :: ops => well_formed op s ∧ well_formed_run ops (exec op now s)
  end.

(** The task [TaskRepository.createTask] builds. *)
Definition newTask (input : CreateTaskInput) (newId : string) (now : Z) : Task :=
  {| id := newId;
     list_id := ci_list_id input;
     title := trim (ci_title input);
     description := trimmedWhenTruthy (ci_description input);
     deadline := ci_deadline input;
     priority := default MEDIUM (ci_priority input);
     status := PENDING;
     completed_at := None;
     created_at := now;
     updated_at := now |}.

(** The stores between which [TaskRepository.updateTask] runs the update of
    the store: the reads before it only touch the statistics. *)
Definition readsBeforeUpdate (t : Task) (input : UpdateTaskInput) (now : Z)
    (s : MemoryStore) : MemoryStore :=
  match ui_list_id input with
  | Some n =>
      if decide (truthy n ∧ n ≠ list_id t)
      then updateStats now (updateStats now s) else updateStats now s
  | None => updateStats now s
  end.

(** The update names a list to move to that the store does not hold. *)
Definition movesToMissingList (t : Task) (input : UpdateTaskInput)
    (s : MemoryStore) : bool :=
  match ui_list_id input with
  | Some n => bool_decide (truthy n ∧ n ≠ list_id t) && bool_decide (lists s !! n = None)
  | None => false
  end.

(** The patch of [TaskRepository.completeTask]. *)
Definition completionPatch (now : Z) : TaskUpdates :=
  {| u_list_id := None; u_title := None; u_description := None;
     u_deadline := None; u_priority := None;
     u_status := Some COMPLETED; u_completed_at := Some now;
     u_created_at := None |}.

(** The list [ListRepository.createList] builds. *)
Definition newList (input : CreateListInput) (newId : string) (now : Z) : List :=
  {| l_id := newId;
     l_name := trim (cl_name input);
     l_description := trimmedWhenTruthy (cl_description input);
     l_color := match cl_color input with
                | Some c => if decide (truthy c) then Some c else None
                | None => None
                end;
     tasks_count := 0;
     l_created_at := now;
     l_updated_at := now |}.

(** A list is deleted together with its tasks, or no task refers to it. *)
Definition cascades (op : RepoOp) (s : MemoryStore) : Prop :=
  match op with
  | DeleteList i c => c = true ∨ tasksReferencing i s = 0%nat
  | _ => True
  end.

Fixpoint cascading_run (ops : list (RepoOp * Z)) (s : MemoryStore) : Prop :=
  match ops with
  | [] => True
  | (op, now) :: ops => cascades op s ∧ cascading_run ops (exec op now s)
  end.

#[global] Instance unused_dec newId s : Decision (unused newId s).
Proof. unfold unused. apply _. Defined.

#[global] Instance well_formed_dec op s : Decision (well_formed op s).
Proof. destruct op; simpl; apply _. Defined.

#[global] Instance cascades_dec op s : Decision (cascades op s).
Proof. destruct op; simpl; apply _. Defined.

#[global] Instance cascading_run_dec ops s : Decision (cascading_run ops s).
Proof.
  revert s. induction ops as [|[op now] ops IH]; intros s; simpl; [apply _|].
  apply and_dec; [apply _|apply IH].
Defined.

#[global] Instance well_formed_run_dec ops s : Decision (well_formed_run ops s).
Proof.
  revert s. induction ops as [|[op now] ops IH]; intros s; simpl; [apply _|].
  apply and_dec; [apply _|apply IH].
Defined.

(** One mutating method of the store, run on [s]. [createTask] is given a
    task whose id is new, as [generateId()] supplies it. *)
Inductive store_step (s : MemoryStore) : MemoryStore → Prop :=
| step_createList list now :
    store_step s (memoryStore.createList list now s).2
| step_updateList i u now :
    store_step s (memoryStore.updateList i u now s).2
| step_deleteList i deleteAssociatedTasks now :
    store_step s (memoryStore.deleteList i deleteAssociatedTasks now s).2
| step_createTask task now :
    tasks s !! id task = None →
    store_step s (memoryStore.createTask task now s).2
| step_updateTask i u now :
    store_step s (memoryStore.updateTask i u now s).2
| step_deleteTask i now :
    store_step s (memoryStore.deleteTask i now s).2.

(** ** Stores and inputs of the examples *)

(** One list, a task in it due at 08:00 of the first day. *)
Definition listWork : List :=
  {| l_id := "l1"; l_name := "Work"; l_description := None; l_color := None;
     tasks_count := 0; l_created_at := 1; l_updated_at := 1 |}.

Definition taskReport : Task :=
  {| id := "t1"; list_id := "l1"; title := "Report"; description := None;
     deadline := Some (8 * 3600000); priority := HIGH; status := PENDING;
     completed_at := None; created_at := 2; updated_at := 2 |}.

Definition storeWithReport : MemoryStore :=
  (memoryStore.createTask taskReport 2
     (memoryStore.createList listWork 1 (newStore 10 0)).2).2.

(** Two lists, a task created in the first, moved to the second and
    completed, then the first list deleted with its tasks. *)
Definition sampleRun : list (RepoOp * Z) :=
  [ (CreateList {| cl_name := "Work"; cl_description := None; cl_color := None |} "l1", 1);
    (CreateList {| cl_name := "Home"; cl_description := None; cl_color := None |} "l2", 2);
    (CreateTask {| ci_list_id := "l1"; ci_title := "Report"; ci_description := None;
                   ci_deadline := Some 100; ci_priority := Some HIGH |} "t1", 3);
    (CreateTask {| ci_list_id := "l1"; ci_title := "Slides"; ci_description := None;
                   ci_deadline := None; ci_priority := None |} "t2", 4);
    (UpdateTask "t1" {| ui_title := None; ui_description := None; ui_deadline := None;
                        ui_priority := None; ui_status := None;
                        ui_list_id := Some "l2" |}, 5);
    (CompleteTask "t1", 6);
    (DeleteList "l1" true, 7) ].

(** The task "t1" at the end of [sampleRun]. *)
Definition reportAtTheEnd : Task :=
  {| id := "t1"; list_id := "l2"; title := "Report"; description := None;
     deadline := Some 100; priority := HIGH; status := COMPLETED;
     completed_at := Some 6; created_at := 3; updated_at := 6 |}.

(** A list with one task, deleted without its tasks. *)
Definition runWithoutCascade : list (RepoOp * Z) :=
  [ (CreateList {| cl_name := "Work"; cl_description := None; cl_color := None |} "l1", 1);
    (CreateTask {| ci_list_id := "l1"; ci_title := "Report"; ci_description := None;
                   ci_deadline := None; ci_priority := None |} "t1", 2);
    (DeleteList "l1" false, 3) ].

(** ** Queries *)

(** The tasks of one day bucket, as the loop collects them. *)
Definition dayTasks (day : Z) (s : MemoryStore) : list Task :=
  match tasksByDeadlineDate (indexes s) !! day with
  | Some taskIds => memoryStore.tasksOfIds taskIds s
  | None => []
  end.

(** The brute-force scan of the specification: the stored tasks whose
    deadline [d] has [fromDate <= d <= toDate]. *)
Definition inDeadlineRange (fromDate toDate : Z) (t : Task) : bool :=
  match deadline t with
  | Some d => bool_decide (fromDate ≤ d ≤ toDate)
  | None => false
  end.

Definition bruteForceDeadlineRange (fromDate toDate : Z) (s : MemoryStore) : list Task :=
  List.filter (inDeadlineRange fromDate toDate) (map_to_list (tasks s)).*2.

Definition stored (t : Task) (s : MemoryStore) : Prop := ∃ i, tasks s !! i = Some t.

(** A task due at 03:00 of the second day. *)
Definition taskEarlyNextDay : Task :=
  {| id := "t2"; list_id := "l1"; title := "Call"; description := None;
     deadline := Some (27 * 3600000); priority := LOW; status := PENDING;
     completed_at := None; created_at := 3; updated_at := 3 |}.

(** The time zone UTC, and two zones with a clock change, each around that
    change. America/New_York leaves daylight saving time on 2026-11-01 at
    06:00 UTC, when the local clocks go from 02:00 back to 01:00: the
    offset is -4 hours before and -5 hours after, and a local time of the
    hour that occurs twice is read as the earlier of the two. Europe/London
    enters summer time on 2026-03-29 at 01:00 UTC, when the local clocks
    go from 01:00 on to 02:00: the offset is 0 before and +1 hour after,
    and a local time of the hour that is skipped is read with the offset
    before the change. *)
Definition utc : Z → bool → Z := λ _ _, 0.

Definition hour : Z := 3600000.
Definition nov1_2026 : Z := 20758 * memoryStore.msPerDay.
Definition mar29_2026 : Z := 20541 * memoryStore.msPerDay.

Definition newYork (t : Z) (isUTC : bool) : Z :=
  if isUTC then if decide (t < nov1_2026 + 6 * hour) then -4 * hour else -5 * hour
  else if decide (t < nov1_2026 + 2 * hour) then -4 * hour else -5 * hour.

Definition london (t : Z) (isUTC : bool) : Z :=
  if isUTC then if decide (t < mar29_2026 + 1 * hour) then 0 else 1 * hour
  else if decide (t < mar29_2026 + 2 * hour) then 0 else 1 * hour.

(** A task due on 2026-11-02 at 01:00 UTC, and one due on 2026-03-29 at
    12:00 UTC, each in a store of its own. *)
Definition taskNovember : Task :=
  {| id := "t3"; list_id := "l1"; title := "Audit"; description := None;
     deadline := Some (nov1_2026 + 25 * hour); priority := LOW; status := PENDING;
     completed_at := None; created_at := 3; updated_at := 3 |}.

Definition taskMarch : Task :=
  {| id := "t4"; list_id := "l1"; title := "Taxes"; description := None;
     deadline := Some (mar29_2026 + 12 * hour); priority := LOW; status := PENDING;
     completed_at := None; created_at := 3; updated_at := 3 |}.

Definition storeInNovember : MemoryStore :=
  (memoryStore.createTask taskNovember 3
     (memoryStore.createList listWork 1 (newStore 10 0)).2).2.

Definition storeInMarch : MemoryStore :=
  (memoryStore.createTask taskMarch 3
     (memoryStore.createList listWork 1 (newStore 10 0)).2).2.

(** [n] rounds of a loop, counted one by one. *)
Fixpoint roundsN {St R : Type} (round : St → St + R) (n : nat) (st : St) : St + R :=
  match n with
  | O => inl st
  | S n =>
      match round st with
      | inl st => roundsN round n st
      | inr r => inr r
      end
  end.

(** The date [k] local days after [date]. *)
Fixpoint localDaysLater (LocalTZA : Z → bool → Z) (k : nat) (date : Z) : Z :=
  match k with
  | O => date
  | S k => localDaysLater LocalTZA k (memoryStore.nextLocalDay LocalTZA date)
  end.

(** What the loop of getTasksByDeadlineRange collects in [n] rounds from
    [currentDate] on: the buckets of the UTC days of [currentDate], of the
    date one local day later, ..., as long as the date does not pass
    [toDate]. *)
Fixpoint collected (LocalTZA : Z → bool → Z) (n : nat) (currentDate toDate : Z)
    (s : MemoryStore) : list Task :=
  match n with
  | O => []
  | S n =>
      if decide (currentDate ≤ toDate) then
        dayTasks (memoryStore.formatDateKey currentDate) s
        ++ collected LocalTZA n (memoryStore.nextLocalDay LocalTZA currentDate) toDate s
      else []
  end.

(** [lists.size + tasks.size] *)
Definition totalEntities (s : MemoryStore) : Z :=
  Z.of_nat (size (lists s)) + Z.of_nat (size (tasks s)).

(** Inserting the lists of [ls] one after the other: whether every insert
    succeeded, and the store at the end. *)
Fixpoint insertAll (ls : list List) (now : Z) (s : MemoryStore) : bool * MemoryStore :=
  match ls with
  | [] => (true, s)
  | l :: ls =>
      match memoryStore.createList l now s with
      | (Ok _, s') => insertAll ls now s'
      | (Err _, s') => (false, s')
      end
  end.

(** A store of capacity 1, empty and then full. *)
Definition storeOfOne : MemoryStore := newStore 1 0.
Definition storeOfOneFull : MemoryStore := (memoryStore.createList listWork 1 storeOfOne).2.

(** A store with one task, completed, under a UUID. *)
Definition taskDone : Task :=
  {| id := "123e4567-e89b-42d3-a456-426614174000"; list_id := "l1"; title := "Report";
     description := None; deadline := None; priority := MEDIUM; status := COMPLETED;
     completed_at := Some 5; created_at := 2; updated_at := 5 |}.

Definition storeWithTaskDone : MemoryStore :=
  (memoryStore.createTask taskDone 5
     (memoryStore.createList listWork 1 (newStore 10 0)).2).2.

(** The filters without their deadline bounds. *)
Definition withoutDeadlineBounds (filters : TaskFilterParams) : TaskFilterParams :=
  {| f_list_id := f_list_id filters;
     f_status := f_status filters;
     f_priority := f_priority filters;
     f_deadline_from := None;
     f_deadline_to := None;
     f_search := f_search filters |}.

(** A task without a deadline, and filters with both deadline bounds. *)
Definition taskSlides : Task :=
  {| id := "t2"; list_id := "l1"; title := "Slides"; description := None;
     deadline := None; priority := MEDIUM; status := PENDING;
     completed_at := None; created_at := 4; updated_at := 4 |}.

Definition pendingThisWeek : TaskFilterParams :=
  {| f_list_id := None; f_status := Some PENDING; f_priority := None;
     f_deadline_from := Some 100; f_deadline_to := Some 200; f_search := None |}.

(** The candidates a task query filters. *)
Definition filtered (tasks : list Task) (filters : option TaskFilterParams) : list Task :=
  match filters with
  | Some filters => TaskRepository.applyFilters tasks filters
  | None => tasks
  end.

(** Two lists, of which the search term "work" keeps one. *)
Definition listHome : List :=
  {| l_id := "l2"; l_name := "Home"; l_description := None; l_color := None;
     tasks_count := 0; l_created_at := 2; l_updated_at := 2 |}.

Definition storeOfTwoLists : MemoryStore :=
  (memoryStore.createList listHome 2
     (memoryStore.createList listWork 1 (newStore 10 0)).2).2.

(** No task without a deadline stands before a task with one. *)
Fixpoint deadlinesLast (l : list Task) : Prop :=
  match l with
  | [] => True
  | t :: l' => (deadline t = None → Forall (λ t', deadline t' = None) l') ∧ deadlinesLast l'
  end.

(** ** The buckets of the indexes *)

(** No key of the index holds an empty set: [removeTaskFromIndexes] deletes a
    key together with its last id. *)
Definition pruned_index `{Countable K} (m : gmap K (gset string)) : Prop :=
  ∀ k ids, m !! k = Some ids → ids ≠ ∅.

Definition pruned (ix : StorageIndexes) : Prop :=
  pruned_index (tasksByListId ix) ∧ pruned_index (tasksByStatus ix)
  ∧ pruned_index (tasksByPriority ix) ∧ pruned_index (tasksByDeadlineDate ix).

(** The number of task records whose key is [k]. *)
Definition tasksWithKey {K} `{EqDecision K} (key : Task → option K) (k : K)
    (ts : gmap string Task) : nat :=
  size (filter (λ it : string * Task, key it.2 = Some k) ts).

(** One call of a method of the store: a mutating method, [clear()], or a
    reading method, which touches the statistics only. *)
Inductive store_call (s : MemoryStore) : MemoryStore → Prop :=
| call_step s' : store_step s s' → store_call s s'
| call_clear : store_call s (memoryStore.clear s)
| call_read now : store_call s (updateStats now s).

(** The stores that calls of the class reach from a new store. *)
Definition reachable (s : MemoryStore) : Prop :=
  ∃ m t0, rtc store_call (newStore m t0) s.

(** A second path to the task map of [storeWithReport]: another task is
    created first and deleted at the end. *)
Definition storeWithReportAgain : MemoryStore :=
  (memoryStore.deleteTask "t2" 9
     (memoryStore.createTask taskReport 5
        (memoryStore.createTask taskSlides 4
           (memoryStore.createList listWork 1 (newStore 10 0)).2).2).2).2.

(** ** The statistics, failed operations, list names *)

(** The two counters of the statistics are the sizes of the two maps. *)
Definition stats_ok (s : MemoryStore) : Prop :=
  listsCount (stats s) = Z.of_nat (size (lists s))
  ∧ tasksCount (stats s) = Z.of_nat (size (tasks s)).

Definition isErr {A} (r : Result A) : bool :=
  match r with Err _ => true | Ok _ => false end.

(** The operation, run at [now] on [s], throws. *)
Definition failed (op : RepoOp) (now : Z) (s : MemoryStore) : bool :=
  match op with
  | CreateList input newId => isErr (ListRepository.createList input newId now s).1
  | UpdateList i input => isErr (ListRepository.updateList i input now s).1
  | DeleteList i c => isErr (ListRepository.deleteList i c now s).1
  | CreateTask input newId => isErr (TaskRepository.createTask input newId now s).1
  | UpdateTask i input => isErr (TaskRepository.updateTask i input now s).1
  | DeleteTask i => isErr (TaskRepository.deleteTask i now s).1
  | CompleteTask i => isErr (TaskRepository.completeTask i now s).1
  | UncompleteTask i => isErr (TaskRepository.uncompleteTask i now s).1
  end.

(** No two lists have the same name, letter case ignored. *)
Definition names_unique (ls : gmap string List) : Prop :=
  ∀ i j li lj, ls !! i = Some li → ls !! j = Some lj →
    ListRepository.sameName (l_name li) (l_name lj) = true → i = j.

(** The list [l'] is the list [l] but for [tasks_count] and [updated_at]. *)
Definition recounted (l l' : List) : Prop :=
  l_id l' = l_id l ∧ l_name l' = l_name l ∧ l_description l' = l_description l
  ∧ l_color l' = l_color l ∧ l_created_at l' = l_created_at l.

(** Every list of [ls'] is a list of [ls] under the same key, unchanged
    but for [tasks_count] and [updated_at]. *)
Definition names_from (ls ls' : gmap string List) : Prop :=
  ∀ k l', ls' !! k = Some l' → ∃ l, ls !! k = Some l ∧ recounted l l'.

(** An update of a list does not carry the empty string as the name (the
    validation schema asks for one character at least). *)
Definition names_given (op : RepoOp) : Prop :=
  match op with
  | UpdateList _ input => ul_name input ≠ Some ""
  | _ => True
  end.

(** The check of [ListRepository.updateList]: the update carries a name
    that another list has. *)
Definition nameTaken (i : string) (input : UpdateListInput) (s : MemoryStore) : bool :=
  match ul_name input with
  | Some name =>
      bool_decide (truthy name)
      && existsb (λ list, bool_decide (l_id list ≠ i)
                          && ListRepository.sameName (l_name list) (trim name))
           (map_to_list (lists s)).*2
  | None => false
  end.

(** Two lists; the second is renamed to the name of the first in capitals,
    which is refused, and then to a name of its own. *)
Definition renamingRun : list (RepoOp * Z) :=
  [ (CreateList {| cl_name := "Work"; cl_description := None; cl_color := None |} "l1", 1);
    (CreateList {| cl_name := "Home"; cl_description := None; cl_color := None |} "l2", 2);
    (UpdateList "l2" {| ul_name := Some " WORK "; ul_description := None;
                        ul_color := None |}, 3);
    (UpdateList "l2" {| ul_name := Some "Garden"; ul_description := None;
                        ul_color := None |}, 4) ].

(** The task passes the filters of a query, if there are any. *)
Definition passes (filters : option TaskFilterParams) (t : Task) : Prop :=
  match filters with
  | Some filters => TaskRepository.keeps filters t = true
  | None => True
  end.

#[global] Instance passes_dec filters t : Decision (passes filters t).
Proof. destruct filters; simpl; apply _. Defined.

(** What the filters ask of a task, criterion by criterion: a criterion
    that is not given (or is the empty string) asks nothing, and the two
    deadline bounds ask nothing of a task without deadline. *)
Definition meets (f : TaskFilterParams) (t : Task) : Prop :=
  (∀ l, f_list_id f = Some l → truthy l → list_id t = l)
  ∧ (∀ st, f_status f = Some st → status t = st)
  ∧ (∀ p, f_priority f = Some p → priority t = p)
  ∧ (∀ from d, f_deadline_from f = Some from → deadline t = Some d → from ≤ d)
  ∧ (∀ to d, f_deadline_to f = Some to → deadline t = Some d → d ≤ to)
  ∧ (∀ x, f_search f = Some x → truthy x →
       includes (toLowerCase (title t)) (toLowerCase x) = true
       ∨ ∃ d, description t = Some d ∧ includes (toLowerCase d) (toLowerCase x) = true).

(** What the filters ask of a task apart from the two deadline bounds. *)
Definition meetsOtherFilters (f : TaskFilterParams) (t : Task) : Prop :=
  (∀ l, f_list_id f = Some l → truthy l → list_id t = l)
  ∧ (∀ st, f_status f = Some st → status t = st)
  ∧ (∀ p, f_priority f = Some p → priority t = p)
  ∧ (∀ x, f_search f = Some x → truthy x →
       includes (toLowerCase (title t)) (toLowerCase x) = true
       ∨ ∃ d, description t = Some d ∧ includes (toLowerCase d) (toLowerCase x) = true).

(** The order a comparator sorts into: [a] may stand before [b]. *)
Definition inOrder {A} (compare : A → A → Z) (a b : A) : Prop := compare a b ≤ 0.

(** The task after it is moved to the list [target] at [now]. *)
Definition movedTo (target : string) (now : Z) (t : Task) : Task :=
  {| id := id t; list_id := target; title := title t;
     description := description t; deadline := deadline t;
     priority := priority t; status := status t;
     completed_at := completed_at t; created_at := created_at t;
     updated_at := now |}.

(** The moves of [moveAllTasksToList] as operations of the repository. *)
Definition moves (tasks : list Task) (target : string) (now : Z) : list (RepoOp * Z) :=
  (λ t, (UpdateTask (id t) (ListService.toList target), now)) <$> tasks.

(** Two lists under UUIDs, the first with a pending and a completed task. *)
Definition uuidWork : string := "123e4567-e89b-42d3-a456-426614174001".
Definition uuidHome : string := "123e4567-e89b-42d3-a456-426614174002".

Definition storeWithUuids : MemoryStore :=
  run [ (CreateList {| cl_name := "Work"; cl_description := None; cl_color := None |}
           uuidWork, 1);
        (CreateList {| cl_name := "Home"; cl_description := None; cl_color := None |}
           uuidHome, 2);
        (CreateTask {| ci_list_id := uuidWork; ci_title := "Report"; ci_description := None;
                       ci_deadline := Some 100; ci_priority := Some HIGH |}
           "123e4567-e89b-42d3-a456-426614174003", 3);
        (CreateTask {| ci_list_id := uuidWork; ci_title := "Slides"; ci_description := None;
                       ci_deadline := None; ci_priority := None |}
           "123e4567-e89b-42d3-a456-426614174004", 4);
        (CompleteTask "123e4567-e89b-42d3-a456-426614174004", 5) ]
    (newStore 10 0).

(** A text without white space at its start and at its end: [trim] leaves
    it as it is. *)
Definition trimmed (x : string) : Prop := trim x = x.

(** The names and descriptions of the lists and the titles and
    descriptions of the tasks are trimmed. *)
Definition texts_trimmed (s : MemoryStore) : Prop :=
  (∀ k l, lists s !! k = Some l →
     trimmed (l_name l) ∧ ∀ d, l_description l = Some d → trimmed d)
  ∧ (∀ i t, tasks s !! i = Some t →
       trimmed (title t) ∧ ∀ d, description t = Some d → trimmed d).

(** The characters of [trimStart], on lists. *)
Fixpoint dropWhiteSpace (l : list Ascii.ascii) : list Ascii.ascii :=
  match l with
  | c :: l' => if isWhiteSpace c then dropWhiteSpace l' else l
  | [] => []
  end.

(** The list does not start with white space. *)
Definition startsBlack (l : list Ascii.ascii) : Prop :=
  match l with
  | c :: _ => isWhiteSpace c = false
  | [] => True
  end.

(** The task with another time of the last update. *)
Definition withUpdatedAt (now : Z) (t : Task) : Task :=
  {| id := id t; list_id := list_id t; title := title t;
     description := description t; deadline := deadline t;
     priority := priority t; status := status t;
     completed_at := completed_at t; created_at := created_at t;
     updated_at := now |}.

(** * Properties *)

(** ** One index *)

Section Index.
Context `{Countable K}.
Implicit Types (m : gmap K (gset string)) (k : K) (i j : string).

Lemma elem_of_bucket_indexAdd m k i k' j :
  j ∈ bucket (memoryStore.indexAdd k i m) k' ↔ (k' = k ∧ j = i) ∨ j ∈ bucket m k'.
Proof.
  unfold memoryStore.indexAdd, bucket. destruct (decide (k = k')) as [->|Hne].
  - rewrite lookup_insert_eq. simpl. set_solver.
  - rewrite lookup_insert_ne by done. naive_solver.
Qed.

Lemma elem_of_bucket_indexRemove m k i k' j :
  j ∈ bucket (memoryStore.indexRemove k i m) k' ↔ j ∈ bucket m k' ∧ ¬ (k' = k ∧ j = i).
Proof.
  unfold memoryStore.indexRemove, bucket.
  destruct (m !! k) as [ids|] eqn:Hk.
  - case_decide as Hsz.
    + apply size_empty_inv in Hsz.
      destruct (decide (k = k')) as [<-|Hne].
      * rewrite lookup_delete_eq, Hk. simpl. set_solver.
      * rewrite lookup_delete_ne by done. naive_solver.
    + destruct (decide (k = k')) as [<-|Hne].
      * rewrite lookup_insert_eq, Hk. simpl. set_solver.
      * rewrite lookup_insert_ne by done. naive_solver.
  - destruct (decide (k = k')) as [<-|Hne].
    + rewrite Hk. simpl. set_solver.
    + naive_solver.
Qed.

Lemma indexes_by_empty (key : Task → option K) : indexes_by ∅ ∅ key.
Proof.
  intros k i. unfold bucket. rewrite lookup_empty. simpl. split; [set_solver|].
  intros (t & Ht & _). by rewrite lookup_empty in Ht.
Qed.

Lemma indexes_by_add m ts (key : Task → option K) i t :
  indexes_by m ts key → ts !! i = None →
  indexes_by (addKey (key t) i m) (<[i := t]> ts) key.
Proof.
  intros Hm Hi k j. unfold addKey. destruct (key t) as [kt|] eqn:Hkt.
  - rewrite elem_of_bucket_indexAdd, (Hm k j). split.
    + intros [[-> ->]|(t' & Ht' & Hk)].
      * exists t. by rewrite lookup_insert_eq.
      * exists t'. rewrite lookup_insert_ne; [done|congruence].
    + intros (t' & Ht' & Hk). destruct (decide (i = j)) as [->|Hne].
      * rewrite lookup_insert_eq in Ht'. left. split; congruence.
      * rewrite lookup_insert_ne in Ht' by done. right. eauto.
  - rewrite (Hm k j). split.
    + intros (t' & Ht' & Hk). exists t'. rewrite lookup_insert_ne; [done|congruence].
    + intros (t' & Ht' & Hk). destruct (decide (i = j)) as [->|Hne].
      * rewrite lookup_insert_eq in Ht'. congruence.
      * rewrite lookup_insert_ne in Ht' by done. eauto.
Qed.

Lemma indexes_by_remove m ts (key : Task → option K) i t :
  indexes_by m ts key → ts !! i = Some t →
  indexes_by (removeKey (key t) i m) (delete i ts) key.
Proof.
  intros Hm Hi k j. unfold removeKey. destruct (key t) as [kt|] eqn:Hkt.
  - rewrite elem_of_bucket_indexRemove, (Hm k j). split.
    + intros [(t' & Ht' & Hk) Hn]. exists t'. split; [|done].
      rewrite lookup_delete_ne; [done|]. intros <-. apply Hn. split; congruence.
    + intros (t' & Ht' & Hk). destruct (decide (i = j)) as [->|Hne].
      * by rewrite lookup_delete_eq in Ht'.
      * rewrite lookup_delete_ne in Ht' by done. split; [eauto|]. intros [_ ?]. congruence.
  - rewrite (Hm k j). split.
    + intros (t' & Ht' & Hk). exists t'. split; [|done].
      rewrite lookup_delete_ne; [done|]. intros <-. congruence.
    + intros (t' & Ht' & Hk). destruct (decide (i = j)) as [->|Hne].
      * by rewrite lookup_delete_eq in Ht'.
      * rewrite lookup_delete_ne in Ht' by done. eauto.
Qed.

End Index.

(** ** The four indexes and the task map *)

Lemma updateTaskIndexes_keys t ix :
  memoryStore.updateTaskIndexes t ix =
  {| tasksByListId := addKey (listKey t) (id t) (tasksByListId ix);
     tasksByStatus := addKey (statusKey t) (id t) (tasksByStatus ix);
     tasksByPriority := addKey (priorityKey t) (id t) (tasksByPriority ix);
     tasksByDeadlineDate := addKey (deadlineKey t) (id t) (tasksByDeadlineDate ix) |}.
Proof. unfold memoryStore.updateTaskIndexes, deadlineKey. by destruct (deadline t). Qed.

Lemma removeTaskFromIndexes_keys t ix :
  memoryStore.removeTaskFromIndexes t ix =
  {| tasksByListId := removeKey (listKey t) (id t) (tasksByListId ix);
     tasksByStatus := removeKey (statusKey t) (id t) (tasksByStatus ix);
     tasksByPriority := removeKey (priorityKey t) (id t) (tasksByPriority ix);
     tasksByDeadlineDate := removeKey (deadlineKey t) (id t) (tasksByDeadlineDate ix) |}.
Proof. unfold memoryStore.removeTaskFromIndexes, deadlineKey. by destruct (deadline t). Qed.

Lemma consistent_empty : consistent ∅ (indexes (newStore 0 0)).
Proof.
  split; simpl; try apply indexes_by_empty.
  intros i t Hi. by rewrite lookup_empty in Hi.
Qed.

Lemma consistent_add ts ix t :
  consistent ts ix → ts !! id t = None →
  consistent (<[id t := t]> ts) (memoryStore.updateTaskIndexes t ix).
Proof.
  intros [Hk Hl Hs Hp Hd] Hfresh. rewrite updateTaskIndexes_keys.
  split; cbn [tasksByListId tasksByStatus tasksByPriority tasksByDeadlineDate];
    try by apply indexes_by_add.
  intros i t' Hi. destruct (decide (id t = i)) as [<-|Hne].
  - rewrite lookup_insert_eq in Hi. congruence.
  - rewrite lookup_insert_ne in Hi by done. eauto.
Qed.

Lemma consistent_remove ts ix i t :
  consistent ts ix → ts !! i = Some t →
  consistent (delete i ts) (memoryStore.removeTaskFromIndexes t ix).
Proof.
  intros [Hk Hl Hs Hp Hd] Hi. rewrite removeTaskFromIndexes_keys.
  rewrite (Hk i t Hi).
  split; cbn [tasksByListId tasksByStatus tasksByPriority tasksByDeadlineDate];
    try by apply indexes_by_remove.
  intros j t' Hj. apply lookup_delete_Some in Hj as [_ Hj]. eauto.
Qed.

Lemma consistent_update ts ix i t t' :
  consistent ts ix → ts !! i = Some t → id t' = i →
  consistent (<[i := t']> ts)
    (memoryStore.updateTaskIndexes t' (memoryStore.removeTaskFromIndexes t ix)).
Proof.
  intros Hc Hi <-. rewrite <- (insert_delete_eq ts).
  apply consistent_add; [by eapply consistent_remove|apply lookup_delete_eq].
Qed.

(** ** What each method of the store leaves in the maps *)

Lemma updateListTaskCount_tasks l now s :
  tasks (memoryStore.updateListTaskCount l now s) = tasks s.
Proof. unfold memoryStore.updateListTaskCount. by destruct (lists s !! l). Qed.

Lemma updateListTaskCount_indexes l now s :
  indexes (memoryStore.updateListTaskCount l now s) = indexes s.
Proof. unfold memoryStore.updateListTaskCount. by destruct (lists s !! l). Qed.

Lemma updateListTaskCount_maxSize l now s :
  maxSize (memoryStore.updateListTaskCount l now s) = maxSize s.
Proof. unfold memoryStore.updateListTaskCount. by destruct (lists s !! l). Qed.

Lemma updateListTaskCount_lists l now s :
  lists (memoryStore.updateListTaskCount l now s) = recount l now (indexes s) (lists s).
Proof.
  unfold memoryStore.updateListTaskCount, recount, bucket.
  destruct (lists s !! l); [|done]. simpl.
  by destruct (tasksByListId (indexes s) !! l).
Qed.

Lemma recount_dom l now ix ls i : is_Some (recount l now ix ls !! i) ↔ is_Some (ls !! i).
Proof.
  unfold recount. destruct (ls !! l) eqn:Hl; [|done].
  destruct (decide (l = i)) as [<-|Hne].
  - rewrite lookup_insert_eq, Hl. split; eauto.
  - by rewrite lookup_insert_ne.
Qed.

Lemma createTask_full task now s e :
  memoryStore.checkCapacity s = Some e →
  memoryStore.createTask task now s = (Err e, s).
Proof. intros He. unfold memoryStore.createTask. by rewrite He. Qed.

Lemma createTask_ok task now s :
  memoryStore.checkCapacity s = None →
  let s' := (memoryStore.createTask task now s).2 in
  (memoryStore.createTask task now s).1 = Ok ()
  ∧ tasks s' = <[id task := task]> (tasks s)
  ∧ indexes s' = memoryStore.updateTaskIndexes task (indexes s)
  ∧ lists s' = recount (list_id task) now (indexes s') (lists s)
  ∧ maxSize s' = maxSize s.
Proof.
  intros He. unfold memoryStore.createTask. rewrite He. cbn [fst snd].
  rewrite updateListTaskCount_tasks, updateListTaskCount_indexes,
    updateListTaskCount_lists, updateListTaskCount_maxSize. done.
Qed.

Lemma updateTask_missing i u now s :
  tasks s !! i = None →
  memoryStore.updateTask i u now s = (false, updateStats now s).
Proof. intros Hi. unfold memoryStore.updateTask. simpl. by rewrite Hi. Qed.

Lemma updateTask_found i u now s t :
  tasks s !! i = Some t →
  let s' := (memoryStore.updateTask i u now s).2 in
  (memoryStore.updateTask i u now s).1 = true
  ∧ tasks s' = <[i := memoryStore.mergeTask t u i now]> (tasks s)
  ∧ indexes s' = memoryStore.updateTaskIndexes (memoryStore.mergeTask t u i now)
                   (memoryStore.removeTaskFromIndexes t (indexes s))
  ∧ lists s' = recountMoved (list_id t) u now (indexes s') (lists s)
  ∧ maxSize s' = maxSize s.
Proof.
  intros Hi. unfold memoryStore.updateTask, recountMoved. simpl. rewrite Hi.
  cbn [fst snd]. destruct (u_list_id u) as [n|]; [|done].
  case_decide; [|done].
  rewrite !updateListTaskCount_tasks, !updateListTaskCount_indexes,
    !updateListTaskCount_lists, !updateListTaskCount_maxSize.
  rewrite !updateListTaskCount_indexes. done.
Qed.

Lemma deleteTask_missing i now s :
  tasks s !! i = None →
  memoryStore.deleteTask i now s = (false, updateStats now s).
Proof. intros Hi. unfold memoryStore.deleteTask. simpl. by rewrite Hi. Qed.

Lemma deleteTask_found i now s t :
  tasks s !! i = Some t →
  let s' := (memoryStore.deleteTask i now s).2 in
  (memoryStore.deleteTask i now s).1 = true
  ∧ tasks s' = delete i (tasks s)
  ∧ indexes s' = memoryStore.removeTaskFromIndexes t (indexes s)
  ∧ lists s' = recount (list_id t) now (indexes s') (lists s)
  ∧ maxSize s' = maxSize s.
Proof.
  intros Hi. unfold memoryStore.deleteTask. simpl. rewrite Hi. cbn [fst snd].
  rewrite updateListTaskCount_tasks, updateListTaskCount_indexes,
    updateListTaskCount_lists, updateListTaskCount_maxSize. done.
Qed.

(** ** Index consistency is kept by every method of the store *)

Lemma createTask_consistent task now s :
  indexes_consistent s → tasks s !! id task = None →
  indexes_consistent (memoryStore.createTask task now s).2.
Proof.
  intros Hc Hfresh. destruct (memoryStore.checkCapacity s) as [e|] eqn:He.
  - by rewrite (createTask_full _ _ _ _ He).
  - destruct (createTask_ok task now s He) as (_ & Ht & Hi & _).
    unfold indexes_consistent. rewrite Ht, Hi. by apply consistent_add.
Qed.

Lemma updateTask_consistent i u now s :
  indexes_consistent s → indexes_consistent (memoryStore.updateTask i u now s).2.
Proof.
  intros Hc. destruct (tasks s !! i) as [t|] eqn:Hi.
  - destruct (updateTask_found i u now s t Hi) as (_ & Ht & Hix & _).
    unfold indexes_consistent. rewrite Ht, Hix. by apply consistent_update.
  - by rewrite (updateTask_missing _ _ _ _ Hi).
Qed.

Lemma deleteTask_consistent i now s :
  indexes_consistent s → indexes_consistent (memoryStore.deleteTask i now s).2.
Proof.
  intros Hc. destruct (tasks s !! i) as [t|] eqn:Hi.
  - destruct (deleteTask_found i now s t Hi) as (_ & Ht & Hix & _).
    unfold indexes_consistent. rewrite Ht, Hix. by apply consistent_remove.
  - by rewrite (deleteTask_missing _ _ _ Hi).
Qed.

Lemma deleteTasks_consistent ids now s :
  indexes_consistent s → indexes_consistent (deleteTasks ids now s).
Proof.
  revert s. induction ids as [|i ids IH]; intros s Hc; [done|].
  apply IH. by apply deleteTask_consistent.
Qed.

Lemma deleteList_unfold i c now s :
  memoryStore.deleteList i c now s =
  match lists s !! i with
  | None => (false, updateStats now s)
  | Some _ =>
      (true,
       bumpListsCount (-1)
         (withLists (delete i)
            (if c then
               deleteTasks (elements (bucket (tasksByListId (indexes s)) i)) now
                 (updateStats now s)
             else updateStats now s)))
  end.
Proof.
  unfold memoryStore.deleteList, deleteTasks, bucket. simpl.
  destruct (lists s !! i); [|done]. destruct c; [|done].
  destruct (tasksByListId (indexes s) !! i); [done|].
  simpl. by rewrite elements_empty.
Qed.

Lemma deleteList_consistent i c now s :
  indexes_consistent s → indexes_consistent (memoryStore.deleteList i c now s).2.
Proof.
  intros Hc. rewrite deleteList_unfold. destruct (lists s !! i); [|done].
  destruct c; [|done]. by apply (deleteTasks_consistent _ now (updateStats now s)).
Qed.

Lemma createList_consistent list now s :
  indexes_consistent s → indexes_consistent (memoryStore.createList list now s).2.
Proof.
  intros Hc. unfold memoryStore.createList. by destruct (memoryStore.checkCapacity s).
Qed.

Lemma updateList_consistent i u now s :
  indexes_consistent s → indexes_consistent (memoryStore.updateList i u now s).2.
Proof.
  intros Hc. unfold memoryStore.updateList. simpl. by destruct (lists s !! i).
Qed.

(** ** The task counts of the lists *)

Lemma recount_except E E' a now ix ls :
  counts_except E ls ix → (∀ k, k ∉ E' → k ≠ a → k ∉ E) →
  counts_except E' (recount a now ix ls) ix.
Proof.
  intros Hc HE k l Hk Hn. unfold recount in Hk.
  destruct (ls !! a) as [la|] eqn:Ha.
  - destruct (decide (a = k)) as [<-|Hne].
    + rewrite lookup_insert_eq in Hk. by injection Hk as <-.
    + rewrite lookup_insert_ne in Hk by done. apply (Hc k l Hk). by apply HE.
  - apply (Hc k l Hk). apply HE; [done|]. intros ->. congruence.
Qed.

Lemma counts_except_buckets E E' ls ix ix' :
  counts_except E ls ix →
  (∀ k, k ∉ E' →
        (k ∉ E) ∧ bucket (tasksByListId ix') k = bucket (tasksByListId ix) k) →
  counts_except E' ls ix'.
Proof.
  intros Hc HE k l Hk Hn. destruct (HE k Hn) as [Hn' ->]. by apply Hc.
Qed.

Lemma bucket_list_add t ix k :
  k ≠ list_id t →
  bucket (tasksByListId (memoryStore.updateTaskIndexes t ix)) k = bucket (tasksByListId ix) k.
Proof.
  intros Hne. apply set_eq. intros j. simpl. rewrite elem_of_bucket_indexAdd. naive_solver.
Qed.

Lemma bucket_list_remove t ix k :
  k ≠ list_id t →
  bucket (tasksByListId (memoryStore.removeTaskFromIndexes t ix)) k
  = bucket (tasksByListId ix) k.
Proof.
  intros Hne. apply set_eq. intros j. simpl. rewrite elem_of_bucket_indexRemove. naive_solver.
Qed.

Lemma bucket_list_update t t' ix k :
  id t' = id t → id t ∈ bucket (tasksByListId ix) (list_id t) →
  (k ≠ list_id t ∧ k ≠ list_id t') ∨ list_id t' = list_id t →
  bucket (tasksByListId (memoryStore.updateTaskIndexes t'
            (memoryStore.removeTaskFromIndexes t ix))) k
  = bucket (tasksByListId ix) k.
Proof.
  intros Hid Hin Hk. apply set_eq. intros j. simpl.
  rewrite elem_of_bucket_indexAdd, elem_of_bucket_indexRemove, Hid.
  destruct Hk as [[? ?]|Heq]; [naive_solver|]. rewrite Heq.
  destruct (decide (k = list_id t ∧ j = id t)) as [[-> ->]|]; naive_solver.
Qed.

Lemma createTask_counts task now s :
  counts_ok s → counts_ok (memoryStore.createTask task now s).2.
Proof.
  intros Hc. destruct (memoryStore.checkCapacity s) as [e|] eqn:He.
  - by rewrite (createTask_full _ _ _ _ He).
  - destruct (createTask_ok task now s He) as (_ & _ & Hi & Hl & _).
    unfold counts_ok. rewrite Hl, Hi.
    apply (recount_except {[list_id task]}); [|set_solver].
    apply (counts_except_buckets ∅ _ _ (indexes s)); [done|].
    intros k Hk. split; [set_solver|]. apply bucket_list_add. set_solver.
Qed.

Lemma deleteTask_counts i now s :
  counts_ok s → counts_ok (memoryStore.deleteTask i now s).2.
Proof.
  intros Hc. destruct (tasks s !! i) as [t|] eqn:Hi.
  - destruct (deleteTask_found i now s t Hi) as (_ & _ & Hix & Hl & _).
    unfold counts_ok. rewrite Hl, Hix.
    apply (recount_except {[list_id t]}); [|set_solver].
    apply (counts_except_buckets ∅ _ _ (indexes s)); [done|].
    intros k Hk. split; [set_solver|]. apply bucket_list_remove. set_solver.
  - by rewrite (deleteTask_missing _ _ _ Hi).
Qed.

Lemma updateTask_counts i u now s :
  indexes_consistent s → counts_ok s →
  (∀ t, tasks s !! i = Some t → names_a_list u t) →
  counts_ok (memoryStore.updateTask i u now s).2.
Proof.
  intros Hic Hc Hu. destruct (tasks s !! i) as [t|] eqn:Hi.
  2: { by rewrite (updateTask_missing _ _ _ _ Hi). }
  specialize (Hu t eq_refl).
  destruct (updateTask_found i u now s t Hi) as (_ & _ & Hix & Hl & _).
  unfold counts_ok. rewrite Hl, Hix. clear Hl Hix.
  set (t' := memoryStore.mergeTask t u i now).
  assert (id t' = id t) as Hid by (symmetry; apply (c_key _ _ Hic i t Hi)).
  assert (id t ∈ bucket (tasksByListId (indexes s)) (list_id t)) as Hin.
  { apply (c_list _ _ Hic). exists t. split; [|done].
    by rewrite (c_key _ _ Hic i t Hi). }
  assert (list_id t' = default (list_id t) (u_list_id u)) as Hl' by done.
  unfold recountMoved. destruct (u_list_id u) as [n|] eqn:Hn; cbn [default] in Hl'.
  - case_decide as Hmv.
    + apply (recount_except {[n]}); [|set_solver].
      apply (recount_except {[n; list_id t]}); [|set_solver].
      apply (counts_except_buckets ∅ _ _ (indexes s)); [done|].
      intros k Hk. split; [set_solver|]. apply bucket_list_update; [done..|].
      left. rewrite Hl'. set_solver.
    + assert (n = list_id t) as ->.
      { destruct (decide (n = list_id t)); [done|]. exfalso. apply Hmv.
        split; [|done]. by destruct (Hu n Hn). }
      apply (counts_except_buckets ∅ _ _ (indexes s)); [done|].
      intros k Hk. split; [done|]. apply bucket_list_update; auto.
  - apply (counts_except_buckets ∅ _ _ (indexes s)); [done|].
    intros k Hk. split; [done|]. apply bucket_list_update; auto.
Qed.

Lemma deleteTasks_counts ids now s :
  counts_ok s → counts_ok (deleteTasks ids now s).
Proof.
  revert s. induction ids as [|i ids IH]; intros s Hc; [done|].
  apply IH. by apply deleteTask_counts.
Qed.

Lemma counts_except_delete E i ls ix :
  counts_except E ls ix → counts_except E (delete i ls) ix.
Proof. intros Hc k l Hk. apply lookup_delete_Some in Hk as [_ Hk]. by apply Hc. Qed.

Lemma deleteList_counts i c now s :
  counts_ok s → counts_ok (memoryStore.deleteList i c now s).2.
Proof.
  intros Hc. rewrite deleteList_unfold. destruct (lists s !! i); [|done].
  apply counts_except_delete. destruct c; [|done].
  by apply (deleteTasks_counts _ now (updateStats now s)).
Qed.

Lemma createList_counts list now s :
  counts_ok s →
  tasks_count list = size (bucket (tasksByListId (indexes s)) (l_id list)) →
  counts_ok (memoryStore.createList list now s).2.
Proof.
  intros Hc Hn. unfold memoryStore.createList.
  destruct (memoryStore.checkCapacity s); [done|].
  intros k l Hk _. simpl in Hk. destruct (decide (l_id list = k)) as [<-|Hne].
  - rewrite lookup_insert_eq in Hk. by injection Hk as <-.
  - rewrite lookup_insert_ne in Hk by done. by apply Hc.
Qed.

Lemma updateList_counts i u now s :
  counts_ok s → lu_tasks_count u = None →
  counts_ok (memoryStore.updateList i u now s).2.
Proof.
  intros Hc Hu. unfold memoryStore.updateList. simpl.
  destruct (lists s !! i) as [l0|] eqn:Hi; [|done].
  intros k l Hk _. simpl in Hk. destruct (decide (i = k)) as [<-|Hne].
  - rewrite lookup_insert_eq in Hk. injection Hk as <-. simpl. rewrite Hu. simpl.
    by apply Hc.
  - rewrite lookup_insert_ne in Hk by done. by apply Hc.
Qed.

Lemma bucket_size_tasksReferencing k s :
  indexes_consistent s →
  size (bucket (tasksByListId (indexes s)) k) = tasksReferencing k s.
Proof.
  intros Hc. unfold tasksReferencing. rewrite <- size_dom. f_equal.
  apply set_eq. intros i. rewrite (c_list _ _ Hc k i), elem_of_dom.
  unfold listKey. split.
  - intros (t & Ht & Hk). exists t. apply map_lookup_filter_Some. split; [done|].
    simpl. congruence.
  - intros [t Ht]. apply map_lookup_filter_Some in Ht as [Ht Hk]. exists t.
    split; [done|]. simpl in Hk. congruence.
Qed.

(** ** [completed_at] and the status *)

Lemma mergeTask_completed t u i now :
  completed_iff t → u_completed_at u = None ∨ u_status u = Some COMPLETED →
  completed_iff (memoryStore.mergeTask t u i now).
Proof.
  unfold completed_iff, memoryStore.mergeTask. simpl. intros Ht Hu.
  destruct (u_status u) as [[]|] eqn:Hs; simpl.
  - split; [by intros []|done].
  - case_decide as Hc.
    + split; eauto.
    + assert (status t = COMPLETED) as Hst.
      { destruct (decide (status t = COMPLETED)); [done|]. exfalso. by apply Hc. }
      split; [done|]. intros _. apply Ht in Hst as [d Hd]. rewrite Hd.
      destruct (u_completed_at u); eauto.
  - destruct Hu as [->|?]; [done|congruence].
Qed.

Lemma createTask_completed task now s :
  completed_ok s → completed_iff task →
  completed_ok (memoryStore.createTask task now s).2.
Proof.
  intros Hc Ht. destruct (memoryStore.checkCapacity s) as [e|] eqn:He.
  - by rewrite (createTask_full _ _ _ _ He).
  - destruct (createTask_ok task now s He) as (_ & Hts & _).
    intros i t Hi. rewrite Hts in Hi. destruct (decide (id task = i)) as [<-|Hne].
    + rewrite lookup_insert_eq in Hi. by injection Hi as <-.
    + rewrite lookup_insert_ne in Hi by done. eauto.
Qed.

Lemma updateTask_completed i u now s :
  completed_ok s → u_completed_at u = None ∨ u_status u = Some COMPLETED →
  completed_ok (memoryStore.updateTask i u now s).2.
Proof.
  intros Hc Hu. destruct (tasks s !! i) as [t|] eqn:Hi.
  - destruct (updateTask_found i u now s t Hi) as (_ & Hts & _).
    intros j t' Hj. rewrite Hts in Hj. destruct (decide (i = j)) as [<-|Hne].
    + rewrite lookup_insert_eq in Hj. injection Hj as <-.
      apply mergeTask_completed; eauto.
    + rewrite lookup_insert_ne in Hj by done. eauto.
  - by rewrite (updateTask_missing _ _ _ _ Hi).
Qed.

Lemma deleteTask_tasks i now s :
  tasks (memoryStore.deleteTask i now s).2 = delete i (tasks s).
Proof.
  destruct (tasks s !! i) as [t|] eqn:Hi.
  - by destruct (deleteTask_found i now s t Hi) as (_ & -> & _).
  - rewrite (deleteTask_missing _ _ _ Hi). simpl. symmetry. by apply delete_id.
Qed.

Lemma deleteTasks_tasks ids now s j :
  tasks (deleteTasks ids now s) !! j = if decide (j ∈ ids) then None else tasks s !! j.
Proof.
  revert s. induction ids as [|i ids IH]; intros s; simpl.
  - done.
  - rewrite IH, deleteTask_tasks.
    destruct (decide (j ∈ ids)) as [Hin|Hnin].
    + rewrite decide_True; [done|]. by right.
    + destruct (decide (i = j)) as [->|Hne].
      * rewrite lookup_delete_eq, decide_True; [done|]. by left.
      * rewrite lookup_delete_ne by done. rewrite decide_False; [done|].
        intros Hin. apply elem_of_cons in Hin as [?|?]; congruence.
Qed.

Lemma deleteTasks_subset ids now s j t :
  tasks (deleteTasks ids now s) !! j = Some t → tasks s !! j = Some t ∧ j ∉ ids.
Proof. rewrite deleteTasks_tasks. by case_decide. Qed.

Lemma deleteTask_completed i now s :
  completed_ok s → completed_ok (memoryStore.deleteTask i now s).2.
Proof.
  intros Hc j t Hj. rewrite deleteTask_tasks in Hj.
  apply lookup_delete_Some in Hj as [_ Hj]. eauto.
Qed.

Lemma deleteList_completed i c now s :
  completed_ok s → completed_ok (memoryStore.deleteList i c now s).2.
Proof.
  intros Hc. rewrite deleteList_unfold. destruct (lists s !! i); [|done].
  destruct c; [|done]. intros j t Hj. simpl in Hj.
  apply deleteTasks_subset in Hj as [Hj _]. eauto.
Qed.

Lemma createList_tasks list now s :
  tasks (memoryStore.createList list now s).2 = tasks s.
Proof. unfold memoryStore.createList. by destruct (memoryStore.checkCapacity s). Qed.

Lemma updateList_tasks i u now s :
  tasks (memoryStore.updateList i u now s).2 = tasks s.
Proof. unfold memoryStore.updateList. simpl. by destruct (lists s !! i). Qed.

(** ** References from tasks to lists *)

Lemma createTask_lists_dom task now s k :
  is_Some (lists (memoryStore.createTask task now s).2 !! k) ↔ is_Some (lists s !! k).
Proof.
  destruct (memoryStore.checkCapacity s) as [e|] eqn:He.
  - by rewrite (createTask_full _ _ _ _ He).
  - destruct (createTask_ok task now s He) as (_ & _ & _ & -> & _). apply recount_dom.
Qed.

Lemma updateTask_lists_dom i u now s k :
  is_Some (lists (memoryStore.updateTask i u now s).2 !! k) ↔ is_Some (lists s !! k).
Proof.
  destruct (tasks s !! i) as [t|] eqn:Hi.
  - destruct (updateTask_found i u now s t Hi) as (_ & _ & _ & -> & _).
    unfold recountMoved. destruct (u_list_id u); [|done]. case_decide; [|done].
    by rewrite !recount_dom.
  - by rewrite (updateTask_missing _ _ _ _ Hi).
Qed.

Lemma deleteTask_lists_dom i now s k :
  is_Some (lists (memoryStore.deleteTask i now s).2 !! k) ↔ is_Some (lists s !! k).
Proof.
  destruct (tasks s !! i) as [t|] eqn:Hi.
  - destruct (deleteTask_found i now s t Hi) as (_ & _ & _ & -> & _). apply recount_dom.
  - by rewrite (deleteTask_missing _ _ _ Hi).
Qed.

Lemma deleteTasks_lists_dom ids now s k :
  is_Some (lists (deleteTasks ids now s) !! k) ↔ is_Some (lists s !! k).
Proof.
  revert s. induction ids as [|i ids IH]; intros s; [done|].
  simpl. rewrite IH. apply deleteTask_lists_dom.
Qed.

Lemma createTask_refs task now s :
  refs_ok s → is_Some (lists s !! list_id task) →
  refs_ok (memoryStore.createTask task now s).2.
Proof.
  intros Hr Hl i t Hi. rewrite createTask_lists_dom.
  destruct (memoryStore.checkCapacity s) as [e|] eqn:He.
  - rewrite (createTask_full _ _ _ _ He) in Hi. eauto.
  - destruct (createTask_ok task now s He) as (_ & Hts & _). rewrite Hts in Hi.
    destruct (decide (id task = i)) as [<-|Hne].
    + rewrite lookup_insert_eq in Hi. by injection Hi as <-.
    + rewrite lookup_insert_ne in Hi by done. eauto.
Qed.

Lemma updateTask_refs i u now s :
  refs_ok s → (∀ n, u_list_id u = Some n → is_Some (lists s !! n)) →
  refs_ok (memoryStore.updateTask i u now s).2.
Proof.
  intros Hr Hu j t' Hj. rewrite updateTask_lists_dom.
  destruct (tasks s !! i) as [t|] eqn:Hi.
  - destruct (updateTask_found i u now s t Hi) as (_ & Hts & _). rewrite Hts in Hj.
    destruct (decide (i = j)) as [<-|Hne].
    + rewrite lookup_insert_eq in Hj. injection Hj as <-. simpl.
      destruct (u_list_id u) as [n|]; simpl; eauto.
    + rewrite lookup_insert_ne in Hj by done. eauto.
  - rewrite (updateTask_missing _ _ _ _ Hi) in Hj. eauto.
Qed.

Lemma deleteTask_refs i now s :
  refs_ok s → refs_ok (memoryStore.deleteTask i now s).2.
Proof.
  intros Hr j t Hj. rewrite deleteTask_lists_dom. rewrite deleteTask_tasks in Hj.
  apply lookup_delete_Some in Hj as [_ Hj]. eauto.
Qed.

(** With the cascade, no task of the deleted list is left. *)
Lemma deleteList_cascade_refs i now s :
  indexes_consistent s → refs_ok s →
  refs_ok (memoryStore.deleteList i true now s).2.
Proof.
  intros Hc Hr. rewrite deleteList_unfold. destruct (lists s !! i); [|done].
  intros j t Hj. simpl in *. apply deleteTasks_subset in Hj as [Hj Hnin].
  simpl in Hj. assert (list_id t ≠ i) as Hne.
  { intros <-. apply Hnin, elem_of_elements, (c_list _ _ Hc). by exists t. }
  rewrite lookup_delete_ne by done. apply deleteTasks_lists_dom. simpl. eauto.
Qed.

Lemma createList_refs list now s :
  refs_ok s → refs_ok (memoryStore.createList list now s).2.
Proof.
  intros Hr. unfold memoryStore.createList.
  destruct (memoryStore.checkCapacity s); [done|].
  intros j t Hj. simpl in *. destruct (decide (l_id list = list_id t)) as [->|Hne].
  - rewrite lookup_insert_eq. eauto.
  - rewrite lookup_insert_ne by done. eauto.
Qed.

Lemma updateList_refs i u now s :
  refs_ok s → refs_ok (memoryStore.updateList i u now s).2.
Proof.
  intros Hr. unfold memoryStore.updateList. simpl.
  destruct (lists s !! i) eqn:Hi; [|done].
  intros j t Hj. simpl in *. destruct (decide (i = list_id t)) as [->|Hne].
  - rewrite lookup_insert_eq. eauto.
  - rewrite lookup_insert_ne by done. eauto.
Qed.

(** ** Operations of the repositories *)

Lemma repo_createTask_state input newId now s :
  (TaskRepository.createTask input newId now s).2 =
  match lists s !! ci_list_id input with
  | None => updateStats now s
  | Some _ => (memoryStore.createTask (newTask input newId now) now (updateStats now s)).2
  end.
Proof.
  unfold TaskRepository.createTask. simpl. destruct (lists s !! ci_list_id input); [|done].
  fold (newTask input newId now).
  by destruct (memoryStore.createTask (newTask input newId now) now (updateStats now s))
    as [[]?].
Qed.

Lemma repo_updateTask_state i input now s :
  (TaskRepository.updateTask i input now s).2 =
  match tasks s !! i with
  | None => updateStats now s
  | Some t =>
      if movesToMissingList t input s
      then readsBeforeUpdate t input now s
      else updateStats now
             (memoryStore.updateTask i (TaskRepository.updateData input) now
                (readsBeforeUpdate t input now s)).2
  end.
Proof.
  unfold TaskRepository.updateTask, readsBeforeUpdate, movesToMissingList. simpl.
  destruct (tasks s !! i) as [t|] eqn:Hi; [|done].
  assert (∀ s0, tasks s0 = tasks s →
    (let '(success, s1) := memoryStore.updateTask i (TaskRepository.updateData input) now s0 in
     if success
     then let '(updatedTask, s2) := memoryStore.getTaskById i now s1 in (Ok updatedTask, s2)
     else (Ok None, s1)).2
    = updateStats now (memoryStore.updateTask i (TaskRepository.updateData input) now s0).2)
    as Hgo.
  { intros s0 Hs0.
    destruct (updateTask_found i (TaskRepository.updateData input) now s0 t) as [H1 _].
    { by rewrite Hs0. }
    destruct (memoryStore.updateTask i (TaskRepository.updateData input) now s0)
      as [success s1]. simpl in H1. by subst success. }
  destruct (ui_list_id input) as [n|] eqn:Hn; [|by apply Hgo].
  destruct (decide (truthy n ∧ n ≠ list_id t)) as [Hmv|Hmv]; simpl.
  - rewrite bool_decide_eq_true_2 by done. simpl.
    destruct (lists s !! n) eqn:Hl; simpl; [by apply Hgo|done].
  - rewrite bool_decide_eq_false_2 by done. by apply Hgo.
Qed.

Lemma repo_deleteTask_state i now s :
  (TaskRepository.deleteTask i now s).2 =
  match tasks s !! i with
  | None => updateStats now s
  | Some _ => (memoryStore.deleteTask i now (updateStats now s)).2
  end.
Proof.
  unfold TaskRepository.deleteTask. simpl. destruct (tasks s !! i); [|done].
  by destruct (memoryStore.deleteTask i now (updateStats now s)).
Qed.

Lemma repo_completeTask_state i now s :
  (TaskRepository.completeTask i now s).2 =
  match tasks s !! i with
  | None => updateStats now s
  | Some t =>
      if decide (status t = COMPLETED) then updateStats now s
      else updateStats now
             (memoryStore.updateTask i (completionPatch now) now (updateStats now s)).2
  end.
Proof.
  unfold TaskRepository.completeTask. simpl.
  destruct (tasks s !! i) as [t|] eqn:Hi; [|done]. case_decide; [done|].
  fold (completionPatch now).
  destruct (updateTask_found i (completionPatch now) now (updateStats now s) t Hi)
    as [H1 _].
  destruct (memoryStore.updateTask i (completionPatch now) now (updateStats now s))
    as [success s1]. simpl in H1. by subst success.
Qed.

Lemma repo_uncompleteTask_state i now s :
  (TaskRepository.uncompleteTask i now s).2 =
  match tasks s !! i with
  | None => updateStats now s
  | Some t =>
      if decide (status t = PENDING) then updateStats now s
      else updateStats now
             (memoryStore.updateTask i (TaskRepository.taskWithoutCompletedAt t) now
                (updateStats now s)).2
  end.
Proof.
  unfold TaskRepository.uncompleteTask. simpl.
  destruct (tasks s !! i) as [t|] eqn:Hi; [|done]. case_decide; [done|].
  destruct (updateTask_found i (TaskRepository.taskWithoutCompletedAt t) now
              (updateStats now s) t Hi) as [H1 _].
  destruct (memoryStore.updateTask i (TaskRepository.taskWithoutCompletedAt t) now
              (updateStats now s)) as [success s1]. simpl in H1. by subst success.
Qed.

Lemma repo_createList_cases input newId now s :
  (ListRepository.createList input newId now s).2 = updateStats now s
  ∨ (ListRepository.createList input newId now s).2
    = (memoryStore.createList (newList input newId now) now (updateStats now s)).2.
Proof.
  unfold ListRepository.createList. simpl. fold (newList input newId now).
  destruct (existsb _ _); [by left|]. right.
  by destruct (memoryStore.createList (newList input newId now) now (updateStats now s))
    as [[]?].
Qed.

Lemma repo_updateList_cases i input now s :
  ∃ s0, (s0 = updateStats now s ∨ s0 = updateStats now (updateStats now s))
  ∧ ((ListRepository.updateList i input now s).2 = s0
     ∨ (ListRepository.updateList i input now s).2
       = updateStats now
           (memoryStore.updateList i (ListRepository.updateData input) now s0).2).
Proof.
  unfold ListRepository.updateList. simpl.
  destruct (lists s !! i) as [l|] eqn:Hi; [|by exists (updateStats now s); auto].
  assert (∀ s0, lists s0 = lists s →
    (let '(success, s1) := memoryStore.updateList i (ListRepository.updateData input) now s0 in
     if success
     then let '(updatedList, s2) := memoryStore.getListById i now s1 in (Ok updatedList, s2)
     else (Ok None, s1)).2
    = updateStats now (memoryStore.updateList i (ListRepository.updateData input) now s0).2)
    as Hgo.
  { intros s0 Hs0. unfold memoryStore.updateList. simpl. by rewrite Hs0, Hi. }
  destruct (ul_name input) as [name|].
  - case_decide.
    + simpl. destruct (existsb _ _); simpl.
      * exists (updateStats now (updateStats now s)). auto.
      * exists (updateStats now (updateStats now s)). split; [auto|]. right. by apply Hgo.
    + exists (updateStats now s). split; [auto|]. right. by apply Hgo.
  - exists (updateStats now s). split; [auto|]. right. by apply Hgo.
Qed.

Lemma repo_deleteList_state i c now s :
  (ListRepository.deleteList i c now s).2 =
  match lists s !! i with
  | None => updateStats now s
  | Some _ => (memoryStore.deleteList i c now (updateStats now (updateStats now s))).2
  end.
Proof.
  unfold ListRepository.deleteList. simpl. destruct (lists s !! i); [|done].
  by destruct (memoryStore.deleteList i c now (updateStats now (updateStats now s))).
Qed.

(** ** The invariants under the operations of the repositories *)

Lemma unused_bucket newId s :
  indexes_consistent s → unused newId s →
  bucket (tasksByListId (indexes s)) newId = ∅.
Proof.
  intros Hc (_ & _ & Hu). apply set_eq. intros i.
  rewrite (c_list _ _ Hc newId i). split; [|set_solver].
  intros (t & Ht & Hk). exfalso. apply (Hu i t Ht). unfold listKey in Hk. congruence.
Qed.

Lemma exec_consistent op now s :
  indexes_consistent s → well_formed op s → indexes_consistent (exec op now s).
Proof.
  intros Hc Hw. destruct op as [input newId|i input|i c|input newId|i input|i|i|i]; simpl.
  - destruct (repo_createList_cases input newId now s) as [->| ->]; [done|].
    by apply createList_consistent.
  - destruct (repo_updateList_cases i input now s) as (s0 & Hs0 & [->| ->]).
    + by destruct Hs0 as [->| ->].
    + apply updateList_consistent. by destruct Hs0 as [->| ->].
  - rewrite repo_deleteList_state. destruct (lists s !! i); [|done].
    by apply deleteList_consistent.
  - rewrite repo_createTask_state. destruct (lists s !! ci_list_id input); [|done].
    apply createTask_consistent; [done|]. apply Hw.
  - rewrite repo_updateTask_state. destruct (tasks s !! i) as [t|]; [|done].
    assert (indexes_consistent (readsBeforeUpdate t input now s)) as Hc'.
    { unfold readsBeforeUpdate. destruct (ui_list_id input); [|done]. by case_decide. }
    destruct (movesToMissingList t input s); [done|].
    by apply (updateTask_consistent i _ now (readsBeforeUpdate t input now s)).
  - rewrite repo_deleteTask_state. destruct (tasks s !! i); [|done].
    by apply deleteTask_consistent.
  - rewrite repo_completeTask_state. destruct (tasks s !! i); [|done].
    case_decide; [done|]. by apply (updateTask_consistent i _ now (updateStats now s)).
  - rewrite repo_uncompleteTask_state. destruct (tasks s !! i); [|done].
    case_decide; [done|]. by apply (updateTask_consistent i _ now (updateStats now s)).
Qed.

Lemma exec_counts op now s :
  indexes_consistent s → counts_ok s → well_formed op s → counts_ok (exec op now s).
Proof.
  intros Hc Hn Hw. destruct op as [input newId|i input|i c|input newId|i input|i|i|i]; simpl.
  - destruct (repo_createList_cases input newId now s) as [->| ->]; [done|].
    apply createList_counts; [done|]. simpl. by rewrite (unused_bucket newId s).
  - destruct (repo_updateList_cases i input now s) as (s0 & Hs0 & [->| ->]).
    + by destruct Hs0 as [->| ->].
    + apply updateList_counts; [|done]. by destruct Hs0 as [->| ->].
  - rewrite repo_deleteList_state. destruct (lists s !! i); [|done].
    by apply deleteList_counts.
  - rewrite repo_createTask_state. destruct (lists s !! ci_list_id input); [|done].
    by apply createTask_counts.
  - rewrite repo_updateTask_state. destruct (tasks s !! i) as [t|] eqn:Hi; [|done].
    assert (indexes_consistent (readsBeforeUpdate t input now s)
            ∧ counts_ok (readsBeforeUpdate t input now s)
            ∧ tasks (readsBeforeUpdate t input now s) = tasks s) as (Hc' & Hn' & Ht').
    { unfold readsBeforeUpdate. destruct (ui_list_id input); [|done]. by case_decide. }
    destruct (movesToMissingList t input s); [done|].
    apply (updateTask_counts i _ now (readsBeforeUpdate t input now s)); [done..|].
    intros t0 _ n Hn0. simpl in *. destruct (decide (n = "")) as [->|]; [|by right].
    congruence.
  - rewrite repo_deleteTask_state. destruct (tasks s !! i); [|done].
    by apply deleteTask_counts.
  - rewrite repo_completeTask_state. destruct (tasks s !! i); [|done].
    case_decide; [done|].
    apply (updateTask_counts i _ now (updateStats now s)); [done..|].
    by intros t0 _ n Hn0.
  - rewrite repo_uncompleteTask_state. destruct (tasks s !! i) as [t|] eqn:Hi; [|done].
    case_decide; [done|].
    apply (updateTask_counts i _ now (updateStats now s)); [done..|].
    intros t0 Ht0 n Hn0. simpl in *. left. congruence.
Qed.

Lemma exec_completed op now s :
  completed_ok s → completed_ok (exec op now s).
Proof.
  intros Hc. destruct op as [input newId|i input|i c|input newId|i input|i|i|i]; simpl.
  - destruct (repo_createList_cases input newId now s) as [->| ->]; [done|].
    intros j t. rewrite createList_tasks. apply Hc.
  - destruct (repo_updateList_cases i input now s) as (s0 & Hs0 & [->| ->]).
    + by destruct Hs0 as [->| ->].
    + intros j t. simpl. rewrite updateList_tasks. by destruct Hs0 as [->| ->]; apply Hc.
  - rewrite repo_deleteList_state. destruct (lists s !! i); [|done].
    by apply deleteList_completed.
  - rewrite repo_createTask_state. destruct (lists s !! ci_list_id input); [|done].
    apply createTask_completed; [done|]. split; [by intros []|done].
  - rewrite repo_updateTask_state. destruct (tasks s !! i) as [t|]; [|done].
    assert (completed_ok (readsBeforeUpdate t input now s)) as Hc'.
    { unfold readsBeforeUpdate. destruct (ui_list_id input); [|done]. by case_decide. }
    destruct (movesToMissingList t input s); [done|].
    apply (updateTask_completed i _ now (readsBeforeUpdate t input now s)); [done|].
    by left.
  - rewrite repo_deleteTask_state. destruct (tasks s !! i); [|done].
    by apply deleteTask_completed.
  - rewrite repo_completeTask_state. destruct (tasks s !! i); [|done].
    case_decide; [done|].
    apply (updateTask_completed i _ now (updateStats now s)); [done|]. by right.
  - rewrite repo_uncompleteTask_state. destruct (tasks s !! i); [|done].
    case_decide; [done|].
    apply (updateTask_completed i _ now (updateStats now s)); [done|]. by left.
Qed.

(** A list that no task refers to can go without the cascade. *)
Lemma deleteList_unreferenced_refs i c now s :
  indexes_consistent s → refs_ok s → tasksReferencing i s = 0%nat →
  refs_ok (memoryStore.deleteList i c now s).2.
Proof.
  intros Hc Hr Hz. rewrite <- bucket_size_tasksReferencing in Hz by done.
  apply size_empty_inv, leibniz_equiv in Hz.
  rewrite deleteList_unfold. destruct (lists s !! i); [|done].
  rewrite Hz, elements_empty. simpl.
  assert (refs_ok (withLists (delete i) (updateStats now s))) as Hd.
  { intros j t Hj. simpl in *. assert (list_id t ≠ i) as Hne.
    { intros <-. assert (j ∈ bucket (tasksByListId (indexes s)) (list_id t)) as Hin.
      { apply (c_list _ _ Hc). by exists t. }
      rewrite Hz in Hin. by apply not_elem_of_empty in Hin. }
    rewrite lookup_delete_ne by done. eauto. }
  by destruct c.
Qed.

Lemma exec_refs op now s :
  indexes_consistent s → refs_ok s → well_formed op s → cascades op s →
  refs_ok (exec op now s).
Proof.
  intros Hc Hr Hw Hcas.
  destruct op as [input newId|i input|i c|input newId|i input|i|i|i]; simpl.
  - destruct (repo_createList_cases input newId now s) as [->| ->]; [done|].
    by apply createList_refs.
  - destruct (repo_updateList_cases i input now s) as (s0 & Hs0 & [->| ->]).
    + by destruct Hs0 as [->| ->].
    + apply (updateList_refs i _ now s0). by destruct Hs0 as [->| ->].
  - rewrite repo_deleteList_state. destruct (lists s !! i); [|done].
    simpl in Hcas. destruct Hcas as [->|Hz].
    + by apply deleteList_cascade_refs.
    + by apply deleteList_unreferenced_refs.
  - rewrite repo_createTask_state. destruct (lists s !! ci_list_id input) eqn:Hl; [|done].
    apply createTask_refs; [done|]. simpl. rewrite Hl. eauto.
  - rewrite repo_updateTask_state. destruct (tasks s !! i) as [t|] eqn:Hi; [|done].
    assert (refs_ok (readsBeforeUpdate t input now s)
            ∧ lists (readsBeforeUpdate t input now s) = lists s) as [Hr' Hl'].
    { unfold readsBeforeUpdate. destruct (ui_list_id input); [|done]. by case_decide. }
    destruct (movesToMissingList t input s) eqn:Hm; [done|].
    apply (updateTask_refs i _ now (readsBeforeUpdate t input now s)); [done|].
    intros n Hn. rewrite Hl'. simpl in Hn, Hw. unfold movesToMissingList in Hm.
    rewrite Hn in Hm. destruct (decide (n = list_id t)) as [->|Hne]; [by eapply Hr|].
    rewrite bool_decide_eq_true_2 in Hm.
    + simpl in Hm. apply bool_decide_eq_false in Hm.
      by destruct (lists s !! n); [eauto|].
    + split; [|done]. intros ->. congruence.
  - rewrite repo_deleteTask_state. destruct (tasks s !! i); [|done].
    by apply deleteTask_refs.
  - rewrite repo_completeTask_state. destruct (tasks s !! i); [|done].
    case_decide; [done|].
    apply (updateTask_refs i _ now (updateStats now s)); [done|]. by intros n.
  - rewrite repo_uncompleteTask_state. destruct (tasks s !! i) as [t|] eqn:Hi; [|done].
    case_decide; [done|].
    apply (updateTask_refs i _ now (updateStats now s)); [done|].
    intros n [= <-]. by eapply Hr.
Qed.

(** *** The lists are stored under their ids *)

Lemma recount_list_keys a now ix ls : list_keys_ok ls → list_keys_ok (recount a now ix ls).
Proof.
  intros Hk k l Hl. unfold recount in Hl. destruct (ls !! a) as [la|] eqn:Ha; [|eauto].
  destruct (decide (a = k)) as [<-|Hne].
  - rewrite lookup_insert_eq in Hl. injection Hl as <-. simpl. eauto.
  - rewrite lookup_insert_ne in Hl by done. eauto.
Qed.

Lemma createTask_list_keys task now s :
  list_keys_ok (lists s) → list_keys_ok (lists (memoryStore.createTask task now s).2).
Proof.
  intros Hk. destruct (memoryStore.checkCapacity s) as [e|] eqn:He.
  - by rewrite (createTask_full _ _ _ _ He).
  - destruct (createTask_ok task now s He) as (_ & _ & _ & -> & _).
    by apply recount_list_keys.
Qed.

Lemma updateTask_list_keys i u now s :
  list_keys_ok (lists s) → list_keys_ok (lists (memoryStore.updateTask i u now s).2).
Proof.
  intros Hk. destruct (tasks s !! i) as [t|] eqn:Hi.
  - destruct (updateTask_found i u now s t Hi) as (_ & _ & _ & -> & _).
    unfold recountMoved. destruct (u_list_id u); [|done]. case_decide; [|done].
    by do 2 apply recount_list_keys.
  - by rewrite (updateTask_missing _ _ _ _ Hi).
Qed.

Lemma deleteTask_list_keys i now s :
  list_keys_ok (lists s) → list_keys_ok (lists (memoryStore.deleteTask i now s).2).
Proof.
  intros Hk. destruct (tasks s !! i) as [t|] eqn:Hi.
  - destruct (deleteTask_found i now s t Hi) as (_ & _ & _ & -> & _).
    by apply recount_list_keys.
  - by rewrite (deleteTask_missing _ _ _ Hi).
Qed.

Lemma deleteTasks_list_keys ids now s :
  list_keys_ok (lists s) → list_keys_ok (lists (deleteTasks ids now s)).
Proof.
  revert s. induction ids as [|i ids IH]; intros s Hk; [done|].
  apply IH. by apply deleteTask_list_keys.
Qed.

Lemma deleteList_list_keys i c now s :
  list_keys_ok (lists s) → list_keys_ok (lists (memoryStore.deleteList i c now s).2).
Proof.
  intros Hk. rewrite deleteList_unfold. destruct (lists s !! i) as [l0|]; [|done].
  intros k l Hl. simpl in Hl. apply lookup_delete_Some in Hl as [_ Hl].
  destruct c; [|eauto]. by apply (deleteTasks_list_keys _ now (updateStats now s)) in Hl.
Qed.

Lemma createList_list_keys list now s :
  list_keys_ok (lists s) → list_keys_ok (lists (memoryStore.createList list now s).2).
Proof.
  intros Hk. unfold memoryStore.createList.
  destruct (memoryStore.checkCapacity s); [done|].
  intros k l Hl. simpl in Hl. destruct (decide (l_id list = k)) as [<-|Hne].
  - rewrite lookup_insert_eq in Hl. by injection Hl as <-.
  - rewrite lookup_insert_ne in Hl by done. eauto.
Qed.

Lemma updateList_list_keys i u now s :
  list_keys_ok (lists s) → list_keys_ok (lists (memoryStore.updateList i u now s).2).
Proof.
  intros Hk. unfold memoryStore.updateList. simpl.
  destruct (lists s !! i) as [l0|] eqn:Hi; [|done].
  intros k l Hl. simpl in Hl. destruct (decide (i = k)) as [<-|Hne].
  - rewrite lookup_insert_eq in Hl. by injection Hl as <-.
  - rewrite lookup_insert_ne in Hl by done. eauto.
Qed.

Lemma exec_list_keys op now s :
  list_keys_ok (lists s) → list_keys_ok (lists (exec op now s)).
Proof.
  intros Hk. destruct op as [input newId|i input|i c|input newId|i input|i|i|i]; simpl.
  - destruct (repo_createList_cases input newId now s) as [->| ->]; [done|].
    by apply createList_list_keys.
  - destruct (repo_updateList_cases i input now s) as (s0 & Hs0 & [->| ->]).
    + by destruct Hs0 as [->| ->].
    + apply (updateList_list_keys i _ now s0). by destruct Hs0 as [->| ->].
  - rewrite repo_deleteList_state. destruct (lists s !! i); [|done].
    by apply deleteList_list_keys.
  - rewrite repo_createTask_state. destruct (lists s !! ci_list_id input); [|done].
    by apply createTask_list_keys.
  - rewrite repo_updateTask_state. destruct (tasks s !! i) as [t|]; [|done].
    assert (list_keys_ok (lists (readsBeforeUpdate t input now s))) as Hk'.
    { unfold readsBeforeUpdate. destruct (ui_list_id input); [|done]. by case_decide. }
    destruct (movesToMissingList t input s); [done|].
    by apply (updateTask_list_keys i _ now (readsBeforeUpdate t input now s)).
  - rewrite repo_deleteTask_state. destruct (tasks s !! i); [|done].
    by apply deleteTask_list_keys.
  - rewrite repo_completeTask_state. destruct (tasks s !! i); [|done].
    case_decide; [done|]. by apply (updateTask_list_keys i _ now (updateStats now s)).
  - rewrite repo_uncompleteTask_state. destruct (tasks s !! i); [|done].
    case_decide; [done|]. by apply (updateTask_list_keys i _ now (updateStats now s)).
Qed.

Lemma run_list_keys ops s :
  list_keys_ok (lists s) → list_keys_ok (lists (run ops s)).
Proof.
  revert s. induction ops as [|[op now] ops IH]; intros s Hk; [done|].
  simpl. by apply IH, exec_list_keys.
Qed.

Lemma newStore_consistent m t0 : indexes_consistent (newStore m t0).
Proof. apply consistent_empty. Qed.

Lemma newStore_counts m t0 : counts_ok (newStore m t0).
Proof. intros k l Hk. simpl in Hk. by rewrite lookup_empty in Hk. Qed.

Lemma newStore_completed m t0 : completed_ok (newStore m t0).
Proof. intros k l Hk. simpl in Hk. by rewrite lookup_empty in Hk. Qed.

Lemma newStore_refs m t0 : refs_ok (newStore m t0).
Proof. intros k l Hk. simpl in Hk. by rewrite lookup_empty in Hk. Qed.

Lemma run_consistent_counts ops s :
  indexes_consistent s → counts_ok s → well_formed_run ops s →
  indexes_consistent (run ops s) ∧ counts_ok (run ops s).
Proof.
  revert s. induction ops as [|[op now] ops IH]; intros s Hc Hn Hw; [done|].
  destruct Hw as [Hop Hw]. simpl.
  apply IH; [by apply exec_consistent|by apply exec_counts|done].
Qed.

Lemma run_completed ops s : completed_ok s → completed_ok (run ops s).
Proof.
  revert s. induction ops as [|[op now] ops IH]; intros s Hc; [done|].
  simpl. by apply IH, exec_completed.
Qed.

Lemma run_refs ops s :
  indexes_consistent s → refs_ok s → well_formed_run ops s →
  cascading_run ops s →
  refs_ok (run ops s).
Proof.
  revert s. induction ops as [|[op now] ops IH]; intros s Hc Hr Hw Hcas; [done|].
  destruct Hw as [Hop Hw]. destruct Hcas as [Hc1 Hc2]. simpl.
  apply IH; [by apply exec_consistent|by apply exec_refs|done..].
Qed.

(** ** The mutating methods of the store as a step relation *)

Lemma store_step_consistent s s' :
  indexes_consistent s → store_step s s' → indexes_consistent s'.
Proof.
  intros Hc Hstep. destruct Hstep.
  - by apply createList_consistent.
  - by apply updateList_consistent.
  - by apply deleteList_consistent.
  - by apply createTask_consistent.
  - by apply updateTask_consistent.
  - by apply deleteTask_consistent.
Qed.

Lemma storeWithReport_consistent : indexes_consistent storeWithReport.
Proof.
  apply createTask_consistent; [|done].
  apply createList_consistent, newStore_consistent.
Qed.

(** C2. After every mutating method of the store (createTask with a new id,
    updateTask, deleteTask, deleteList with or without the cascade, and the
    two list methods), run from a store whose indexes are consistent, the
    indexes are consistent again: a task id is in the bucket of a key of
    tasksByListId, tasksByStatus, tasksByPriority or tasksByDeadlineDate
    exactly when the stored task has that list_id, status, priority or
    deadline day now. In particular the bucket of status [st] holds [i]
    iff the task [i] exists and its status is [st]. *)
Theorem indexes_follow_the_tasks s s' :
  indexes_consistent s → rtc store_step s s' →
  indexes_consistent s'
  ∧ ∀ i st, i ∈ bucket (tasksByStatus (indexes s')) st
            ↔ ∃ t, tasks s' !! i = Some t ∧ status t = st.
Proof.
  intros Hc Hsteps. assert (indexes_consistent s') as Hc'.
  { induction Hsteps as [|s1 s2 s3 Hstep _ IH]; [done|].
    by apply IH, (store_step_consistent s1). }
  split; [done|]. intros i st. rewrite (c_status _ _ Hc' st i). unfold statusKey.
  split; intros (t & Ht & Hk); exists t; split; congruence.
Qed.

Lemma indexes_follow_the_tasks_witness :
  let s' := (memoryStore.updateTask "t1" (completionPatch 3) 3 storeWithReport).2 in
  indexes_consistent s'
  ∧ ∀ i st, i ∈ bucket (tasksByStatus (indexes s')) st
            ↔ ∃ t, tasks s' !! i = Some t ∧ status t = st.
Proof.
  intros s'. apply (indexes_follow_the_tasks storeWithReport s').
  - apply storeWithReport_consistent.
  - apply rtc_once, step_updateTask.
Defined.

(** C3. After any sequence of operations of the repositories run from the
    empty store (creations, updates, task moves between lists, deletions,
    list deletions with or without the cascade), every list of the store is
    stored under its id and carries in [tasks_count] the number of task
    records whose [list_id] is the id of the list. The sequence is well
    formed: a generated id is unused, and a patch does not name the empty
    string as a list. *)
Theorem tasks_count_is_the_live_count ops m t0 :
  well_formed_run ops (newStore m t0) →
  ∀ k l, lists (run ops (newStore m t0)) !! k = Some l →
         l_id l = k
         ∧ tasks_count l = tasksReferencing (l_id l) (run ops (newStore m t0)).
Proof.
  intros Hw k l Hk.
  destruct (run_consistent_counts ops (newStore m t0)) as [Hc Hn];
    [apply newStore_consistent|apply newStore_counts|done|].
  assert (l_id l = k) as Hid.
  { apply (run_list_keys ops (newStore m t0)); [|done].
    intros k' l' Hl'. simpl in Hl'. by rewrite lookup_empty in Hl'. }
  split; [done|]. rewrite Hid.
  rewrite <- bucket_size_tasksReferencing by done. by apply (Hn k l).
Qed.

Lemma sampleRun_well_formed : well_formed_run sampleRun (newStore 10 0).
Proof. apply (bool_decide_unpack _). by vm_compute. Qed.

Lemma tasks_count_is_the_live_count_witness :
  well_formed_run sampleRun (newStore 10 0)
  ∧ ∀ k l, lists (run sampleRun (newStore 10 0)) !! k = Some l →
           l_id l = k
           ∧ tasks_count l = tasksReferencing (l_id l) (run sampleRun (newStore 10 0)).
Proof.
  split; [apply sampleRun_well_formed|].
  apply (tasks_count_is_the_live_count sampleRun 10 0). apply sampleRun_well_formed.
Defined.

(** C5. After any sequence of operations of the repositories run from the
    empty store, a task has a [completed_at] exactly when its status is
    COMPLETED: the patch of [TaskRepository.updateTask] has no
    [completed_at], the store sets the field when the status becomes
    COMPLETED and deletes it when the status is set to PENDING. *)
Theorem completed_at_iff_completed ops m t0 i t :
  tasks (run ops (newStore m t0)) !! i = Some t →
  (is_Some (completed_at t) ↔ status t = COMPLETED).
Proof. apply (run_completed ops (newStore m t0)), newStore_completed. Qed.

Lemma sampleRun_report :
  tasks (run sampleRun (newStore 10 0)) !! "t1" = Some reportAtTheEnd.
Proof. by vm_compute. Qed.

Lemma completed_at_iff_completed_witness :
  tasks (run sampleRun (newStore 10 0)) !! "t1" = Some reportAtTheEnd
  ∧ (is_Some (completed_at reportAtTheEnd) ↔ status reportAtTheEnd = COMPLETED).
Proof.
  split; [apply sampleRun_report|].
  apply (completed_at_iff_completed sampleRun 10 0 "t1"). apply sampleRun_report.
Defined.

(** C8, as the code has it. After any well-formed sequence of operations of
    the repositories run from the empty store in which every list deletion
    cascades (deleteAssociatedTasks is true) or deletes a list that no task
    refers to, every task of the store has a [list_id] under which the
    store holds a list: a task is created only in a list the store holds,
    moved only to a list the store holds, and a list is deleted together
    with its tasks. *)
Theorem references_kept_when_deletions_cascade ops m t0 :
  well_formed_run ops (newStore m t0) →
  cascading_run ops (newStore m t0) →
  ∀ i t, tasks (run ops (newStore m t0)) !! i = Some t →
         is_Some (lists (run ops (newStore m t0)) !! list_id t).
Proof.
  intros Hw Hcas. apply run_refs; [apply newStore_consistent|apply newStore_refs|done..].
Qed.

Lemma sampleRun_cascades : cascading_run sampleRun (newStore 10 0).
Proof. apply (bool_decide_unpack _). by vm_compute. Qed.

Lemma references_kept_when_deletions_cascade_witness :
  well_formed_run sampleRun (newStore 10 0)
  ∧ cascading_run sampleRun (newStore 10 0)
  ∧ ∀ i t, tasks (run sampleRun (newStore 10 0)) !! i = Some t →
           is_Some (lists (run sampleRun (newStore 10 0)) !! list_id t).
Proof.
  split; [apply sampleRun_well_formed|]. split; [apply sampleRun_cascades|].
  apply (references_kept_when_deletions_cascade sampleRun 10 0);
    [apply sampleRun_well_formed|apply sampleRun_cascades].
Defined.

(** C8 as stated fails: after [deleteList(id, false)] the tasks of the
    deleted list stay in the store and refer to no list. *)
Lemma references_lost_without_cascade :
  ¬ (∀ ops m t0, well_formed_run ops (newStore m t0) →
       ∀ i t, tasks (run ops (newStore m t0)) !! i = Some t →
              is_Some (lists (run ops (newStore m t0)) !! list_id t)).
Proof.
  intros H.
  assert (well_formed_run runWithoutCascade (newStore 10 0)) as Hw.
  { apply (bool_decide_unpack _). by vm_compute. }
  destruct (H runWithoutCascade 10 0 Hw "t1"
              {| id := "t1"; list_id := "l1"; title := "Report"; description := None;
                 deadline := None; priority := MEDIUM; status := PENDING;
                 completed_at := None; created_at := 2; updated_at := 2 |})
    as [l Hl]; [by vm_compute|].
  vm_compute in Hl. discriminate.
Qed.

(** ** The deadline range query *)

Lemma elem_of_dayTasks day s t :
  indexes_consistent s →
  t ∈ dayTasks day s
  ↔ stored t s ∧ ∃ d, deadline t = Some d ∧ memoryStore.formatDateKey d = day.
Proof.
  intros Hc. unfold dayTasks, stored.
  assert (t ∈ memoryStore.tasksOfIds (bucket (tasksByDeadlineDate (indexes s)) day) s
          ↔ (∃ i, tasks s !! i = Some t)
            ∧ ∃ d, deadline t = Some d ∧ memoryStore.formatDateKey d = day) as Hb.
  { unfold memoryStore.tasksOfIds. rewrite list_elem_of_omap. split.
    - intros (i & Hi & Ht). apply elem_of_elements, (c_deadline _ _ Hc) in Hi.
      destruct Hi as (t' & Ht' & Hk). assert (t' = t) as -> by congruence.
      split; [by exists i|]. unfold deadlineKey in Hk.
      destruct (deadline t) as [d|]; [|done]. exists d. split; [done|].
      simpl in Hk. congruence.
    - intros [[i Hi] (d & Hd & Hday)]. exists i. split; [|done].
      apply elem_of_elements, (c_deadline _ _ Hc). exists t. split; [done|].
      unfold deadlineKey. rewrite Hd. simpl. by rewrite Hday. }
  unfold bucket in Hb. destruct (tasksByDeadlineDate (indexes s) !! day); [done|].
  simpl in Hb. unfold memoryStore.tasksOfIds in Hb. rewrite elements_empty in Hb.
  done.
Qed.

Lemma formatDateKey_add_days date (k : Z) :
  memoryStore.formatDateKey (date + k * memoryStore.msPerDay)
  = memoryStore.formatDateKey date + k.
Proof. unfold memoryStore.formatDateKey. by rewrite Z.div_add. Qed.

Lemma formatDateKey_next_day date :
  memoryStore.formatDateKey (date + memoryStore.msPerDay)
  = memoryStore.formatDateKey date + 1.
Proof. rewrite <- (formatDateKey_add_days date 1). by rewrite Z.mul_1_l. Qed.

(** The binary bound counts rounds. *)
Lemma roundsN_add {St R : Type} (round : St → St + R) n m st :
  roundsN round (n + m) st
  = match roundsN round n st with
    | inl st => roundsN round m st
    | inr r => inr r
    end.
Proof.
  revert st. induction n as [|n IH]; intros st; [done|]. simpl.
  destruct (round st) as [st'|r]; [apply IH|done].
Qed.

Lemma rounds_roundsN {St R : Type} (round : St → St + R) fuel st :
  memoryStore.rounds round fuel st = roundsN round (Pos.to_nat fuel) st.
Proof.
  revert st. induction fuel as [fuel IH|fuel IH|]; intros st.
  - rewrite Pos2Nat.inj_xI.
    replace (S (2 * Pos.to_nat fuel)) with (S (Pos.to_nat fuel + Pos.to_nat fuel)) by lia.
    cbn [memoryStore.rounds roundsN]. destruct (round st) as [st'|r]; [|done].
    rewrite roundsN_add, IH. destruct (roundsN round (Pos.to_nat fuel) st'); [apply IH|done].
  - rewrite Pos2Nat.inj_xO.
    replace (2 * Pos.to_nat fuel)%nat with (Pos.to_nat fuel + Pos.to_nat fuel)%nat by lia.
    cbn [memoryStore.rounds]. rewrite roundsN_add, IH.
    destruct (roundsN round (Pos.to_nat fuel) st); [apply IH|done].
  - simpl. by destruct (round st).
Qed.

Lemma deadlineRangeFuel_rounds fromDate toDate :
  Z.of_nat (Pos.to_nat (memoryStore.deadlineRangeFuel fromDate toDate))
  = Z.max 1 (toDate - fromDate + 2).
Proof.
  unfold memoryStore.deadlineRangeFuel. rewrite positive_nat_Z.
  destruct (toDate - fromDate + 2) eqn:E; simpl; lia.
Qed.

Section DeadlineRange.

Variable LocalTZA : Z → bool → Z.

Lemma collected_fold n currentDate toDate s :
  collected LocalTZA (S n) currentDate toDate s =
  if decide (currentDate ≤ toDate)
  then dayTasks (memoryStore.formatDateKey currentDate) s
       ++ collected LocalTZA n (memoryStore.nextLocalDay LocalTZA currentDate) toDate s
  else [].
Proof. done. Qed.

(** The rounds of the loop push what [collected] lists, whether the loop
    ends within them or not. *)
Lemma roundsN_collected n currentDate toDate s tasks :
  match roundsN (memoryStore.deadlineRangeRound LocalTZA toDate s) n (currentDate, tasks) with
  | inr tasks => tasks
  | inl (_, tasks) => tasks
  end = tasks ++ collected LocalTZA n currentDate toDate s.
Proof.
  revert currentDate tasks. induction n as [|n IH]; intros currentDate tasks.
  { simpl. by rewrite app_nil_r. }
  rewrite collected_fold. cbn [roundsN memoryStore.deadlineRangeRound].
  case_decide as Hle; [|by rewrite app_nil_r].
  rewrite IH. by rewrite <- app_assoc.
Qed.

Lemma getTasksByDeadlineRange_collected fromDate toDate now s :
  (memoryStore.getTasksByDeadlineRange LocalTZA fromDate toDate now s).1
  = collected LocalTZA (Pos.to_nat (memoryStore.deadlineRangeFuel fromDate toDate))
      fromDate toDate s.
Proof.
  unfold memoryStore.getTasksByDeadlineRange, memoryStore.deadlineRangeLoop.
  cbn [fst]. rewrite rounds_roundsN. apply (roundsN_collected _ _ _ _ []).
Qed.

(** The loop ends within its bound when every round moves the date
    forward. *)
Lemma roundsN_ends n currentDate toDate s tasks :
  (1 ≤ n)%nat → toDate - currentDate + 2 ≤ Z.of_nat n →
  (∀ u, currentDate ≤ u ≤ toDate → u < memoryStore.nextLocalDay LocalTZA u) →
  ∃ result,
    roundsN (memoryStore.deadlineRangeRound LocalTZA toDate s) n (currentDate, tasks)
    = inr result.
Proof.
  revert currentDate tasks. induction n as [|n IH]; intros currentDate tasks Hn Hfuel Hfwd;
    [lia|].
  cbn [roundsN memoryStore.deadlineRangeRound]. case_decide as Hle; [|by eexists].
  pose proof (Hfwd currentDate ltac:(lia)) as Hnext.
  apply IH; [lia|lia|]. intros u Hu. apply Hfwd. lia.
Qed.

Lemma deadlineRangeLoop_ends fromDate toDate s :
  (∀ u, fromDate ≤ u ≤ toDate → u < memoryStore.nextLocalDay LocalTZA u) →
  ∃ result, memoryStore.deadlineRangeLoop LocalTZA fromDate toDate s = inr result.
Proof.
  intros Hfwd. unfold memoryStore.deadlineRangeLoop. rewrite rounds_roundsN.
  pose proof (deadlineRangeFuel_rounds fromDate toDate).
  apply roundsN_ends; [lia|lia|done].
Qed.

(** The bucket of the day of [fromDate] is read first, in every zone. *)
Lemma first_day_collected fromDate toDate now s t :
  fromDate ≤ toDate →
  t ∈ dayTasks (memoryStore.formatDateKey fromDate) s →
  t ∈ (memoryStore.getTasksByDeadlineRange LocalTZA fromDate toDate now s).1.
Proof.
  intros Hle Hin. rewrite getTasksByDeadlineRange_collected.
  destruct (Pos2Nat.is_succ (memoryStore.deadlineRangeFuel fromDate toDate)) as [n ->].
  rewrite collected_fold, decide_True by done. apply elem_of_app. by left.
Qed.

(** What the loop collects in a zone in which a day later is [msPerDay]
    later, for the dates up to [toDate]: the buckets of the days
    [currentDate], one day later, ..., as long as the date does not pass
    [toDate]. *)
Lemma elem_of_collected_whole_days n currentDate toDate s t :
  (∀ u, currentDate ≤ u ≤ toDate →
        memoryStore.nextLocalDay LocalTZA u = u + memoryStore.msPerDay) →
  t ∈ collected LocalTZA n currentDate toDate s
  ↔ ∃ k : nat, (k < n)%nat
      ∧ currentDate + Z.of_nat k * memoryStore.msPerDay ≤ toDate
      ∧ t ∈ dayTasks (memoryStore.formatDateKey currentDate + Z.of_nat k) s.
Proof.
  revert currentDate. induction n as [|n IH]; intros currentDate H24.
  { simpl. split; [by intros ?%elem_of_nil|]. intros (k & ? & _). lia. }
  rewrite collected_fold. assert (0 < memoryStore.msPerDay) as HD by done.
  case_decide as Hle.
  - rewrite H24 by lia. rewrite elem_of_app, IH by (intros u Hu; apply H24; lia). split.
    + intros [Hin|(k & Hk & Hto & Hin)].
      * exists 0%nat. split; [lia|]. split; [lia|]. by rewrite Z.add_0_r.
      * exists (S k). split; [lia|]. rewrite formatDateKey_next_day in Hin.
        split; [lia|]. by replace (memoryStore.formatDateKey currentDate + Z.of_nat (S k))
          with (memoryStore.formatDateKey currentDate + 1 + Z.of_nat k) by lia.
    + intros ([|k] & Hk & Hto & Hin).
      * left. by rewrite Z.add_0_r in Hin.
      * right. exists k. split; [lia|]. rewrite formatDateKey_next_day.
        split; [lia|]. by replace (memoryStore.formatDateKey currentDate + 1 + Z.of_nat k)
          with (memoryStore.formatDateKey currentDate + Z.of_nat (S k)) by lia.
  - split; [by intros ?%elem_of_nil|]. intros (k & _ & Hto & _). nia.
Qed.

Lemma elem_of_deadline_range_whole_days fromDate toDate now s t :
  (∀ u, fromDate ≤ u ≤ toDate →
        memoryStore.nextLocalDay LocalTZA u = u + memoryStore.msPerDay) →
  t ∈ (memoryStore.getTasksByDeadlineRange LocalTZA fromDate toDate now s).1
  ↔ ∃ k : nat, fromDate + Z.of_nat k * memoryStore.msPerDay ≤ toDate
      ∧ t ∈ dayTasks (memoryStore.formatDateKey fromDate + Z.of_nat k) s.
Proof.
  intros H24. rewrite getTasksByDeadlineRange_collected, elem_of_collected_whole_days by done.
  pose proof (deadlineRangeFuel_rounds fromDate toDate) as Hfuel.
  assert (0 < memoryStore.msPerDay) as HD by done.
  split.
  - intros (k & _ & Hto & Hin). by exists k.
  - intros (k & Hto & Hin). exists k. split; [nia|done].
Qed.

Lemma whole_days_move_forward fromDate toDate :
  (∀ u, fromDate ≤ u ≤ toDate →
        memoryStore.nextLocalDay LocalTZA u = u + memoryStore.msPerDay) →
  ∀ u, fromDate ≤ u ≤ toDate → u < memoryStore.nextLocalDay LocalTZA u.
Proof. intros H24 u Hu. rewrite H24 by done. unfold memoryStore.msPerDay. lia. Qed.

End DeadlineRange.

Lemma utc_whole_days u : memoryStore.nextLocalDay utc u = u + memoryStore.msPerDay.
Proof. unfold memoryStore.nextLocalDay, memoryStore.UTC, memoryStore.LocalTime, utc. lia. Qed.

Lemma elem_of_bruteForceDeadlineRange fromDate toDate s t :
  t ∈ bruteForceDeadlineRange fromDate toDate s
  ↔ stored t s ∧ ∃ d, deadline t = Some d ∧ fromDate ≤ d ≤ toDate.
Proof.
  unfold bruteForceDeadlineRange, stored, inDeadlineRange.
  rewrite list_elem_of_In, filter_In, <- list_elem_of_In, list_elem_of_fmap. split.
  - intros [([i t'] & -> & Hin) Hd]. apply elem_of_map_to_list in Hin. simpl in *.
    split; [by exists i|]. destruct (deadline t') as [d|]; [|done].
    exists d. split; [done|]. by apply bool_decide_eq_true in Hd.
  - intros [[i Hi] (d & Hd & Hr)]. split.
    + exists (i, t). split; [done|]. by apply elem_of_map_to_list.
    + rewrite Hd. by apply bool_decide_eq_true.
Qed.

(** The days [fromDate], one day of [msPerDay] later, ... up to [toDate]
    fall on, when the time of day of [fromDate] is not later than that of
    [toDate]: every day from the day of [fromDate] to the day of
    [toDate]. *)
Lemma visited_days fromDate toDate day :
  fromDate ≤ toDate →
  fromDate `mod` memoryStore.msPerDay ≤ toDate `mod` memoryStore.msPerDay →
  (∃ k : nat, fromDate + Z.of_nat k * memoryStore.msPerDay ≤ toDate
     ∧ day = memoryStore.formatDateKey fromDate + Z.of_nat k)
  ↔ memoryStore.formatDateKey fromDate ≤ day ≤ memoryStore.formatDateKey toDate.
Proof.
  intros Hle Hmod.
  unfold memoryStore.formatDateKey, memoryStore.msPerDay in *.
  split.
  - intros (k & Hto & ->). Z.to_euclidean_division_equations. lia.
  - intros [H1 H2]. exists (Z.to_nat (day - fromDate `div` 86400000)).
    Z.to_euclidean_division_equations. lia.
Qed.

Lemma day_aligned_range fromDate toDate d :
  fromDate `mod` memoryStore.msPerDay = 0 →
  toDate `mod` memoryStore.msPerDay = memoryStore.msPerDay - 1 →
  memoryStore.formatDateKey fromDate ≤ memoryStore.formatDateKey d
    ≤ memoryStore.formatDateKey toDate
  ↔ fromDate ≤ d ≤ toDate.
Proof.
  unfold memoryStore.formatDateKey, memoryStore.msPerDay. intros Ha Hb.
  Z.to_euclidean_division_equations. lia.
Qed.

Lemma day_range_contains fromDate toDate d :
  fromDate ≤ d ≤ toDate →
  memoryStore.formatDateKey fromDate ≤ memoryStore.formatDateKey d
    ≤ memoryStore.formatDateKey toDate.
Proof.
  unfold memoryStore.formatDateKey, memoryStore.msPerDay. intros Hd.
  Z.to_euclidean_division_equations. lia.
Qed.




(** On a range that ends earlier in its day than it starts, the loop stops
    before the last day: under UTC, from 12:00 of the first day to 06:00 of
    the second, the task due at 03:00 of the second day is not returned. *)
Lemma deadline_range_stops_before_last_day :
  let s := (memoryStore.createTask taskEarlyNextDay 3 storeWithReport).2 in
  (memoryStore.getTasksByDeadlineRange utc (12 * 3600000) (30 * 3600000) 4 s).1
  = [taskReport]
  ∧ bruteForceDeadlineRange (12 * 3600000) (30 * 3600000) s = [taskEarlyNextDay].
Proof. by vm_compute. Qed.

(** Where the clocks change, a local day is not 24 hours long and the loop
    misses a UTC day or reads one twice. In New York, from 2026-11-01
    03:00 UTC (23:00 of the day before, local time) to 2026-11-02 03:30
    UTC, the day after the first is 25 hours later, past the end of the
    range: the task due on 2026-11-02 at 01:00 UTC is not returned. In
    London, from 2026-03-29 00:30 UTC to 2026-03-30 00:00 UTC, the day
    after the first is 23 hours later, on the same UTC day: the task due
    on 2026-03-29 at 12:00 UTC is returned twice. *)
Lemma deadline_range_at_a_clock_change :
  (memoryStore.nextLocalDay newYork (nov1_2026 + 3 * hour) = nov1_2026 + 28 * hour
   ∧ (memoryStore.getTasksByDeadlineRange newYork
        (nov1_2026 + 3 * hour) (nov1_2026 + 27 * hour + hour / 2) 4 storeInNovember).1 = []
   ∧ bruteForceDeadlineRange (nov1_2026 + 3 * hour) (nov1_2026 + 27 * hour + hour / 2)
       storeInNovember = [taskNovember])
  ∧ (memoryStore.nextLocalDay london (mar29_2026 + hour / 2) = mar29_2026 + 23 * hour + hour / 2
     ∧ (memoryStore.getTasksByDeadlineRange london
          (mar29_2026 + hour / 2) (mar29_2026 + 24 * hour) 4 storeInMarch).1
       = [taskMarch; taskMarch]).
Proof. by vm_compute. Qed.

(** ** The capacity guard *)

Lemma checkCapacity_room s :
  totalEntities s < maxSize s → memoryStore.checkCapacity s = None.
Proof.
  intros Hlt. unfold memoryStore.checkCapacity, totalEntities in *.
  rewrite decide_False; [done|lia].
Qed.

Lemma checkCapacity_full s :
  maxSize s ≤ totalEntities s →
  memoryStore.checkCapacity s = Some (CapacityExceeded (maxSize s) (totalEntities s)).
Proof.
  intros Hle. unfold memoryStore.checkCapacity, totalEntities in *.
  by rewrite decide_True.
Qed.

Lemma insertAll_fits ls now s :
  NoDup (l_id <$> ls) → (∀ l, l ∈ ls → lists s !! l_id l = None) →
  totalEntities s + Z.of_nat (length ls) ≤ maxSize s →
  (insertAll ls now s).1 = true
  ∧ totalEntities (insertAll ls now s).2 = totalEntities s + Z.of_nat (length ls)
  ∧ maxSize (insertAll ls now s).2 = maxSize s.
Proof.
  revert s. induction ls as [|l ls IH]; intros s Hnd Hfresh Hfit.
  { simpl. split; [done|]. split; [lia|done]. }
  simpl in *. apply list.NoDup_cons in Hnd as [Hl Hnd].
  unfold memoryStore.createList. rewrite checkCapacity_room by lia.
  set (s' := bumpListsCount 1 (withLists <[l_id l:=l]> (updateStats now s))).
  assert (totalEntities s' = totalEntities s + 1) as Hs'.
  { unfold totalEntities. simpl. rewrite map_size_insert_None; [lia|].
    apply Hfresh. by left. }
  destruct (IH s') as (H1 & H2 & H3); [done| |simpl; lia|].
  - intros l' Hl'. simpl. rewrite lookup_insert_ne.
    + apply Hfresh. by right.
    + intros Heq. apply Hl. rewrite Heq. by apply list_elem_of_fmap_2.
  - split; [done|]. split; [lia|done].
Qed.

(** C4. From any store: when lists.size + tasks.size is below maxSize, both
    inserts succeed and store the record; when it has reached maxSize, both
    fail with the capacity error carrying the maximum and the current count,
    and leave the store as it was. So from an empty store of capacity
    [length ls], inserting the lists [ls] (of distinct ids) succeeds every
    time and makes the store full. *)
Theorem capacity_guard s now :
  (totalEntities s < maxSize s →
     (∀ list, (memoryStore.createList list now s).1 = Ok ()
              ∧ lists (memoryStore.createList list now s).2
                = <[l_id list := list]> (lists s))
     ∧ (∀ task, (memoryStore.createTask task now s).1 = Ok ()
                ∧ tasks (memoryStore.createTask task now s).2
                  = <[id task := task]> (tasks s)))
  ∧ (maxSize s ≤ totalEntities s →
     (∀ list, memoryStore.createList list now s
              = (Err (CapacityExceeded (maxSize s) (totalEntities s)), s))
     ∧ (∀ task, memoryStore.createTask task now s
                = (Err (CapacityExceeded (maxSize s) (totalEntities s)), s)))
  ∧ (∀ ls t0, NoDup (l_id <$> ls) →
       let full := (insertAll ls now (newStore (Z.of_nat (length ls)) t0)).2 in
       (insertAll ls now (newStore (Z.of_nat (length ls)) t0)).1 = true
       ∧ totalEntities full = maxSize full).
Proof.
  split; [|split].
  - intros Hlt. split.
    + intros list. unfold memoryStore.createList. by rewrite checkCapacity_room.
    + intros task. destruct (createTask_ok task now s) as (H1 & H2 & _); [|done].
      by apply checkCapacity_room.
  - intros Hle. split.
    + intros list. unfold memoryStore.createList. by rewrite checkCapacity_full.
    + intros task. apply createTask_full. by apply checkCapacity_full.
  - intros ls t0 Hnd full.
    destruct (insertAll_fits ls now (newStore (Z.of_nat (length ls)) t0))
      as (H1 & H2 & H3).
    { done. }
    { intros l _. apply lookup_empty. }
    { unfold totalEntities. simpl. rewrite !map_size_empty. lia. }
    split; [done|]. subst full. rewrite H2, H3. unfold totalEntities. simpl.
    rewrite !map_size_empty. lia.
Qed.

Lemma capacity_guard_witness :
  (totalEntities storeOfOne < maxSize storeOfOne
   ∧ (memoryStore.createList listWork 1 storeOfOne).1 = Ok ())
  ∧ (maxSize storeOfOneFull ≤ totalEntities storeOfOneFull
     ∧ memoryStore.createTask taskReport 2 storeOfOneFull
       = (Err (CapacityExceeded 1 1), storeOfOneFull)).
Proof.
  split.
  - assert (totalEntities storeOfOne < maxSize storeOfOne) as Hroom by done.
    split; [done|].
    destruct (capacity_guard storeOfOne 1) as [H _].
    destruct (H Hroom) as [Hl _]. apply (Hl listWork).
  - assert (maxSize storeOfOneFull ≤ totalEntities storeOfOneFull) as Hfull
      by (by vm_compute).
    split; [done|].
    destruct (capacity_guard storeOfOneFull 2) as (_ & H & _).
    destruct (H Hfull) as [_ Ht]. apply (Ht taskReport).
Defined.

(** ** completeTask on a completed task *)

(** C10, as the code has it. For a task that is stored with status
    COMPLETED, [completeTask] of the repository returns that task, and so
    does [completeTask] of the service when the id is a valid UUID; the
    lists, the tasks (every field of them, [updated_at] and [completed_at]
    included), the indexes and the capacity of the store stay as they
    were. The store is left with its access statistics refreshed, by the
    read [getTaskById]. *)
Theorem completeTask_of_completed_only_reads i now s t :
  tasks s !! i = Some t → status t = COMPLETED →
  TaskRepository.completeTask i now s = (Ok (Some t), updateStats now s)
  ∧ (isValidUuid i = true → TaskService.completeTask i now s = (Ok t, updateStats now s))
  ∧ lists (updateStats now s) = lists s
  ∧ tasks (updateStats now s) = tasks s
  ∧ indexes (updateStats now s) = indexes s
  ∧ maxSize (updateStats now s) = maxSize s.
Proof.
  intros Hi Hst. split; [|split; [|done]].
  - unfold TaskRepository.completeTask. simpl. rewrite Hi. by rewrite decide_True.
  - intros Hv. unfold TaskService.completeTask, TaskRepository.getTaskById. rewrite Hv.
    simpl. rewrite Hi. by rewrite decide_True.
Qed.

Lemma completeTask_of_completed_only_reads_witness :
  let s := storeWithTaskDone in
  (tasks s !! id taskDone = Some taskDone ∧ status taskDone = COMPLETED)
  ∧ TaskRepository.completeTask (id taskDone) 8 s = (Ok (Some taskDone), updateStats 8 s)
  ∧ (isValidUuid (id taskDone) = true →
     TaskService.completeTask (id taskDone) 8 s = (Ok taskDone, updateStats 8 s))
  ∧ lists (updateStats 8 s) = lists s
  ∧ tasks (updateStats 8 s) = tasks s
  ∧ indexes (updateStats 8 s) = indexes s
  ∧ maxSize (updateStats 8 s) = maxSize s.
Proof.
  intros s. split; [split; [by vm_compute|done]|].
  apply (completeTask_of_completed_only_reads (id taskDone) 8 s taskDone);
    [by vm_compute|done].
Defined.

Lemma taskDone_has_a_valid_id : isValidUuid (id taskDone) = true.
Proof. by vm_compute. Qed.

(** C10 as stated fails: the whole store is not left unchanged, the read
    counts as an operation in the statistics. *)
Lemma completeTask_of_completed_touches_stats :
  ¬ (∀ i now s t, tasks s !! i = Some t → status t = COMPLETED →
       TaskRepository.completeTask i now s = (Ok (Some t), s)).
Proof.
  intros H.
  specialize (H "t1" 8 (run sampleRun (newStore 10 0)) reportAtTheEnd
                sampleRun_report eq_refl).
  apply (f_equal (λ r, operationsCount (stats r.2))) in H.
  vm_compute in H. discriminate.
Qed.

(** ** The filters of the task queries *)

Lemma keeps_meets f t : TaskRepository.keeps f t = true ↔ meets f t.
Proof.
  unfold TaskRepository.keeps, meets. split.
  - intros H.
    repeat match type of H with
           | (if ?b then false else _) = true => destruct b eqn:?; [discriminate|]
           end.
    split_and!.
    + intros l Hl Htr. rewrite Hl in Heqb. apply bool_decide_eq_false in Heqb.
      destruct (decide (list_id t = l)); [done|]. by destruct Heqb.
    + intros st Hst. rewrite Hst in Heqb0. apply bool_decide_eq_false in Heqb0.
      destruct (decide (status t = st)); [done|]. by destruct Heqb0.
    + intros p Hp. rewrite Hp in Heqb1. apply bool_decide_eq_false in Heqb1.
      destruct (decide (priority t = p)); [done|]. by destruct Heqb1.
    + intros from d Hf Hd. rewrite Hf, Hd in Heqb2.
      apply bool_decide_eq_false in Heqb2. lia.
    + intros to d Hf Hd. rewrite Hf, Hd in Heqb3.
      apply bool_decide_eq_false in Heqb3. lia.
    + intros x Hx Htr. rewrite Hx in H. rewrite decide_True in H by done.
      apply orb_true_iff in H as [H|H]; [by left|right].
      destruct (description t) as [d|]; [|done]. by exists d.
  - intros (M1 & M2 & M3 & M4 & M5 & M6).
    repeat match goal with
           | |- (if ?b then false else _) = true =>
               let E := fresh "E" in destruct b eqn:E; [exfalso|]
           end.
    + destruct (f_list_id f) as [l|]; [|done]. apply bool_decide_eq_true in E as [Htr Hne].
      by apply Hne, M1.
    + destruct (f_status f) as [st|]; [|done]. apply bool_decide_eq_true in E0.
      by apply E0, M2.
    + destruct (f_priority f) as [p|]; [|done]. apply bool_decide_eq_true in E1.
      by apply E1, M3.
    + destruct (f_deadline_from f) as [from|]; [|done].
      destruct (deadline t) as [d|]; [|done]. apply bool_decide_eq_true in E2.
      specialize (M4 from d eq_refl eq_refl). lia.
    + destruct (f_deadline_to f) as [to|]; [|done].
      destruct (deadline t) as [d|]; [|done]. apply bool_decide_eq_true in E3.
      specialize (M5 to d eq_refl eq_refl). lia.
    + destruct (f_search f) as [x|]; [|done]. case_decide as Htr; [|done].
      apply orb_true_iff. destruct (M6 x eq_refl Htr) as [H|(d & Hd & H)]; [by left|].
      right. by rewrite Hd.
Qed.

(** C9. For a task without a deadline the filter does not look at
    [deadline_from] and [deadline_to]: the task is kept exactly when it
    satisfies the other criteria given (list, status, priority, search
    term), it is in the filtered result exactly when it is among the
    candidates and satisfies them, and the filter answers as it does
    without the two bounds. *)
Theorem deadline_bounds_keep_tasks_without_deadline filters task tasks :
  deadline task = None →
  (TaskRepository.keeps filters task = true ↔ meetsOtherFilters filters task)
  ∧ (task ∈ TaskRepository.applyFilters tasks filters
     ↔ task ∈ tasks ∧ meetsOtherFilters filters task)
  ∧ TaskRepository.keeps filters task
    = TaskRepository.keeps (withoutDeadlineBounds filters) task.
Proof.
  intros Hd.
  assert (TaskRepository.keeps filters task = true ↔ meetsOtherFilters filters task)
    as Hkeeps.
  { rewrite keeps_meets. unfold meets, meetsOtherFilters. rewrite Hd. split.
    - intros (M1 & M2 & M3 & _ & _ & M6). done.
    - intros (M1 & M2 & M3 & M6). split_and!; done. }
  split_and!; [done| |].
  - unfold TaskRepository.applyFilters.
    by rewrite list_elem_of_In, filter_In, <- list_elem_of_In, Hkeeps.
  - unfold TaskRepository.keeps. simpl. rewrite Hd.
    by destruct (f_deadline_from filters), (f_deadline_to filters).
Qed.

Lemma deadline_bounds_keep_tasks_without_deadline_witness :
  deadline taskSlides = None
  ∧ (TaskRepository.keeps pendingThisWeek taskSlides = true
     ↔ meetsOtherFilters pendingThisWeek taskSlides)
  ∧ (taskSlides ∈ TaskRepository.applyFilters [taskReport; taskSlides] pendingThisWeek
     ↔ taskSlides ∈ [taskReport; taskSlides]
       ∧ meetsOtherFilters pendingThisWeek taskSlides)
  ∧ TaskRepository.keeps pendingThisWeek taskSlides
    = TaskRepository.keeps (withoutDeadlineBounds pendingThisWeek) taskSlides.
Proof.
  split; [done|].
  apply (deadline_bounds_keep_tasks_without_deadline pendingThisWeek taskSlides
           [taskReport; taskSlides]). done.
Defined.

(** ** The total of a query *)

Section QueryTotals.

Variable localeCompare : string → string → Z.
Variable LocalTZA : Z → bool → Z.

(** The four task queries return as [total] the number of candidates the
    filter keeps, whatever the sort and the page. *)
Lemma task_queries_total_is_the_filtered_size filters sort limit offset now s :
  total (TaskRepository.getAllTasks localeCompare filters sort limit offset now s).1
  = length (filtered (memoryStore.getAllTasks now s).1 filters)
  ∧ (∀ listId,
       total (TaskRepository.getTasksByListId localeCompare listId filters sort
                limit offset now s).1
       = length (filtered (memoryStore.getTasksByListId listId now s).1 filters))
  ∧ (∀ st,
       total (TaskRepository.getTasksByStatus localeCompare st filters sort
                limit offset now s).1
       = length (filtered (memoryStore.getTasksByStatus st now s).1 filters))
  ∧ (∀ fromDate toDate,
       total (TaskRepository.getTasksByDeadlineRange localeCompare LocalTZA fromDate
                toDate filters sort limit offset now s).1
       = length (filtered (memoryStore.getTasksByDeadlineRange LocalTZA fromDate toDate
                             now s).1 filters)).
Proof. by destruct filters. Qed.

End QueryTotals.

(** C6 on the lists: [ListRepository.getAllLists] takes [total] before it
    filters. With the search term "work" the page holds the one list that
    matches and [total] is 2, the number of lists of the store. *)
Lemma list_query_total_is_the_store_size localeCompare :
  (ListRepository.getAllLists localeCompare (Some {| lf_search := Some "work" |})
     None None None 3 storeOfTwoLists).1
  = {| items := [listWork]; total := 2 |}.
Proof. by vm_compute. Qed.

(** ** The deadline sort *)

Section DeadlineSort.

Variable localeCompare : string → string → Z.

Lemma compareTasks_deadline o a b :
  TaskRepository.compareTasks localeCompare {| field := "deadline"; order := o |} a b
  = let comparison :=
      match deadline a, deadline b with
      | None, None => 0
      | None, Some _ => 1
      | Some _, None => -1
      | Some da, Some db => da - db
      end in
    match o with desc => - comparison | asc => comparison end.
Proof. done. Qed.

Lemma insertSorted_Forall {A} (P : A → Prop) compare x (l : list A) :
  P x → Forall P l → Forall P (insertSorted compare x l).
Proof.
  intros Hx Hl. induction Hl as [|y l Hy Hl IH]; simpl.
  - by constructor.
  - case_decide; by repeat constructor.
Qed.

Lemma insertSorted_deadlinesLast x l :
  deadlinesLast l →
  deadlinesLast (insertSorted (TaskRepository.compareTasks localeCompare
                                 TaskRepository.byDeadlineAsc) x l).
Proof.
  induction l as [|y l IH]; intros Hl; simpl.
  - split; [by constructor|done].
  - destruct Hl as [Hy Hl]. unfold TaskRepository.byDeadlineAsc.
    rewrite compareTasks_deadline. simpl. case_decide as Hle.
    + split; [|done]. intros Hx. rewrite Hx in Hle.
      destruct (deadline y) eqn:Hdy; [lia|]. constructor; [done|]. by apply Hy.
    + split; [|by apply IH]. intros Hdy. exfalso. rewrite Hdy in Hle.
      destruct (deadline x); lia.
Qed.

(** X29. In ascending order of the deadline, sortTasks puts the tasks
    without a deadline at the end: no task without a deadline stands
    before a task with one. *)
Lemma sortTasks_ascending_deadlinesLast tasks :
  deadlinesLast (TaskRepository.sortTasks localeCompare tasks TaskRepository.byDeadlineAsc).
Proof.
  unfold TaskRepository.sortTasks, arraySort.
  induction tasks as [|t tasks IH]; cbn [foldr]; [done|].
  by apply insertSorted_deadlinesLast.
Qed.

(** C7 in descending order: the comparison is negated as a whole, so the
    task without a deadline is sorted before the task with one. *)
Lemma sortTasks_descending_puts_no_deadline_first :
  TaskRepository.sortTasks localeCompare [taskReport; taskSlides]
    {| field := "deadline"; order := desc |}
  = [taskSlides; taskReport]
  ∧ ¬ deadlinesLast (TaskRepository.sortTasks localeCompare [taskReport; taskSlides]
                       {| field := "deadline"; order := desc |}).
Proof.
  assert (TaskRepository.sortTasks localeCompare [taskReport; taskSlides]
            {| field := "deadline"; order := desc |} = [taskSlides; taskReport]) as ->
    by (by vm_compute).
  split; [done|]. intros [H _]. specialize (H eq_refl).
  by apply list.Forall_cons in H as [? _].
Qed.

End DeadlineSort.

(** * Further properties of the store *)

(** ** Buckets are never left empty *)

Section Pruned.
Context `{Countable K}.
Implicit Types (m : gmap K (gset string)) (k : K) (i j : string).

Lemma pruned_index_empty : pruned_index (∅ : gmap K (gset string)).
Proof. intros k ids Hk. by rewrite lookup_empty in Hk. Qed.

Lemma pruned_indexAdd m k i :
  pruned_index m → pruned_index (memoryStore.indexAdd k i m).
Proof.
  intros Hm k' ids. unfold memoryStore.indexAdd.
  destruct (decide (k = k')) as [<-|Hne].
  - rewrite lookup_insert_eq. intros [= <-]. set_solver.
  - rewrite lookup_insert_ne by done. apply Hm.
Qed.

Lemma pruned_indexRemove m k i :
  pruned_index m → pruned_index (memoryStore.indexRemove k i m).
Proof.
  intros Hm k' ids. unfold memoryStore.indexRemove.
  destruct (m !! k) as [ids0|] eqn:Hk; [|apply Hm].
  case_decide as Hsz.
  - destruct (decide (k = k')) as [<-|Hne].
    + by rewrite lookup_delete_eq.
    + rewrite lookup_delete_ne by done. apply Hm.
  - destruct (decide (k = k')) as [<-|Hne].
    + rewrite lookup_insert_eq. intros [= <-] He. apply Hsz. rewrite He.
      apply size_empty.
    + rewrite lookup_insert_ne by done. apply Hm.
Qed.

Lemma pruned_addKey m o i : pruned_index m → pruned_index (addKey o i m).
Proof. destruct o; simpl; [apply pruned_indexAdd|done]. Qed.

Lemma pruned_removeKey m o i : pruned_index m → pruned_index (removeKey o i m).
Proof. destruct o; simpl; [apply pruned_indexRemove|done]. Qed.

(** In a pruned index a key is present exactly when its bucket has an id. *)
Lemma pruned_lookup m k ids :
  pruned_index m → m !! k = Some ids ↔ ids = bucket m k ∧ ids ≠ ∅.
Proof.
  intros Hm. unfold bucket. split.
  - intros Hk. rewrite Hk. split; [done|]. by apply (Hm k).
  - intros [-> Hne]. destruct (m !! k); [done|]. by destruct Hne.
Qed.

(** Two pruned indexes with the same buckets are the same map. *)
Lemma pruned_index_eq m m' :
  pruned_index m → pruned_index m' → (∀ k, bucket m k = bucket m' k) → m = m'.
Proof.
  intros Hm Hm' Hb. apply map_eq. intros k. specialize (Hb k). unfold bucket in Hb.
  destruct (m !! k) as [ids|] eqn:Hk, (m' !! k) as [ids'|] eqn:Hk'; simpl in Hb.
  - by rewrite Hb.
  - by destruct (Hm k ids Hk).
  - destruct (Hm' k ids' Hk'). by rewrite <- Hb.
  - done.
Qed.

Lemma indexes_by_unique m m' ts (key : Task → option K) :
  indexes_by m ts key → indexes_by m' ts key →
  pruned_index m → pruned_index m' → m = m'.
Proof.
  intros Hi Hi' Hm Hm'. apply pruned_index_eq; [done..|].
  intros k. apply set_eq. intros i. by rewrite (Hi k i), (Hi' k i).
Qed.

Lemma size_bucket_tasksWithKey m ts (key : Task → option K) k :
  indexes_by m ts key → size (bucket m k) = tasksWithKey key k ts.
Proof.
  intros Hm. unfold tasksWithKey. rewrite <- size_dom. f_equal.
  apply set_eq. intros i. rewrite (Hm k i), elem_of_dom. split.
  - intros (t & Ht & Hk). exists t. by apply map_lookup_filter_Some.
  - intros [t Ht]. apply map_lookup_filter_Some in Ht as [Ht Hk]. by exists t.
Qed.

(** What [getIndexInfo] lists for one index. *)
Lemma index_info m ts (key : Task → option K) k n :
  indexes_by m ts key → pruned_index m →
  (size <$> m) !! k = Some n ↔ n = tasksWithKey key k ts ∧ n ≠ 0%nat.
Proof.
  intros Hi Hm. rewrite lookup_fmap, <- (size_bucket_tasksWithKey m ts key k Hi).
  destruct (m !! k) as [ids|] eqn:Hk; simpl.
  - apply (pruned_lookup m k ids Hm) in Hk as [-> Hne]. split.
    + intros [= <-]. split; [done|]. intros Hz. by apply size_empty_inv, leibniz_equiv in Hz.
    + by intros [-> _].
  - unfold bucket. rewrite Hk. simpl. split; [done|]. intros [-> Hn]. by destruct Hn.
Qed.

End Pruned.

Lemma updateTaskIndexes_pruned t ix :
  pruned ix → pruned (memoryStore.updateTaskIndexes t ix).
Proof.
  intros (Hl & Hs & Hp & Hd). rewrite updateTaskIndexes_keys.
  repeat split; cbn [tasksByListId tasksByStatus tasksByPriority tasksByDeadlineDate];
    by apply pruned_addKey.
Qed.

Lemma removeTaskFromIndexes_pruned t ix :
  pruned ix → pruned (memoryStore.removeTaskFromIndexes t ix).
Proof.
  intros (Hl & Hs & Hp & Hd). rewrite removeTaskFromIndexes_keys.
  repeat split; cbn [tasksByListId tasksByStatus tasksByPriority tasksByDeadlineDate];
    by apply pruned_removeKey.
Qed.

Lemma createTask_pruned task now s :
  pruned (indexes s) → pruned (indexes (memoryStore.createTask task now s).2).
Proof.
  intros Hp. destruct (memoryStore.checkCapacity s) as [e|] eqn:Hcap.
  - by rewrite (createTask_full _ _ _ _ Hcap).
  - destruct (createTask_ok task now s Hcap) as (_ & _ & -> & _).
    by apply updateTaskIndexes_pruned.
Qed.

Lemma updateTask_pruned i u now s :
  pruned (indexes s) → pruned (indexes (memoryStore.updateTask i u now s).2).
Proof.
  intros Hp. destruct (tasks s !! i) as [t|] eqn:Ht.
  - destruct (updateTask_found i u now s t Ht) as (_ & _ & -> & _).
    by apply updateTaskIndexes_pruned, removeTaskFromIndexes_pruned.
  - by rewrite (updateTask_missing _ _ _ _ Ht).
Qed.

Lemma deleteTask_pruned i now s :
  pruned (indexes s) → pruned (indexes (memoryStore.deleteTask i now s).2).
Proof.
  intros Hp. destruct (tasks s !! i) as [t|] eqn:Ht.
  - destruct (deleteTask_found i now s t Ht) as (_ & _ & -> & _).
    by apply removeTaskFromIndexes_pruned.
  - by rewrite (deleteTask_missing _ _ _ Ht).
Qed.

Lemma deleteTasks_pruned ids now s :
  pruned (indexes s) → pruned (indexes (deleteTasks ids now s)).
Proof.
  revert s. induction ids as [|i ids IH]; intros s Hp; [done|].
  simpl. by apply IH, deleteTask_pruned.
Qed.

Lemma deleteList_pruned i c now s :
  pruned (indexes s) → pruned (indexes (memoryStore.deleteList i c now s).2).
Proof.
  intros Hp. rewrite deleteList_unfold. destruct (lists s !! i); [|done].
  destruct c; [|done]. simpl. by apply deleteTasks_pruned.
Qed.

Lemma createList_indexes list now s :
  indexes (memoryStore.createList list now s).2 = indexes s.
Proof. unfold memoryStore.createList. by destruct (memoryStore.checkCapacity s). Qed.

Lemma updateList_indexes i u now s :
  indexes (memoryStore.updateList i u now s).2 = indexes s.
Proof. unfold memoryStore.updateList. simpl. by destruct (lists s !! i). Qed.

Lemma store_step_pruned s s' :
  pruned (indexes s) → store_step s s' → pruned (indexes s').
Proof.
  intros Hp Hstep. destruct Hstep.
  - by rewrite createList_indexes.
  - by rewrite updateList_indexes.
  - by apply deleteList_pruned.
  - by apply createTask_pruned.
  - by apply updateTask_pruned.
  - by apply deleteTask_pruned.
Qed.

Lemma newStore_pruned m t0 : pruned (indexes (newStore m t0)).
Proof. repeat split; apply pruned_index_empty. Qed.

Lemma store_call_invariants s s' :
  indexes_consistent s ∧ pruned (indexes s) → store_call s s' →
  indexes_consistent s' ∧ pruned (indexes s').
Proof.
  intros [Hc Hp] [s1 Hstep| |now].
  - split; [by apply (store_step_consistent s)|by apply (store_step_pruned s)].
  - split; [apply (newStore_consistent 0 0)|apply (newStore_pruned 0 0)].
  - done.
Qed.

Lemma reachable_invariants s :
  reachable s → indexes_consistent s ∧ pruned (indexes s).
Proof.
  intros (m & t0 & Hcalls).
  assert (∀ s0, rtc store_call s0 s →
            indexes_consistent s0 ∧ pruned (indexes s0) →
            indexes_consistent s ∧ pruned (indexes s)) as Hind.
  { clear. intros s0 Hcalls.
    induction Hcalls as [|s1 s2 s3 Hcall _ IH]; [done|].
    intros H0. by apply IH, (store_call_invariants s1). }
  apply (Hind _ Hcalls). split; [apply newStore_consistent|apply newStore_pruned].
Qed.

Lemma reachable_call s s' : reachable s → store_call s s' → reachable s'.
Proof.
  intros (m & t0 & Hcalls) Hcall. exists m, t0.
  by eapply rtc_r.
Qed.

Lemma reachable_new m t0 : reachable (newStore m t0).
Proof. by exists m, t0. Qed.

Lemma storeWithReport_reachable : reachable storeWithReport.
Proof.
  eapply reachable_call; [|apply call_step, step_createTask; done].
  eapply reachable_call; [|apply call_step, step_createList].
  apply reachable_new.
Qed.

Lemma storeWithReportAgain_reachable : reachable storeWithReportAgain.
Proof.
  eapply reachable_call; [|apply call_step, step_deleteTask].
  eapply reachable_call; [|apply call_step, step_createTask; done].
  eapply reachable_call; [|apply call_step, step_createTask; done].
  eapply reachable_call; [|apply call_step, step_createList].
  apply reachable_new.
Qed.

(** The indexes of a consistent, pruned store are a function of its tasks. *)
Lemma consistent_unique ts ix ix' :
  consistent ts ix → consistent ts ix' → pruned ix → pruned ix' → ix = ix'.
Proof.
  intros [_ Hl Hs Hp Hd] [_ Hl' Hs' Hp' Hd'] (Pl & Ps & Pp & Pd) (Pl' & Ps' & Pp' & Pd').
  destruct ix as [a b c d], ix' as [a' b' c' d']. simpl in *. f_equal.
  - by apply (indexes_by_unique a a' ts listKey).
  - by apply (indexes_by_unique b b' ts statusKey).
  - by apply (indexes_by_unique c c' ts priorityKey).
  - by apply (indexes_by_unique d d' ts deadlineKey).
Qed.

(** X1. [getIndexInfo] on a store that calls of the class have reached from
    a new store: under each index it lists a key with the number of task
    records that have this key now (list id, status, priority, day of the
    deadline), and it lists no key with the number 0. *)
Theorem getIndexInfo_counts_the_tasks s :
  reachable s →
  let info := memoryStore.getIndexInfo s in
  (∀ k n, info_tasksByListId info !! k = Some n
          ↔ n = tasksWithKey listKey k (tasks s) ∧ n ≠ 0%nat)
  ∧ (∀ k n, info_tasksByStatus info !! k = Some n
            ↔ n = tasksWithKey statusKey k (tasks s) ∧ n ≠ 0%nat)
  ∧ (∀ k n, info_tasksByPriority info !! k = Some n
            ↔ n = tasksWithKey priorityKey k (tasks s) ∧ n ≠ 0%nat)
  ∧ (∀ k n, info_tasksByDeadlineDate info !! k = Some n
            ↔ n = tasksWithKey deadlineKey k (tasks s) ∧ n ≠ 0%nat).
Proof.
  intros Hr. destruct (reachable_invariants s Hr) as [[_ Hl Hs Hp Hd] (Pl & Ps & Pp & Pd)].
  simpl. split_and!; intros k n; by apply index_info.
Qed.

Lemma getIndexInfo_counts_the_tasks_witness :
  let info := memoryStore.getIndexInfo storeWithReport in
  (∀ k n, info_tasksByListId info !! k = Some n
          ↔ n = tasksWithKey listKey k (tasks storeWithReport) ∧ n ≠ 0%nat)
  ∧ (∀ k n, info_tasksByStatus info !! k = Some n
            ↔ n = tasksWithKey statusKey k (tasks storeWithReport) ∧ n ≠ 0%nat)
  ∧ (∀ k n, info_tasksByPriority info !! k = Some n
            ↔ n = tasksWithKey priorityKey k (tasks storeWithReport) ∧ n ≠ 0%nat)
  ∧ (∀ k n, info_tasksByDeadlineDate info !! k = Some n
            ↔ n = tasksWithKey deadlineKey k (tasks storeWithReport) ∧ n ≠ 0%nat).
Proof.
  apply (getIndexInfo_counts_the_tasks storeWithReport), storeWithReport_reachable.
Defined.

(** X2. The indexes are determined by the task records: two stores that
    calls of the class have reached, by whatever sequences of calls, and
    that hold the same tasks have the same four indexes, key by key. *)
Theorem indexes_are_determined_by_the_tasks s s' :
  reachable s → reachable s' → tasks s = tasks s' → indexes s = indexes s'.
Proof.
  intros Hr Hr' Ht.
  destruct (reachable_invariants s Hr) as [Hc Hp].
  destruct (reachable_invariants s' Hr') as [Hc' Hp'].
  unfold indexes_consistent in Hc, Hc'. rewrite <- Ht in Hc'.
  by apply (consistent_unique (tasks s)).
Qed.

Lemma indexes_are_determined_by_the_tasks_witness :
  indexes storeWithReport = indexes storeWithReportAgain.
Proof.
  apply (indexes_are_determined_by_the_tasks storeWithReport storeWithReportAgain).
  - apply storeWithReport_reachable.
  - apply storeWithReportAgain_reachable.
  - by vm_compute.
Defined.

(** ** The queries by index *)

Lemma NoDup_omap_inj {A B} (f : A → option B) (g : B → A) (l : list A) :
  (∀ a b, f a = Some b → g b = a) → NoDup l → NoDup (omap f l).
Proof.
  intros Hg. induction l as [|a l IH]; intros Hl; [constructor|].
  apply list.NoDup_cons in Hl as [Ha Hl]. simpl.
  destruct (f a) as [b|] eqn:Hb; [|by apply IH].
  apply list.NoDup_cons. split; [|by apply IH].
  intros Hin. apply list_elem_of_omap in Hin as (a' & Ha' & Hb').
  apply Hg in Hb, Hb'. congruence.
Qed.

Lemma length_omap_total {A B} (f : A → option B) (l : list A) :
  (∀ a, a ∈ l → is_Some (f a)) → length (omap f l) = length l.
Proof.
  induction l as [|a l IH]; intros Hf; [done|]. simpl.
  destruct (Hf a) as [b ->]; [by left|]. simpl. f_equal. apply IH.
  intros a' Ha'. apply Hf. by right.
Qed.

Section IndexQueries.
Context `{Countable K}.

(** What a query by index returns for the key [k] of the index [m]. *)
Lemma elem_of_tasksOfIds_bucket (m : gmap K (gset string)) (key : Task → option K) k s t :
  indexes_by m (tasks s) key →
  t ∈ match m !! k with
      | Some taskIds => memoryStore.tasksOfIds taskIds s
      | None => []
      end
  ↔ stored t s ∧ key t = Some k.
Proof.
  intros Hm.
  assert (t ∈ memoryStore.tasksOfIds (bucket m k) s ↔ stored t s ∧ key t = Some k) as Hb.
  { unfold memoryStore.tasksOfIds, stored. rewrite list_elem_of_omap. split.
    - intros (i & Hi & Ht). apply elem_of_elements, (Hm k i) in Hi.
      destruct Hi as (t' & Ht' & Hk). assert (t' = t) as -> by congruence.
      split; [by exists i|done].
    - intros [[i Hi] Hk]. exists i. split; [|done].
      apply elem_of_elements, (Hm k i). by exists t. }
  unfold bucket in Hb. destruct (m !! k); [done|].
  simpl in Hb. unfold memoryStore.tasksOfIds in Hb. by rewrite elements_empty in Hb.
Qed.

Lemma length_tasksOfIds_bucket (m : gmap K (gset string)) (key : Task → option K) k s :
  indexes_by m (tasks s) key →
  length match m !! k with
         | Some taskIds => memoryStore.tasksOfIds taskIds s
         | None => []
         end
  = size (bucket m k).
Proof.
  intros Hm.
  assert (length (memoryStore.tasksOfIds (bucket m k) s) = size (bucket m k)) as Hb.
  { unfold memoryStore.tasksOfIds. rewrite length_omap_total; [done|].
    intros i Hi. apply elem_of_elements, (Hm k i) in Hi as (t & Ht & _). by exists t. }
  unfold bucket in *. destruct (m !! k); [done|]. done.
Qed.

End IndexQueries.

Lemma NoDup_tasksOfIds ids s :
  (∀ i t, tasks s !! i = Some t → id t = i) → NoDup (memoryStore.tasksOfIds ids s).
Proof.
  intros Hkey. unfold memoryStore.tasksOfIds.
  apply (NoDup_omap_inj _ id); [done|apply NoDup_elements].
Qed.

Lemma NoDup_tasks_of_bucket `{Countable K} (m : gmap K (gset string)) k s :
  (∀ i t, tasks s !! i = Some t → id t = i) →
  NoDup match m !! k with
        | Some taskIds => memoryStore.tasksOfIds taskIds s
        | None => []
        end.
Proof. intros Hkey. destruct (m !! k); [by apply NoDup_tasksOfIds|constructor]. Qed.

(** X3. On a store with consistent indexes, the three queries by index are
    the scans of the task map: getTasksByListId, getTasksByStatus and
    getTasksByPriority return, each task once, exactly the stored tasks
    with that list id, status or priority. *)
Theorem index_queries_are_the_scans s now :
  indexes_consistent s →
  (∀ l, let r := (memoryStore.getTasksByListId l now s).1 in
        NoDup r ∧ ∀ t, t ∈ r ↔ stored t s ∧ list_id t = l)
  ∧ (∀ st, let r := (memoryStore.getTasksByStatus st now s).1 in
           NoDup r ∧ ∀ t, t ∈ r ↔ stored t s ∧ status t = st)
  ∧ (∀ p, let r := (memoryStore.getTasksByPriority p now s).1 in
          NoDup r ∧ ∀ t, t ∈ r ↔ stored t s ∧ priority t = p).
Proof.
  intros [Hkey Hl Hs Hp _]. split_and!.
  - intros l. simpl. split; [by apply NoDup_tasks_of_bucket|]. intros t.
    rewrite (elem_of_tasksOfIds_bucket _ listKey l s t Hl). unfold listKey.
    split; intros [? ?]; split; congruence.
  - intros st. simpl. split; [by apply NoDup_tasks_of_bucket|]. intros t.
    rewrite (elem_of_tasksOfIds_bucket _ statusKey st s t Hs). unfold statusKey.
    split; intros [? ?]; split; congruence.
  - intros p. simpl. split; [by apply NoDup_tasks_of_bucket|]. intros t.
    rewrite (elem_of_tasksOfIds_bucket _ priorityKey p s t Hp). unfold priorityKey.
    split; intros [? ?]; split; congruence.
Qed.

Lemma index_queries_are_the_scans_witness :
  (∀ l, let r := (memoryStore.getTasksByListId l 9 storeWithReport).1 in
        NoDup r ∧ ∀ t, t ∈ r ↔ stored t storeWithReport ∧ list_id t = l)
  ∧ (∀ st, let r := (memoryStore.getTasksByStatus st 9 storeWithReport).1 in
           NoDup r ∧ ∀ t, t ∈ r ↔ stored t storeWithReport ∧ status t = st)
  ∧ (∀ p, let r := (memoryStore.getTasksByPriority p 9 storeWithReport).1 in
          NoDup r ∧ ∀ t, t ∈ r ↔ stored t storeWithReport ∧ priority t = p).
Proof.
  apply (index_queries_are_the_scans storeWithReport 9), storeWithReport_consistent.
Defined.

(** ** A task created and deleted again *)

(** X4. Creating a task under a new id and deleting it again restores the
    task map and the four indexes of a reachable store exactly, key by key
    (no bucket is left behind empty); this also holds when the creation is
    refused for lack of capacity. *)
Theorem createTask_then_deleteTask_restores s task now now' :
  reachable s → tasks s !! id task = None →
  let s' := (memoryStore.deleteTask (id task) now'
               (memoryStore.createTask task now s).2).2 in
  tasks s' = tasks s ∧ indexes s' = indexes s.
Proof.
  intros Hr Hnew s'.
  assert (reachable s') as Hr'.
  { eapply reachable_call; [|apply call_step, step_deleteTask].
    eapply reachable_call; [exact Hr|]. by apply call_step, step_createTask. }
  assert (tasks s' = tasks s) as Ht.
  { unfold s'. rewrite deleteTask_tasks.
    destruct (memoryStore.checkCapacity s) as [e|] eqn:Hcap.
    - rewrite (createTask_full _ _ _ _ Hcap). simpl. by apply delete_id.
    - destruct (createTask_ok task now s Hcap) as (_ & -> & _).
      by apply delete_insert_id. }
  split; [done|].
  destruct (reachable_invariants s Hr) as [Hc Hp].
  destruct (reachable_invariants s' Hr') as [Hc' Hp'].
  unfold indexes_consistent in Hc, Hc'. rewrite Ht in Hc'.
  by apply (consistent_unique (tasks s)).
Qed.

Lemma createTask_then_deleteTask_restores_witness :
  let s' := (memoryStore.deleteTask (id taskSlides) 9
               (memoryStore.createTask taskSlides 8 storeWithReport).2).2 in
  tasks s' = tasks storeWithReport ∧ indexes s' = indexes storeWithReport.
Proof.
  apply (createTask_then_deleteTask_restores storeWithReport taskSlides 8 9).
  - apply storeWithReport_reachable.
  - done.
Defined.

(** ** The cascade of deleteList *)

Lemma recount_delete i now ix ls : delete i (recount i now ix ls) = delete i ls.
Proof. unfold recount. destruct (ls !! i); [apply delete_insert_eq|done]. Qed.

Lemma deleteTasks_lists_delete ids now s i :
  (∀ j t, j ∈ ids → tasks s !! j = Some t → list_id t = i) →
  delete i (lists (deleteTasks ids now s)) = delete i (lists s).
Proof.
  revert s. induction ids as [|j ids IH]; intros s Hids; [done|]. simpl.
  rewrite IH.
  - destruct (tasks s !! j) as [t|] eqn:Ht.
    + destruct (deleteTask_found j now s t Ht) as (_ & _ & _ & -> & _).
      rewrite (Hids j t); [apply recount_delete|by left|done].
    + by rewrite (deleteTask_missing _ _ _ Ht).
  - intros j' t' Hj'. rewrite deleteTask_tasks. intros Ht'.
    apply lookup_delete_Some in Ht' as [_ Ht']. apply (Hids j' t'); [by right|done].
Qed.

Lemma deleteList_cascade_records i now s :
  indexes_consistent s → is_Some (lists s !! i) →
  let r := memoryStore.deleteList i true now s in
  r.1 = true
  ∧ lists r.2 = delete i (lists s)
  ∧ tasks r.2 = filter (λ it : string * Task, list_id it.2 ≠ i) (tasks s).
Proof.
  intros Hc [l Hl] r. unfold r. rewrite deleteList_unfold, Hl. simpl.
  split; [done|]. split.
  - rewrite (deleteTasks_lists_delete _ now (updateStats now s) i); [done|].
    intros j t Hj Ht. simpl in Ht.
    apply elem_of_elements, (c_list _ _ Hc i j) in Hj as (t' & Ht' & Hk).
    unfold listKey in Hk. congruence.
  - apply map_eq. intros j. rewrite deleteTasks_tasks. simpl.
    case_decide as Hj.
    + apply elem_of_elements, (c_list _ _ Hc i j) in Hj as (t' & Ht' & Hk).
      symmetry. apply map_lookup_filter_None. right. intros t Ht. simpl.
      unfold listKey in Hk. intros Hne. apply Hne. congruence.
    + destruct (tasks s !! j) as [t|] eqn:Ht.
      * symmetry. apply map_lookup_filter_Some. split; [done|]. simpl.
        intros Heq. apply Hj, elem_of_elements, (c_list _ _ Hc i j).
        exists t. split; [done|]. unfold listKey. by rewrite Heq.
      * symmetry. apply map_lookup_filter_None. by left.
Qed.

(** X5. deleteList with the cascade, on a store with consistent indexes
    that holds the list: it returns true, takes the list out of the list
    map and changes no other list record, and deletes exactly the tasks
    whose list_id is the id of the list; every other task stays as it is. *)
Theorem deleteList_deletes_exactly_the_tasks_of_the_list i now s :
  indexes_consistent s → is_Some (lists s !! i) →
  let r := memoryStore.deleteList i true now s in
  r.1 = true
  ∧ lists r.2 = delete i (lists s)
  ∧ tasks r.2 = filter (λ it : string * Task, list_id it.2 ≠ i) (tasks s).
Proof. apply deleteList_cascade_records. Qed.

Lemma deleteList_deletes_exactly_the_tasks_of_the_list_witness :
  let r := memoryStore.deleteList "l1" true 9 storeWithReport in
  r.1 = true
  ∧ lists r.2 = delete "l1" (lists storeWithReport)
  ∧ tasks r.2 = filter (λ it : string * Task, list_id it.2 ≠ "l1") (tasks storeWithReport).
Proof.
  apply (deleteList_deletes_exactly_the_tasks_of_the_list "l1" 9 storeWithReport).
  - apply storeWithReport_consistent.
  - eexists. vm_compute. reflexivity.
Defined.

(** ** The capacity over sequences of calls *)

Lemma recount_size l now ix ls : size (recount l now ix ls) = size ls.
Proof.
  unfold recount. destruct (ls !! l) as [x|] eqn:Hl; [|done].
  apply map_size_insert_Some. by exists x.
Qed.

Lemma recountMoved_size old u now ix ls : size (recountMoved old u now ix ls) = size ls.
Proof.
  unfold recountMoved. destruct (u_list_id u); [|done].
  case_decide; [|done]. by rewrite !recount_size.
Qed.

Lemma size_insert_le `{Countable K} {A} (m : gmap K A) k x :
  (size m ≤ size (<[k := x]> m) ≤ S (size m))%nat.
Proof. rewrite map_size_insert. destruct (m !! k); simpl; lia. Qed.

Lemma size_delete_le `{Countable K} {A} (m : gmap K A) k :
  (size (delete k m) ≤ size m)%nat.
Proof. rewrite map_size_delete. destruct (m !! k); simpl; lia. Qed.

Lemma deleteTask_sizes i now s :
  let s' := (memoryStore.deleteTask i now s).2 in
  maxSize s' = maxSize s ∧ size (lists s') = size (lists s)
  ∧ (size (tasks s') ≤ size (tasks s))%nat.
Proof.
  intros s'. unfold s'. destruct (tasks s !! i) as [t|] eqn:Ht.
  - destruct (deleteTask_found i now s t Ht) as (_ & -> & _ & -> & ->).
    rewrite recount_size. split_and!; [done..|apply size_delete_le].
  - by rewrite (deleteTask_missing _ _ _ Ht).
Qed.

Lemma deleteTasks_sizes ids now s :
  let s' := deleteTasks ids now s in
  maxSize s' = maxSize s ∧ size (lists s') = size (lists s)
  ∧ (size (tasks s') ≤ size (tasks s))%nat.
Proof.
  revert s. induction ids as [|i ids IH]; intros s; [done|]. simpl.
  destruct (IH (memoryStore.deleteTask i now s).2) as (-> & -> & Hle).
  destruct (deleteTask_sizes i now s) as (-> & -> & Hle'). split_and!; [done..|lia].
Qed.

(** A mutating method keeps the capacity and stays within it. *)
Lemma store_step_capacity s s' :
  store_step s s' → totalEntities s ≤ maxSize s →
  maxSize s' = maxSize s ∧ totalEntities s' ≤ maxSize s.
Proof.
  unfold totalEntities. intros Hstep Hle. destruct Hstep.
  - unfold memoryStore.createList, memoryStore.checkCapacity.
    case_decide as Hfull; simpl; [done|].
    pose proof (size_insert_le (lists s) (l_id list) list). split; [done|lia].
  - unfold memoryStore.updateList. simpl. destruct (lists s !! i) as [l|] eqn:Hl; [|done].
    simpl. rewrite map_size_insert_Some; [done|by exists l].
  - rewrite deleteList_unfold. destruct (lists s !! i); [|done]. simpl.
    pose proof (size_delete_le (lists s) i). destruct deleteAssociatedTasks.
    + set (ids := elements _).
      destruct (deleteTasks_sizes ids now (updateStats now s)) as (-> & Hl & Ht).
      simpl in *. split; [done|].
      pose proof (size_delete_le (lists (deleteTasks ids now (updateStats now s))) i).
      lia.
    + simpl. split; [done|lia].
  - destruct (memoryStore.checkCapacity s) as [e|] eqn:Hcap.
    + by rewrite (createTask_full _ _ _ _ Hcap).
    + destruct (createTask_ok task now s Hcap) as (_ & -> & _ & -> & ->).
      rewrite recount_size. split; [done|].
      unfold memoryStore.checkCapacity in Hcap. case_decide as Hfull; [done|].
      pose proof (size_insert_le (tasks s) (id task) task). lia.
  - destruct (tasks s !! i) as [t|] eqn:Ht.
    + destruct (updateTask_found i u now s t Ht) as (_ & -> & _ & -> & ->).
      rewrite recountMoved_size, map_size_insert_Some; [done|by exists t].
    + by rewrite (updateTask_missing _ _ _ _ Ht).
  - destruct (deleteTask_sizes i now s) as (-> & -> & Ht). split; [done|lia].
Qed.

(** X6. The capacity is an invariant of the store: from a store that
    holds no more than maxSize records (an empty store of capacity at
    least 0 is one), after any sequence of calls of its methods (the
    mutating methods, clear, the reading methods), maxSize is the same and
    the number of lists plus the number of tasks is at most maxSize. *)
Theorem store_never_exceeds_its_capacity s s' :
  rtc store_call s s' → totalEntities s ≤ maxSize s →
  maxSize s' = maxSize s ∧ totalEntities s' ≤ maxSize s'.
Proof.
  intros Hcalls. induction Hcalls as [|s1 s2 s3 Hcall _ IH]; [done|].
  intros Hle. assert (maxSize s2 = maxSize s1 ∧ totalEntities s2 ≤ maxSize s2) as [Hm H2].
  { destruct Hcall as [s2 Hstep| |now].
    - destruct (store_step_capacity s1 s2 Hstep Hle) as [Hm H2]. rewrite Hm. done.
    - split; [done|]. unfold totalEntities in *. simpl.
      rewrite !map_size_empty. lia.
    - done. }
  destruct (IH H2) as [Hm3 H3]. split; [congruence|done].
Qed.

Lemma store_never_exceeds_its_capacity_witness :
  maxSize storeOfOneFull = maxSize storeOfOne
  ∧ totalEntities storeOfOneFull ≤ maxSize storeOfOneFull.
Proof.
  apply (store_never_exceeds_its_capacity storeOfOne storeOfOneFull).
  - apply rtc_once, call_step, step_createList.
  - by vm_compute.
Defined.

(** * Further properties of the repositories *)

(** ** An operation of a repository is a sequence of calls of the store *)

Lemma readsBeforeUpdate_calls t input now s :
  rtc store_call s (readsBeforeUpdate t input now s).
Proof.
  unfold readsBeforeUpdate. assert (rtc store_call s (updateStats now s)) as H1.
  { apply rtc_once, call_read. }
  destruct (ui_list_id input); [|done]. case_decide; [|done].
  eapply rtc_r; [exact H1|apply call_read].
Qed.

Lemma exec_calls op now s : well_formed op s → rtc store_call s (exec op now s).
Proof.
  intros Hw.
  assert (∀ s0, rtc store_call s0 (updateStats now s0)) as Hread.
  { intros s0. apply rtc_once, call_read. }
  destruct op as [input newId|i input|i c|input newId|i input|i|i|i]; simpl.
  - destruct (repo_createList_cases input newId now s) as [->| ->]; [done|].
    eapply rtc_r; [apply Hread|apply call_step, step_createList].
  - destruct (repo_updateList_cases i input now s) as (s0 & Hs0 & Hcases).
    assert (rtc store_call s s0) as H0.
    { destruct Hs0 as [->| ->]; [done|]. eapply rtc_r; [apply Hread|apply call_read]. }
    destruct Hcases as [->| ->]; [done|].
    eapply rtc_r; [|apply call_read]. eapply rtc_r; [exact H0|].
    apply call_step, step_updateList.
  - rewrite repo_deleteList_state. destruct (lists s !! i); [|done].
    eapply rtc_r; [|apply call_step, step_deleteList].
    eapply rtc_r; [apply Hread|apply call_read].
  - rewrite repo_createTask_state. destruct (lists s !! ci_list_id input); [|done].
    eapply rtc_r; [apply Hread|]. apply call_step, step_createTask. apply Hw.
  - rewrite repo_updateTask_state. destruct (tasks s !! i) as [t|]; [|done].
    pose proof (readsBeforeUpdate_calls t input now s) as H0.
    destruct (movesToMissingList t input s); [done|].
    eapply rtc_r; [|apply call_read]. eapply rtc_r; [exact H0|].
    apply call_step, step_updateTask.
  - rewrite repo_deleteTask_state. destruct (tasks s !! i); [|done].
    eapply rtc_r; [apply Hread|apply call_step, step_deleteTask].
  - rewrite repo_completeTask_state. destruct (tasks s !! i); [|done].
    case_decide; [done|]. eapply rtc_r; [|apply call_read].
    eapply rtc_r; [apply Hread|apply call_step, step_updateTask].
  - rewrite repo_uncompleteTask_state. destruct (tasks s !! i); [|done].
    case_decide; [done|]. eapply rtc_r; [|apply call_read].
    eapply rtc_r; [apply Hread|apply call_step, step_updateTask].
Qed.

Lemma run_calls ops s : well_formed_run ops s → rtc store_call s (run ops s).
Proof.
  revert s. induction ops as [|[op now] ops IH]; intros s Hw; [done|].
  destruct Hw as [Hop Hw]. simpl. etrans; [by apply exec_calls|by apply IH].
Qed.

Lemma run_reachable ops m t0 :
  well_formed_run ops (newStore m t0) → reachable (run ops (newStore m t0)).
Proof. intros Hw. exists m, t0. by apply run_calls. Qed.

(** ** The counters of the statistics *)

Lemma updateListTaskCount_stats l now s :
  stats (memoryStore.updateListTaskCount l now s) = stats s.
Proof. unfold memoryStore.updateListTaskCount. by destruct (lists s !! l). Qed.

Lemma updateListTaskCount_stats_ok l now s :
  stats_ok s → stats_ok (memoryStore.updateListTaskCount l now s).
Proof.
  unfold stats_ok.
  by rewrite updateListTaskCount_stats, updateListTaskCount_tasks,
    updateListTaskCount_lists, recount_size.
Qed.

Lemma size_delete_found `{Countable K} {A} (m : gmap K A) k x :
  m !! k = Some x → Z.of_nat (size (delete k m)) = Z.of_nat (size m) - 1.
Proof.
  intros Hk. rewrite map_size_delete, Hk.
  assert (size m ≠ 0%nat) by (apply map_size_ne_0_lookup; by exists k, x). lia.
Qed.

Lemma createList_stats list now s :
  stats_ok s → lists s !! l_id list = None →
  stats_ok (memoryStore.createList list now s).2.
Proof.
  intros [Hl Ht] Hnew. unfold memoryStore.createList.
  destruct (memoryStore.checkCapacity s); [done|]. unfold stats_ok. simpl.
  rewrite map_size_insert_None by done. split; [lia|done].
Qed.

Lemma updateList_stats i u now s :
  stats_ok s → stats_ok (memoryStore.updateList i u now s).2.
Proof.
  intros [Hl Ht]. unfold memoryStore.updateList. simpl.
  destruct (lists s !! i) as [l|] eqn:Hi; [|done]. unfold stats_ok. simpl.
  rewrite map_size_insert_Some; [done|by exists l].
Qed.

Lemma createTask_stats task now s :
  stats_ok s → tasks s !! id task = None →
  stats_ok (memoryStore.createTask task now s).2.
Proof.
  intros [Hl Ht] Hnew. unfold memoryStore.createTask.
  destruct (memoryStore.checkCapacity s); [done|]. cbn [snd].
  apply updateListTaskCount_stats_ok. unfold stats_ok. simpl.
  rewrite map_size_insert_None by done. split; [done|lia].
Qed.

Lemma updateTask_stats i u now s :
  stats_ok s → stats_ok (memoryStore.updateTask i u now s).2.
Proof.
  intros [Hl Ht]. unfold memoryStore.updateTask. cbn zeta.
  change (tasks (updateStats now s)) with (tasks s).
  destruct (tasks s !! i) as [t|] eqn:Hi; [|done]. cbn [snd].
  set (s1 := withIndexes _ (withTasks _ _)).
  assert (stats_ok s1) as H1.
  { unfold stats_ok, s1. simpl. rewrite map_size_insert_Some; [done|by exists t]. }
  destruct (u_list_id u); [|done]. case_decide; [|done].
  by do 2 apply updateListTaskCount_stats_ok.
Qed.

Lemma deleteTask_stats i now s :
  stats_ok s → stats_ok (memoryStore.deleteTask i now s).2.
Proof.
  intros [Hl Ht]. unfold memoryStore.deleteTask. cbn zeta.
  change (tasks (updateStats now s)) with (tasks s).
  destruct (tasks s !! i) as [t|] eqn:Hi; [|done]. cbn [snd].
  apply updateListTaskCount_stats_ok. unfold stats_ok. simpl.
  rewrite (size_delete_found _ _ _ Hi). split; [done|lia].
Qed.

Lemma deleteTasks_stats ids now s :
  stats_ok s → stats_ok (deleteTasks ids now s).
Proof.
  revert s. induction ids as [|i ids IH]; intros s Hs; [done|].
  simpl. by apply IH, deleteTask_stats.
Qed.

Lemma deleteList_stats i c now s :
  stats_ok s → stats_ok (memoryStore.deleteList i c now s).2.
Proof.
  intros Hs. rewrite deleteList_unfold. destruct (lists s !! i) as [l|] eqn:Hi; [|done].
  cbn [snd].
  assert (∀ s0, stats_ok s0 → is_Some (lists s0 !! i) →
            stats_ok (bumpListsCount (-1) (withLists (delete i) s0))) as Hgo.
  { intros s0 [Hl Ht] [l0 Hl0]. unfold stats_ok. simpl.
    rewrite (size_delete_found _ _ _ Hl0). split; [lia|done]. }
  destruct c.
  - apply Hgo; [by apply deleteTasks_stats|]. apply deleteTasks_lists_dom. by exists l.
  - apply Hgo; [done|]. by exists l.
Qed.

Lemma exec_stats op now s : stats_ok s → well_formed op s → stats_ok (exec op now s).
Proof.
  intros Hs Hw. destruct op as [input newId|i input|i c|input newId|i input|i|i|i]; simpl.
  - destruct (repo_createList_cases input newId now s) as [->| ->]; [done|].
    apply createList_stats; [done|]. apply Hw.
  - destruct (repo_updateList_cases i input now s) as (s0 & Hs0 & [->| ->]).
    + by destruct Hs0 as [->| ->].
    + apply (updateList_stats i _ now s0). by destruct Hs0 as [->| ->].
  - rewrite repo_deleteList_state. destruct (lists s !! i); [|done].
    by apply deleteList_stats.
  - rewrite repo_createTask_state. destruct (lists s !! ci_list_id input); [|done].
    apply createTask_stats; [done|]. apply Hw.
  - rewrite repo_updateTask_state. destruct (tasks s !! i) as [t|]; [|done].
    assert (stats_ok (readsBeforeUpdate t input now s)) as Hs'.
    { unfold readsBeforeUpdate. destruct (ui_list_id input); [|done]. by case_decide. }
    destruct (movesToMissingList t input s); [done|].
    by apply (updateTask_stats i _ now (readsBeforeUpdate t input now s)).
  - rewrite repo_deleteTask_state. destruct (tasks s !! i); [|done].
    by apply deleteTask_stats.
  - rewrite repo_completeTask_state. destruct (tasks s !! i); [|done].
    case_decide; [done|]. by apply (updateTask_stats i _ now (updateStats now s)).
  - rewrite repo_uncompleteTask_state. destruct (tasks s !! i); [|done].
    case_decide; [done|]. by apply (updateTask_stats i _ now (updateStats now s)).
Qed.

Lemma run_stats ops s : stats_ok s → well_formed_run ops s → stats_ok (run ops s).
Proof.
  revert s. induction ops as [|[op now] ops IH]; intros s Hs Hw; [done|].
  destruct Hw as [Hop Hw]. simpl. apply IH; [by apply exec_stats|done].
Qed.

(** X7. After any sequence of operations of the repositories run from a
    new store with generated ids unused, getStats reports the number of
    list records as listsCount and the number of task records as
    tasksCount (task deletions by the cascade of deleteList included). *)
Theorem getStats_counts_the_records ops m t0 now :
  well_formed_run ops (newStore m t0) →
  let s := run ops (newStore m t0) in
  let st := (memoryStore.getStats now s).1 in
  listsCount st = Z.of_nat (size (lists s)) ∧ tasksCount st = Z.of_nat (size (tasks s)).
Proof.
  intros Hw s st. apply (run_stats ops (newStore m t0)); [|done].
  split; simpl; by rewrite map_size_empty.
Qed.

Lemma getStats_counts_the_records_witness :
  let s := run sampleRun (newStore 10 0) in
  let st := (memoryStore.getStats 9 s).1 in
  listsCount st = Z.of_nat (size (lists s)) ∧ tasksCount st = Z.of_nat (size (tasks s)).
Proof.
  apply (getStats_counts_the_records sampleRun 10 0 9), sampleRun_well_formed.
Defined.

(** ** Operations that fail *)

(** X8. An operation of a repository that throws (the list of a new task
    or the list a task is moved to does not exist, a list name is taken,
    the store is full) has changed no record: the lists, the tasks and the
    four indexes are as before the call. *)
Theorem failed_operation_changes_no_record op now s :
  failed op now s = true →
  lists (exec op now s) = lists s ∧ tasks (exec op now s) = tasks s
  ∧ indexes (exec op now s) = indexes s.
Proof.
  destruct op as [input newId|i input|i c|input newId|i input|i|i|i]; simpl.
  - unfold ListRepository.createList. simpl. fold (newList input newId now).
    destruct (existsb _ _); [done|].
    unfold memoryStore.createList.
    destruct (memoryStore.checkCapacity (updateStats now s)); [done|]. by simpl.
  - unfold ListRepository.updateList. simpl.
    destruct (lists s !! i) as [l|] eqn:Hi; [|done].
    assert (∀ s0, lists s0 = lists s →
      isErr (let '(success, s1) :=
                memoryStore.updateList i (ListRepository.updateData input) now s0 in
             if success
             then let '(updatedList, s2) := memoryStore.getListById i now s1 in
                  (Ok updatedList, s2)
             else (Ok None, s1)).1 = false) as Hgo.
    { intros s0 Hs0. unfold memoryStore.updateList. simpl. by rewrite Hs0, Hi. }
    destruct (ul_name input) as [name|].
    + case_decide.
      * simpl. destruct (existsb _ _); simpl; [done|]. by rewrite Hgo.
      * by rewrite Hgo.
    + by rewrite Hgo.
  - unfold ListRepository.deleteList. simpl. destruct (lists s !! i); [|done].
    by destruct (memoryStore.deleteList i c now (updateStats now (updateStats now s))).
  - unfold TaskRepository.createTask. simpl.
    destruct (lists s !! ci_list_id input); [|done]. fold (newTask input newId now).
    unfold memoryStore.createTask.
    destruct (memoryStore.checkCapacity (updateStats now s)); [done|]. by simpl.
  - unfold TaskRepository.updateTask. simpl.
    destruct (tasks s !! i) as [t|] eqn:Hi; [|done].
    assert (∀ s0, tasks s0 = tasks s →
      isErr (let '(success, s1) :=
                memoryStore.updateTask i (TaskRepository.updateData input) now s0 in
             if success
             then let '(updatedTask, s2) := memoryStore.getTaskById i now s1 in
                  (Ok updatedTask, s2)
             else (Ok None, s1)).1 = false) as Hgo.
    { intros s0 Hs0.
      by destruct (memoryStore.updateTask i (TaskRepository.updateData input) now s0)
        as [[] ?]. }
    destruct (ui_list_id input) as [n|]; [|by rewrite Hgo].
    case_decide; [|by rewrite Hgo]. simpl.
    destruct (lists s !! n); simpl; [by rewrite Hgo|done].
  - unfold TaskRepository.deleteTask. simpl. destruct (tasks s !! i); [|done].
    by destruct (memoryStore.deleteTask i now (updateStats now s)).
  - unfold TaskRepository.completeTask. simpl. destruct (tasks s !! i); [|done].
    case_decide; [done|].
    by destruct (memoryStore.updateTask i _ now (updateStats now s)) as [[] ?].
  - unfold TaskRepository.uncompleteTask. simpl. destruct (tasks s !! i); [|done].
    case_decide; [done|].
    by destruct (memoryStore.updateTask i _ now (updateStats now s)) as [[] ?].
Qed.

Lemma failed_operation_changes_no_record_witness :
  let op := CreateTask {| ci_list_id := "l9"; ci_title := "Report"; ci_description := None;
                          ci_deadline := None; ci_priority := None |} "t9" in
  lists (exec op 9 storeWithReport) = lists storeWithReport
  ∧ tasks (exec op 9 storeWithReport) = tasks storeWithReport
  ∧ indexes (exec op 9 storeWithReport) = indexes storeWithReport.
Proof.
  intros op. apply (failed_operation_changes_no_record op 9 storeWithReport).
  by vm_compute.
Defined.

(** ** The names of the lists *)

Lemma sameName_sym a b : ListRepository.sameName a b = ListRepository.sameName b a.
Proof. unfold ListRepository.sameName. apply bool_decide_ext. split; congruence. Qed.

Lemma existsb_lists_false (f : List → bool) (ls : gmap string List) :
  existsb f (map_to_list ls).*2 = false ↔ ∀ k l, ls !! k = Some l → f l = false.
Proof.
  split.
  - intros He k l Hk. destruct (f l) eqn:Hf; [|done].
    assert (existsb f (map_to_list ls).*2 = true) as Ht; [|congruence].
    apply existsb_exists. exists l. split; [|done].
    apply list_elem_of_In, list_elem_of_fmap. exists (k, l).
    split; [done|]. by apply elem_of_map_to_list.
  - intros Hf. destruct (existsb f (map_to_list ls).*2) eqn:He; [|done].
    apply existsb_exists in He as (l & Hin & Hl).
    apply list_elem_of_In, list_elem_of_fmap in Hin as ([k l'] & -> & Hin).
    apply elem_of_map_to_list in Hin. simpl in Hl. by rewrite (Hf k l' Hin) in Hl.
Qed.

Lemma names_from_refl ls : names_from ls ls.
Proof. intros k l Hk. by exists l. Qed.

Lemma recounted_trans l1 l2 l3 : recounted l1 l2 → recounted l2 l3 → recounted l1 l3.
Proof. unfold recounted. intros (?&?&?&?&?) (?&?&?&?&?). split_and!; congruence. Qed.

Lemma names_from_trans ls1 ls2 ls3 :
  names_from ls1 ls2 → names_from ls2 ls3 → names_from ls1 ls3.
Proof.
  intros H12 H23 k l3 Hk. destruct (H23 k l3 Hk) as (l2 & Hk2 & R23).
  destruct (H12 k l2 Hk2) as (l1 & Hk1 & R12). exists l1. split; [done|].
  by apply (recounted_trans l1 l2 l3).
Qed.

Lemma names_unique_from ls ls' : names_unique ls → names_from ls ls' → names_unique ls'.
Proof.
  intros Hu Hf i j li lj Hi Hj Hsame.
  destruct (Hf i li Hi) as (li0 & Hi0 & _ & Ei & _).
  destruct (Hf j lj Hj) as (lj0 & Hj0 & _ & Ej & _).
  rewrite Ei, Ej in Hsame. by apply (Hu i j li0 lj0).
Qed.

Lemma names_unique_same_name ls i l l' :
  names_unique ls → ls !! i = Some l → l_name l' = l_name l →
  names_unique (<[i := l']> ls).
Proof.
  intros Hu Hi Hn a b la lb Ha Hb Hsame.
  destruct (decide (i = a)) as [<-|Hna], (decide (i = b)) as [<-|Hnb]; [done|..].
  - rewrite lookup_insert_eq in Ha. rewrite lookup_insert_ne in Hb by done.
    injection Ha as <-. rewrite Hn in Hsame. by apply (Hu i b l lb).
  - rewrite lookup_insert_eq in Hb. rewrite lookup_insert_ne in Ha by done.
    injection Hb as <-. rewrite Hn in Hsame. by apply (Hu a i la l).
  - rewrite lookup_insert_ne in Ha, Hb by done. by apply (Hu a b la lb).
Qed.

Lemma recount_names_from a now ix ls : names_from ls (recount a now ix ls).
Proof.
  unfold recount. destruct (ls !! a) as [l|] eqn:Ha; [|apply names_from_refl].
  intros k l' Hk. destruct (decide (a = k)) as [<-|Hne].
  - rewrite lookup_insert_eq in Hk. injection Hk as <-. by exists l.
  - rewrite lookup_insert_ne in Hk by done. by exists l'.
Qed.

Lemma recountMoved_names_from old u now ix ls : names_from ls (recountMoved old u now ix ls).
Proof.
  unfold recountMoved. destruct (u_list_id u); [|apply names_from_refl].
  case_decide; [|apply names_from_refl].
  eapply names_from_trans; apply recount_names_from.
Qed.

Lemma delete_names_from i ls : names_from ls (delete i ls).
Proof. intros k l Hk. apply lookup_delete_Some in Hk as [_ Hk]. by exists l. Qed.

Lemma createTask_names_from task now s :
  names_from (lists s) (lists (memoryStore.createTask task now s).2).
Proof.
  destruct (memoryStore.checkCapacity s) as [e|] eqn:Hcap.
  - rewrite (createTask_full _ _ _ _ Hcap). apply names_from_refl.
  - destruct (createTask_ok task now s Hcap) as (_ & _ & _ & -> & _).
    apply recount_names_from.
Qed.

Lemma updateTask_names_from i u now s :
  names_from (lists s) (lists (memoryStore.updateTask i u now s).2).
Proof.
  destruct (tasks s !! i) as [t|] eqn:Ht.
  - destruct (updateTask_found i u now s t Ht) as (_ & _ & _ & -> & _).
    apply recountMoved_names_from.
  - rewrite (updateTask_missing _ _ _ _ Ht). apply names_from_refl.
Qed.

Lemma deleteTask_names_from i now s :
  names_from (lists s) (lists (memoryStore.deleteTask i now s).2).
Proof.
  destruct (tasks s !! i) as [t|] eqn:Ht.
  - destruct (deleteTask_found i now s t Ht) as (_ & _ & _ & -> & _).
    apply recount_names_from.
  - rewrite (deleteTask_missing _ _ _ Ht). apply names_from_refl.
Qed.

Lemma deleteTasks_names_from ids now s :
  names_from (lists s) (lists (deleteTasks ids now s)).
Proof.
  revert s. induction ids as [|i ids IH]; intros s; [apply names_from_refl|].
  simpl. eapply names_from_trans; [apply (deleteTask_names_from i now s)|apply IH].
Qed.

Lemma deleteList_names_from i c now s :
  names_from (lists s) (lists (memoryStore.deleteList i c now s).2).
Proof.
  rewrite deleteList_unfold. destruct (lists s !! i); [|apply names_from_refl].
  simpl. destruct c.
  - eapply names_from_trans; [|apply delete_names_from].
    apply (deleteTasks_names_from _ now (updateStats now s)).
  - apply delete_names_from.
Qed.

(** The list map after [ListRepository.createList]. *)
Lemma repo_createList_lists input newId now s :
  lists (ListRepository.createList input newId now s).2 = lists s
  ∨ (lists (ListRepository.createList input newId now s).2
       = <[newId := newList input newId now]> (lists s)
     ∧ ∀ k l, lists s !! k = Some l →
         ListRepository.sameName (l_name l) (l_name (newList input newId now)) = false).
Proof.
  unfold ListRepository.createList. simpl. fold (newList input newId now).
  destruct (existsb _ _) eqn:He; [by left|].
  unfold memoryStore.createList.
  destruct (memoryStore.checkCapacity (updateStats now s)); [by left|]. right.
  split; [done|]. by apply existsb_lists_false.
Qed.

(** The list map after [ListRepository.updateList]. *)
Lemma repo_updateList_lists i input now s :
  lists (ListRepository.updateList i input now s).2 =
  match lists s !! i with
  | None => lists s
  | Some l =>
      if nameTaken i input s then lists s
      else <[i := memoryStore.mergeList l (ListRepository.updateData input) i now]> (lists s)
  end.
Proof.
  unfold ListRepository.updateList, nameTaken. simpl.
  destruct (lists s !! i) as [l|] eqn:Hi; [|done].
  assert (∀ s0, lists s0 = lists s →
    lists (let '(success, s1) :=
              memoryStore.updateList i (ListRepository.updateData input) now s0 in
           if success
           then let '(updatedList, s2) := memoryStore.getListById i now s1 in
                (Ok updatedList, s2)
           else (Ok None, s1)).2
    = <[i := memoryStore.mergeList l (ListRepository.updateData input) i now]> (lists s))
    as Hgo.
  { intros s0 Hs0. unfold memoryStore.updateList. simpl. rewrite Hs0, Hi. simpl.
    by rewrite Hs0. }
  destruct (ul_name input) as [name|]; [|by apply Hgo].
  case_decide as Hname.
  - rewrite bool_decide_eq_true_2 by done. simpl.
    destruct (existsb _ _); simpl; [done|by apply Hgo].
  - rewrite bool_decide_eq_false_2 by done. by apply Hgo.
Qed.

Lemma exec_names op now s :
  list_keys_ok (lists s) → names_unique (lists s) →
  well_formed op s → names_given op →
  names_unique (lists (exec op now s)).
Proof.
  intros Hkeys Hu Hw Hgiven.
  destruct op as [input newId|i input|i c|input newId|i input|i|i|i]; simpl.
  - destruct (repo_createList_lists input newId now s) as [->|[-> Hnew]]; [done|].
    destruct Hw as (Hfresh & _). intros a b la lb Ha Hb Hsame.
    destruct (decide (newId = a)) as [<-|Hna], (decide (newId = b)) as [<-|Hnb].
    + done.
    + rewrite lookup_insert_eq in Ha. rewrite lookup_insert_ne in Hb by done.
      injection Ha as <-. rewrite sameName_sym, (Hnew b lb Hb) in Hsame. done.
    + rewrite lookup_insert_eq in Hb. rewrite lookup_insert_ne in Ha by done.
      injection Hb as <-. by rewrite (Hnew a la Ha) in Hsame.
    + rewrite lookup_insert_ne in Ha, Hb by done. by apply (Hu a b la lb).
  - rewrite repo_updateList_lists. destruct (lists s !! i) as [l|] eqn:Hi; [|done].
    destruct (nameTaken i input s) eqn:Htaken; [done|].
    unfold nameTaken in Htaken. simpl in Hgiven.
    destruct (ul_name input) as [name|] eqn:Hname.
    + destruct (decide (truthy name)) as [Htr|Hfalse].
      2:{ destruct Hgiven. f_equal. unfold truthy in Hfalse.
          by destruct (decide (name = "")) as [->|?]; [|destruct Hfalse]. }
      rewrite bool_decide_eq_true_2 in Htaken by done. simpl in Htaken.
      pose proof (proj1 (existsb_lists_false _ _) Htaken) as Hfree.
      assert (l_name (memoryStore.mergeList l (ListRepository.updateData input) i now)
              = trim name) as Hn.
      { simpl. rewrite Hname. simpl. by rewrite decide_True. }
      assert (∀ k lk, k ≠ i → lists s !! k = Some lk →
                ListRepository.sameName (l_name lk) (trim name) = false) as Hother.
      { intros k lk Hk Hlk. specialize (Hfree k lk Hlk). simpl in Hfree.
        rewrite bool_decide_eq_true_2 in Hfree; [done|]. by rewrite (Hkeys k lk Hlk). }
      intros a b la lb Ha Hb Hsame.
      destruct (decide (i = a)) as [<-|Hna], (decide (i = b)) as [<-|Hnb].
      * done.
      * rewrite lookup_insert_eq in Ha. rewrite lookup_insert_ne in Hb by done.
        injection Ha as <-. rewrite Hn, sameName_sym in Hsame.
        rewrite (Hother b lb) in Hsame; [done|congruence|done].
      * rewrite lookup_insert_eq in Hb. rewrite lookup_insert_ne in Ha by done.
        injection Hb as <-. rewrite Hn in Hsame.
        rewrite (Hother a la) in Hsame; [done|congruence|done].
      * rewrite lookup_insert_ne in Ha, Hb by done. by apply (Hu a b la lb).
    + apply (names_unique_same_name _ i l); [done..|]. simpl. by rewrite Hname.
  - rewrite repo_deleteList_state. destruct (lists s !! i); [|done].
    apply (names_unique_from (lists s)); [done|].
    apply (deleteList_names_from i c now (updateStats now (updateStats now s))).
  - rewrite repo_createTask_state. destruct (lists s !! ci_list_id input); [|done].
    apply (names_unique_from (lists s)); [done|].
    apply (createTask_names_from _ now (updateStats now s)).
  - rewrite repo_updateTask_state. destruct (tasks s !! i) as [t|]; [|done].
    assert (lists (readsBeforeUpdate t input now s) = lists s) as Hl.
    { unfold readsBeforeUpdate. destruct (ui_list_id input); [|done]. by case_decide. }
    destruct (movesToMissingList t input s); [by rewrite Hl|].
    apply (names_unique_from (lists s)); [done|]. simpl. rewrite <- Hl.
    apply updateTask_names_from.
  - rewrite repo_deleteTask_state. destruct (tasks s !! i); [|done].
    apply (names_unique_from (lists s)); [done|].
    apply (deleteTask_names_from i now (updateStats now s)).
  - rewrite repo_completeTask_state. destruct (tasks s !! i); [|done].
    case_decide; [done|]. apply (names_unique_from (lists s)); [done|].
    apply (updateTask_names_from i _ now (updateStats now s)).
  - rewrite repo_uncompleteTask_state. destruct (tasks s !! i); [|done].
    case_decide; [done|]. apply (names_unique_from (lists s)); [done|].
    apply (updateTask_names_from i _ now (updateStats now s)).
Qed.

Lemma run_names ops s :
  list_keys_ok (lists s) → names_unique (lists s) →
  well_formed_run ops s → Forall (λ p : RepoOp * Z, names_given p.1) ops →
  names_unique (lists (run ops s)).
Proof.
  revert s. induction ops as [|[op now] ops IH]; intros s Hk Hu Hw Hg; [done|].
  destruct Hw as [Hop Hw]. apply list.Forall_cons in Hg as [Hg1 Hg]. simpl.
  apply IH; [by apply exec_list_keys|by apply exec_names|done..].
Qed.

(** X9. The names of the lists stay unique, letter case ignored: after any
    sequence of operations of the repositories run from a new store, with
    generated ids unused and no update of a list carrying the empty string
    as the name, no two lists of the store have names that are equal after
    toLowerCase. *)
Theorem list_names_stay_unique ops m t0 :
  well_formed_run ops (newStore m t0) →
  Forall (λ p : RepoOp * Z, names_given p.1) ops →
  names_unique (lists (run ops (newStore m t0))).
Proof.
  intros Hw Hg. apply run_names; [| |done..].
  - intros k l Hk. simpl in Hk. by rewrite lookup_empty in Hk.
  - intros i j li lj Hi. simpl in Hi. by rewrite lookup_empty in Hi.
Qed.

Lemma list_names_stay_unique_witness :
  names_unique (lists (run renamingRun (newStore 10 0))).
Proof.
  apply (list_names_stay_unique renamingRun 10 0).
  - apply (bool_decide_unpack _). by vm_compute.
  - repeat constructor; simpl; done.
Defined.

(** ** Completing a task and taking the completion back *)

Lemma indexes_by_touch `{Countable K} (m : gmap K (gset string)) ts
    (key : Task → option K) i t t' :
  indexes_by m ts key → ts !! i = Some t → key t' = key t →
  indexes_by m (<[i := t']> ts) key.
Proof.
  intros Hm Hi Hk k j. rewrite (Hm k j).
  split; intros (t0 & Ht0 & Hk0); destruct (decide (i = j)) as [<-|Hne].
  - exists t'. rewrite lookup_insert_eq. split; [done|]. congruence.
  - exists t0. by rewrite lookup_insert_ne.
  - rewrite lookup_insert_eq in Ht0. injection Ht0 as <-. exists t. split; [done|].
    congruence.
  - rewrite lookup_insert_ne in Ht0 by done. by exists t0.
Qed.

(** A task replaced by one with the same id and the same four keys leaves
    the indexes consistent as they are. *)
Lemma consistent_touch ts ix i t t' :
  consistent ts ix → ts !! i = Some t → id t' = i →
  list_id t' = list_id t → status t' = status t → priority t' = priority t →
  deadline t' = deadline t →
  consistent (<[i := t']> ts) ix.
Proof.
  intros [Hkey Hl Hs Hp Hd] Hi Hid El Es Ep Ed. split.
  - intros j t0 Hj. destruct (decide (i = j)) as [<-|Hne].
    + rewrite lookup_insert_eq in Hj. by injection Hj as <-.
    + rewrite lookup_insert_ne in Hj by done. by apply Hkey.
  - apply (indexes_by_touch _ _ _ i t); [done..|]. unfold listKey. by rewrite El.
  - apply (indexes_by_touch _ _ _ i t); [done..|]. unfold statusKey. by rewrite Es.
  - apply (indexes_by_touch _ _ _ i t); [done..|]. unfold priorityKey. by rewrite Ep.
  - apply (indexes_by_touch _ _ _ i t); [done..|]. unfold deadlineKey. by rewrite Ed.
Qed.

Lemma reachable_calls s s' : reachable s → rtc store_call s s' → reachable s'.
Proof. intros (m & t0 & H0) Hcalls. exists m, t0. by etrans. Qed.

(** X10. completeTask and then uncompleteTask on a pending task of a
    reachable store: after the first the task is completed with
    completed_at set to the time of the call; after the second the task is
    the task it was but for updated_at, and the list records and the four
    indexes are again exactly those before the two calls. *)
Theorem completeTask_then_uncompleteTask_restores i now now' s t :
  reachable s → tasks s !! i = Some t → status t = PENDING → completed_at t = None →
  let s1 := (TaskRepository.completeTask i now s).2 in
  let s2 := (TaskRepository.uncompleteTask i now' s1).2 in
  (∃ c, tasks s1 !! i = Some c ∧ status c = COMPLETED ∧ completed_at c = Some now)
  ∧ tasks s2 = <[i := withUpdatedAt now' t]> (tasks s)
  ∧ lists s2 = lists s
  ∧ indexes s2 = indexes s.
Proof.
  intros Hr Hi Hst Hca s1 s2.
  destruct (reachable_invariants s Hr) as [Hc Hp].
  assert (id t = i) as Hid by (by apply (c_key _ _ Hc)).
  set (c := memoryStore.mergeTask t (completionPatch now) i now).
  assert (s1 = updateStats now
            (memoryStore.updateTask i (completionPatch now) now (updateStats now s)).2)
    as Hs1.
  { unfold s1. rewrite repo_completeTask_state, Hi. rewrite decide_False; [done|].
    by rewrite Hst. }
  destruct (updateTask_found i (completionPatch now) now (updateStats now s) t Hi)
    as (_ & Ht1 & _ & Hl1 & _).
  assert (tasks s1 = <[i := c]> (tasks s)) as Ht1' by (by rewrite Hs1).
  assert (lists s1 = lists s) as Hl1' by (by rewrite Hs1).
  assert (tasks s1 !! i = Some c) as Hi1 by (by rewrite Ht1', lookup_insert_eq).
  assert (status c = COMPLETED) as Hstc by done.
  assert (s2 = updateStats now'
            (memoryStore.updateTask i (TaskRepository.taskWithoutCompletedAt c) now'
               (updateStats now' s1)).2) as Hs2.
  { unfold s2. rewrite repo_uncompleteTask_state, Hi1. rewrite decide_False; [done|].
    by rewrite Hstc. }
  destruct (updateTask_found i (TaskRepository.taskWithoutCompletedAt c) now'
              (updateStats now' s1) c Hi1) as (_ & Ht2 & _ & Hl2 & _).
  assert (memoryStore.mergeTask c (TaskRepository.taskWithoutCompletedAt c) i now'
          = withUpdatedAt now' t) as Hback.
  { unfold c, withUpdatedAt. destruct t as [i0 l ti de dl p st ca cr up].
    simpl in *. subst. unfold memoryStore.mergeTask. simpl.
    by destruct de, dl. }
  assert (tasks s2 = <[i := withUpdatedAt now' t]> (tasks s)) as Ht2'.
  { rewrite Hs2. simpl. rewrite Ht2, Hback. simpl. rewrite Ht1'.
    apply insert_insert_eq. }
  assert (lists s2 = lists s) as Hl2'.
  { rewrite Hs2. simpl. rewrite Hl2. unfold recountMoved. simpl.
    rewrite decide_False; [done|]. by intros [_ ?]. }
  split_and!; [|done..|].
  - exists c. split_and!; [done..|]. unfold c, memoryStore.mergeTask. simpl.
    rewrite decide_True; [done|]. by rewrite Hst.
  - assert (reachable s2) as Hr2.
    { apply (reachable_calls s); [done|]. etrans.
      - apply (exec_calls (CompleteTask i) now s). done.
      - apply (exec_calls (UncompleteTask i) now' s1). done. }
    destruct (reachable_invariants s2 Hr2) as [Hc2 Hp2].
    unfold indexes_consistent in Hc2. rewrite Ht2' in Hc2.
    apply (consistent_unique (<[i := withUpdatedAt now' t]> (tasks s))); [done| |done..].
    by apply (consistent_touch _ _ i t).
Qed.

Lemma completeTask_then_uncompleteTask_restores_witness :
  let s1 := (TaskRepository.completeTask "t1" 8 storeWithReport).2 in
  let s2 := (TaskRepository.uncompleteTask "t1" 9 s1).2 in
  (∃ c, tasks s1 !! "t1" = Some c ∧ status c = COMPLETED ∧ completed_at c = Some 8)
  ∧ tasks s2 = <["t1" := withUpdatedAt 9 taskReport]> (tasks storeWithReport)
  ∧ lists s2 = lists storeWithReport
  ∧ indexes s2 = indexes storeWithReport.
Proof.
  apply (completeTask_then_uncompleteTask_restores "t1" 8 9 storeWithReport taskReport).
  - apply storeWithReport_reachable.
  - by vm_compute.
  - done.
  - done.
Defined.

(** ** Counts *)

Lemma length_filter_Permutation {A} (p : A → bool) (l l' : list A) :
  l ≡ₚ l' → length (List.filter p l) = length (List.filter p l').
Proof.
  induction 1 as [|x l l' _ IH|x y l|l1 l2 l3 _ IH1 _ IH2]; simpl.
  - done.
  - destruct (p x); simpl; by rewrite IH.
  - by destruct (p x), (p y).
  - by rewrite IH1.
Qed.

(** The number of values of a map that a test keeps. *)
Lemma length_filter_values {A} (p : A → bool) (m : gmap string A) :
  length (List.filter p (map_to_list m).*2)
  = size (filter (λ it : string * A, p it.2 = true) m).
Proof.
  induction m as [|i x m Hi IH] using map_ind.
  - by rewrite map_to_list_empty, map_filter_empty, map_size_empty.
  - rewrite (length_filter_Permutation p _ ((i, x) :: map_to_list m).*2).
    2:{ apply fmap_Permutation. by apply map_to_list_insert. }
    rewrite map_filter_insert. rewrite fmap_cons. cbn [List.filter snd].
    destruct (p x) eqn:Hp.
    + rewrite decide_True by done. cbn [length]. rewrite IH.
      rewrite map_size_insert_None; [done|]. apply map_lookup_filter_None. by left.
    + rewrite decide_False by (simpl; congruence). by rewrite delete_id.
Qed.

Section RepositoryCounts.

Variable localeCompare : string → string → Z.

(** X11. After any sequence of operations of the repositories run from a
    new store with generated ids unused, the total that
    TaskRepository.getTasksByListId reports for a list of the store,
    queried without filters, is the tasks_count the list record carries. *)
Theorem tasks_count_is_the_total_of_getTasksByListId ops m t0 sort limit offset now :
  well_formed_run ops (newStore m t0) →
  let s := run ops (newStore m t0) in
  ∀ k l, lists s !! k = Some l →
    total (TaskRepository.getTasksByListId localeCompare k None sort limit offset now s).1
    = tasks_count l.
Proof.
  intros Hw s k l Hk.
  destruct (run_consistent_counts ops (newStore m t0)) as [Hc Hn];
    [apply newStore_consistent|apply newStore_counts|done|].
  fold s in Hc, Hn.
  unfold TaskRepository.getTasksByListId, TaskRepository.query. simpl.
  rewrite (length_tasksOfIds_bucket _ listKey k s (c_list _ _ Hc)).
  symmetry. by apply (Hn k l).
Qed.

(** X12. getTasksCount returns the number of task records of the store
    that pass the filters (all of them without filters); getListsCount
    returns the number of list records of the store, whatever the filters
    are. *)
Theorem the_counts_of_the_repositories taskFilters listFilters now s :
  (TaskRepository.getTasksCount localeCompare taskFilters now s).1
  = size (filter (λ it : string * Task, passes taskFilters it.2) (tasks s))
  ∧ (ListRepository.getListsCount localeCompare listFilters now s).1 = size (lists s).
Proof.
  split.
  - unfold TaskRepository.getTasksCount, TaskRepository.getAllTasks,
      TaskRepository.query. simpl. destruct taskFilters as [f|]; simpl.
    + unfold TaskRepository.applyFilters. apply length_filter_values.
    + rewrite length_fmap, length_map_to_list. symmetry.
      f_equal. apply map_filter_id. done.
  - unfold ListRepository.getListsCount, ListRepository.getAllLists. simpl.
    by rewrite length_fmap, length_map_to_list.
Qed.

End RepositoryCounts.

Lemma tasks_count_is_the_total_of_getTasksByListId_witness :
  let s := run sampleRun (newStore 10 0) in
  well_formed_run sampleRun (newStore 10 0)
  ∧ ∀ k l, lists s !! k = Some l →
      total (TaskRepository.getTasksByListId (λ _ _, 0) k None None None None 9 s).1
      = tasks_count l.
Proof.
  split; [apply sampleRun_well_formed|].
  apply (tasks_count_is_the_total_of_getTasksByListId (λ _ _, 0) sampleRun 10 0
           None None None 9), sampleRun_well_formed.
Defined.

(** ** The two checks of a list name *)

(** X13. The check of the name in ListRepository.createList and
    isListNameUnique agree: createList throws that the name exists exactly
    when isListNameUnique, asked about the name of the input with no id to
    exclude, returns false. *)
Theorem createList_refuses_what_isListNameUnique_refuses input newId now s :
  (ListRepository.createList input newId now s).1
  = Err (ListNameExists (trim (cl_name input)))
  ↔ (ListRepository.isListNameUnique (cl_name input) None now s).1 = false.
Proof.
  unfold ListRepository.createList, ListRepository.isListNameUnique. simpl.
  assert (existsb (λ list, bool_decide (toLowerCase (l_name list)
                                         = toLowerCase (trim (cl_name input))) && true)
            (map_to_list (lists s)).*2
          = existsb (λ existingList,
              ListRepository.sameName (l_name existingList) (trim (cl_name input)))
              (map_to_list (lists s)).*2) as ->.
  { induction ((map_to_list (lists s)).*2) as [|l ls IH]; [done|]. simpl.
    rewrite IH. unfold ListRepository.sameName. by rewrite andb_true_r. }
  destruct (existsb _ _); simpl; [done|].
  unfold memoryStore.createList.
  destruct (memoryStore.checkCapacity (updateStats now s)) as [e|] eqn:Hcap; simpl.
  - unfold memoryStore.checkCapacity in Hcap. case_decide; [|done].
    injection Hcap as <-. split; intros; discriminate.
  - split; intros; discriminate.
Qed.

(** * Further properties of the queries *)

(** ** Sorting *)

Lemma insertSorted_Permutation {A} (compare : A → A → Z) x (l : list A) :
  insertSorted compare x l ≡ₚ x :: l.
Proof.
  induction l as [|y l IH]; simpl; [done|]. case_decide; [done|].
  rewrite IH. apply Permutation_swap.
Qed.

Lemma arraySort_Permutation {A} (compare : A → A → Z) (l : list A) :
  arraySort compare l ≡ₚ l.
Proof.
  unfold arraySort. induction l as [|x l IH]; cbn [foldr]; [done|].
  by rewrite insertSorted_Permutation, IH.
Qed.

Section Sorted.
Context {A : Type} (compare : A → A → Z).
Hypothesis compare_total : ∀ a b, inOrder compare a b ∨ inOrder compare b a.
Hypothesis compare_trans : ∀ a b c,
  inOrder compare a b → inOrder compare b c → inOrder compare a c.

Lemma insertSorted_sorted x l :
  StronglySorted (inOrder compare) l →
  StronglySorted (inOrder compare) (insertSorted compare x l).
Proof.
  induction l as [|y l IH]; intros Hl; simpl.
  - by repeat constructor.
  - apply StronglySorted_cons in Hl as [Hy Hl]. case_decide as Hxy.
    + apply StronglySorted_cons. split; [|by apply StronglySorted_cons].
      constructor; [done|]. eapply Forall_impl; [exact Hy|].
      intros z Hz. by apply (compare_trans x y z).
    + apply StronglySorted_cons. split; [|by apply IH].
      apply insertSorted_Forall; [|done].
      destruct (compare_total x y) as [H|H]; [by destruct Hxy|done].
Qed.

Lemma arraySort_sorted l : StronglySorted (inOrder compare) (arraySort compare l).
Proof.
  unfold arraySort. induction l as [|x l IH]; cbn [foldr]; [constructor|].
  by apply insertSorted_sorted.
Qed.

End Sorted.

Section SortedQueries.

Variable localeCompare : string → string → Z.

(** X14. sortTasks returns the tasks it is given, each as often as it was
    given (a permutation), whatever the field and the order; so does
    sortLists with the lists. *)
Theorem sorting_keeps_every_record tasks lists sort :
  TaskRepository.sortTasks localeCompare tasks sort ≡ₚ tasks
  ∧ ListRepository.sortLists localeCompare lists sort ≡ₚ lists.
Proof. split; apply arraySort_Permutation. Qed.

(** X15. For every sort field but title and status (which are compared by
    localeCompare), sortTasks returns the tasks in the order of its
    comparator: whenever a task stands before another in the result, the
    comparator does not put it after the other. For created_at,
    updated_at and priority that is ascending or descending order of the
    field; an unknown field sorts by created_at. *)
Theorem sortTasks_sorts tasks sort :
  field sort ≠ "title" → field sort ≠ "status" →
  StronglySorted (inOrder (TaskRepository.compareTasks localeCompare sort))
    (TaskRepository.sortTasks localeCompare tasks sort).
Proof.
  intros Htitle Hstatus. apply arraySort_sorted.
  - intros a b. unfold inOrder, TaskRepository.compareTasks.
    destruct (order sort); repeat case_decide; try done;
      try destruct (deadline a), (deadline b); lia.
  - intros a b c. unfold inOrder, TaskRepository.compareTasks.
    destruct (order sort); repeat case_decide; try done;
      try destruct (deadline a), (deadline b), (deadline c); lia.
Qed.

(** X16. For every sort field but name, sortLists returns the lists in the
    order of its comparator (created_at, updated_at or tasks_count,
    ascending or descending; an unknown field sorts by created_at). *)
Theorem sortLists_sorts lists sort :
  field sort ≠ "name" →
  StronglySorted (inOrder (ListRepository.compareLists localeCompare sort))
    (ListRepository.sortLists localeCompare lists sort).
Proof.
  intros Hname. apply arraySort_sorted.
  - intros a b. unfold inOrder, ListRepository.compareLists.
    destruct (order sort); repeat case_decide; try done; lia.
  - intros a b c. unfold inOrder, ListRepository.compareLists.
    destruct (order sort); repeat case_decide; try done; lia.
Qed.

End SortedQueries.

Lemma sortTasks_sorts_witness :
  StronglySorted
    (inOrder (TaskRepository.compareTasks (λ _ _, 0) TaskRepository.byCreatedAtDesc))
    (TaskRepository.sortTasks (λ _ _, 0) [taskReport; taskSlides]
       TaskRepository.byCreatedAtDesc).
Proof.
  apply (sortTasks_sorts (λ _ _, 0) [taskReport; taskSlides] TaskRepository.byCreatedAtDesc);
    done.
Defined.

Lemma sortLists_sorts_witness :
  StronglySorted
    (inOrder (ListRepository.compareLists (λ _ _, 0) {| field := "tasks_count"; order := asc |}))
    (ListRepository.sortLists (λ _ _, 0) [listHome; listWork]
       {| field := "tasks_count"; order := asc |}).
Proof.
  apply (sortLists_sorts (λ _ _, 0) [listHome; listWork]
           {| field := "tasks_count"; order := asc |}); done.
Defined.

(** ** Pages *)

Lemma slice_take_drop {A} (l : list A) (start final : Z) :
  0 ≤ start → start ≤ final →
  slice l start final = take (Z.to_nat (final - start)) (drop (Z.to_nat start) l).
Proof.
  intros H0 Hle. unfold slice. rewrite !decide_False by lia.
  destruct (decide (Z.of_nat (length l) ≤ start)) as [Hge|Hlt].
  - rewrite !(drop_ge l) by lia. by rewrite !take_nil.
  - replace (Z.to_nat (start `min` Z.of_nat (length l))) with (Z.to_nat start) by lia.
    destruct (decide (final ≤ Z.of_nat (length l))) as [Hin|Hout].
    + do 2 f_equal. lia.
    + rewrite !take_ge; [done|rewrite length_drop; lia..].
Qed.

(** X17. Pagination with a limit and an offset that are not negative: the
    page holds the limit elements that follow the first offset elements
    (fewer at the end of the list), and two pages that follow each other
    are together the page of both limits: no element is lost or repeated
    between pages. *)
Theorem pages_follow_each_other {A} (l : list A) (limit limit' offset : Z) :
  0 ≤ offset → 0 ≤ limit → 0 ≤ limit' →
  paginate l (Some limit) (Some offset)
  = take (Z.to_nat limit) (drop (Z.to_nat offset) l)
  ∧ paginate l (Some limit) (Some offset)
    ++ paginate l (Some limit') (Some (offset + limit))
    = paginate l (Some (limit + limit')) (Some offset).
Proof.
  intros Ho Hl Hl'. unfold paginate. rewrite !slice_take_drop by lia.
  replace (offset + limit - offset) with limit by lia.
  replace (offset + limit + limit' - (offset + limit)) with limit' by lia.
  replace (offset + (limit + limit') - offset) with (limit + limit') by lia.
  split; [done|].
  rewrite (Z2Nat.inj_add offset limit), (Z2Nat.inj_add limit limit') by lia.
  rewrite <- drop_drop. apply take_take_drop.
Qed.

Lemma pages_follow_each_other_witness :
  paginate [1; 2; 3; 4; 5] (Some 2) (Some 1) = take 2 (drop 1 [1; 2; 3; 4; 5])
  ∧ paginate [1; 2; 3; 4; 5] (Some 2) (Some 1)
    ++ paginate [1; 2; 3; 4; 5] (Some 7) (Some (1 + 2))
    = paginate [1; 2; 3; 4; 5] (Some (2 + 7)) (Some 1).
Proof. apply (pages_follow_each_other [1; 2; 3; 4; 5] 2 7 1); lia. Defined.

(** ** Filters *)

Section FilteredQueries.

Variable localeCompare : string → string → Z.

(** X18. getAllTasks with filters and no pagination returns exactly the
    stored tasks that meet every criterion given (list, status, priority,
    the deadline bounds for tasks that have a deadline, the search term in
    the title or the description, letter case ignored), and its total is
    their number; with pagination every task of the page is such a task. *)
Theorem getAllTasks_returns_the_tasks_that_meet_the_filters f sort limit offset now s :
  let all := (TaskRepository.getAllTasks localeCompare (Some f) sort None None now s).1 in
  let page := (TaskRepository.getAllTasks localeCompare (Some f) sort limit offset now s).1 in
  (∀ t, t ∈ items all ↔ stored t s ∧ meets f t)
  ∧ total all = length (items all)
  ∧ (∀ t, t ∈ items page → stored t s ∧ meets f t).
Proof.
  unfold TaskRepository.getAllTasks, TaskRepository.query. simpl.
  set (kept := TaskRepository.applyFilters (map_to_list (tasks s)).*2 f).
  set (sorted := TaskRepository.sortTasks localeCompare kept _).
  assert (sorted ≡ₚ kept) as Hperm by apply arraySort_Permutation.
  assert (∀ t, t ∈ sorted ↔ stored t s ∧ meets f t) as Hin.
  { intros t. rewrite Hperm. unfold kept, TaskRepository.applyFilters, stored.
    rewrite list_elem_of_In, filter_In, <- list_elem_of_In, list_elem_of_fmap, keeps_meets.
    split.
    - intros [([i t'] & -> & Hi) Hm]. apply elem_of_map_to_list in Hi. split; [|done].
      by exists i.
    - intros [[i Hi] Hm]. split; [|done]. exists (i, t). split; [done|].
      by apply elem_of_map_to_list. }
  split_and!; [done|by rewrite Hperm|].
  intros t Ht. apply Hin. unfold paginate in Ht.
  destruct limit as [limit|]; [|done]. destruct offset as [offset|]; [|done].
  unfold slice in Ht. by apply subseteq_take, subseteq_drop in Ht.
Qed.

End FilteredQueries.

(** ** The range of deadlines, for every pair of dates *)

Lemma range_days fromDate toDate day :
  (∃ k : nat, fromDate + Z.of_nat k * memoryStore.msPerDay ≤ toDate
     ∧ day = memoryStore.formatDateKey fromDate + Z.of_nat k)
  ↔ fromDate ≤ toDate
    ∧ memoryStore.formatDateKey fromDate ≤ day
      ≤ memoryStore.formatDateKey fromDate
        + (toDate - fromDate) `div` memoryStore.msPerDay.
Proof.
  unfold memoryStore.formatDateKey, memoryStore.msPerDay in *.
  split.
  - intros (k & Hto & ->). Z.to_euclidean_division_equations. lia.
  - intros [Hle [H1 H2]]. exists (Z.to_nat (day - fromDate `div` 86400000)).
    Z.to_euclidean_division_equations. lia.
Qed.

Lemma NoDup_dayTasks day s : indexes_consistent s → NoDup (dayTasks day s).
Proof. intros Hc. apply NoDup_tasks_of_bucket, (c_key _ _ Hc). Qed.

Section AnyTimeZone.

Variable LocalTZA : Z → bool → Z.

Lemma NoDup_collected_whole_days n currentDate toDate s :
  indexes_consistent s →
  (∀ u, currentDate ≤ u ≤ toDate →
        memoryStore.nextLocalDay LocalTZA u = u + memoryStore.msPerDay) →
  NoDup (collected LocalTZA n currentDate toDate s).
Proof.
  intros Hc. revert currentDate. induction n as [|n IH]; intros currentDate H24.
  { constructor. }
  rewrite collected_fold. case_decide as Hle; [|constructor].
  assert (0 < memoryStore.msPerDay) as HD by done.
  assert (∀ u, currentDate + memoryStore.msPerDay ≤ u ≤ toDate →
               memoryStore.nextLocalDay LocalTZA u = u + memoryStore.msPerDay) as H24'.
  { intros u Hu. apply H24. lia. }
  rewrite H24 by lia.
  apply NoDup_app. split_and!; [by apply NoDup_dayTasks| |by apply IH].
  intros t Hday Hloop. apply (elem_of_dayTasks _ _ _ Hc) in Hday as (_ & d & Hd & Hkey).
  apply elem_of_collected_whole_days in Hloop as (k & _ & _ & Hin); [|done].
  apply (elem_of_dayTasks _ _ _ Hc) in Hin as (_ & d' & Hd' & Hkey').
  rewrite formatDateKey_next_day in Hkey'. assert (d' = d) as -> by congruence. lia.
Qed.


(** The dates the loop goes through while every round moves the date
    forward. *)
Lemma localDaysLater_forward k currentDate toDate :
  (∀ u, currentDate ≤ u ≤ toDate → u < memoryStore.nextLocalDay LocalTZA u) →
  (∀ j, (j ≤ k)%nat → localDaysLater LocalTZA j currentDate ≤ toDate) →
  currentDate + Z.of_nat k ≤ localDaysLater LocalTZA k currentDate.
Proof.
  revert currentDate. induction k as [|k IH]; intros currentDate Hfwd Hin; [simpl; lia|].
  pose proof (Hin 0%nat ltac:(lia)) as H0. simpl in H0.
  pose proof (Hfwd currentDate ltac:(lia)) as Hnext.
  cbn [localDaysLater].
  assert (memoryStore.nextLocalDay LocalTZA currentDate + Z.of_nat k
          ≤ localDaysLater LocalTZA k (memoryStore.nextLocalDay LocalTZA currentDate)).
  { apply IH.
    - intros u Hu. apply Hfwd. lia.
    - intros j Hj. apply (Hin (S j)). lia. }
  lia.
Qed.

Lemma elem_of_collected n currentDate toDate s t :
  t ∈ collected LocalTZA n currentDate toDate s
  ↔ ∃ k : nat, (k < n)%nat
      ∧ (∀ j, (j ≤ k)%nat → localDaysLater LocalTZA j currentDate ≤ toDate)
      ∧ t ∈ dayTasks (memoryStore.formatDateKey (localDaysLater LocalTZA k currentDate)) s.
Proof.
  revert currentDate. induction n as [|n IH]; intros currentDate.
  { simpl. split; [by intros ?%elem_of_nil|]. intros (k & ? & _). lia. }
  rewrite collected_fold. case_decide as Hle.
  - rewrite elem_of_app, IH. split.
    + intros [Hin|(k & Hk & Hto & Hin)].
      * exists 0%nat. split; [lia|]. split; [|done]. intros j Hj.
        by assert (j = 0%nat) as -> by lia.
      * exists (S k). split; [lia|]. split; [|done]. intros [|j] Hj; [done|].
        apply Hto. lia.
    + intros ([|k] & Hk & Hto & Hin).
      * by left.
      * right. exists k. split; [lia|]. split; [|done]. intros j Hj.
        apply (Hto (S j)). lia.
  - split; [by intros ?%elem_of_nil|]. intros (k & _ & Hto & _).
    specialize (Hto 0%nat ltac:(lia)). simpl in Hto. lia.
Qed.

(** X30. getTasksByDeadlineRange in any time zone in which a local day
    later is a later date (for the dates from fromDate to toDate), on a
    store with consistent indexes: the loop ends; it returns the stored
    tasks whose deadline falls on the UTC day of one of the dates
    fromDate, one local day later, two local days later, ... up to toDate;
    every one of them is due on a UTC day from the day of fromDate to the
    day of toDate, and the tasks due on the UTC day of fromDate are among
    them when fromDate <= toDate. *)
Theorem deadline_range_in_any_time_zone s fromDate toDate now :
  indexes_consistent s →
  (∀ u, fromDate ≤ u ≤ toDate → u < memoryStore.nextLocalDay LocalTZA u) →
  let r := (memoryStore.getTasksByDeadlineRange LocalTZA fromDate toDate now s).1 in
  memoryStore.deadlineRangeLoop LocalTZA fromDate toDate s = inr r
  ∧ (∀ t, t ∈ r
       ↔ stored t s
         ∧ ∃ d (k : nat), deadline t = Some d
             ∧ (∀ j, (j ≤ k)%nat → localDaysLater LocalTZA j fromDate ≤ toDate)
             ∧ memoryStore.formatDateKey d
               = memoryStore.formatDateKey (localDaysLater LocalTZA k fromDate))
  ∧ (∀ t, t ∈ r →
       ∃ d, deadline t = Some d
         ∧ memoryStore.formatDateKey fromDate ≤ memoryStore.formatDateKey d
           ≤ memoryStore.formatDateKey toDate)
  ∧ (fromDate ≤ toDate →
     ∀ t d, stored t s → deadline t = Some d →
       memoryStore.formatDateKey d = memoryStore.formatDateKey fromDate → t ∈ r).
Proof.
  intros Hc Hfwd r.
  assert (∀ t, t ∈ r
       ↔ stored t s
         ∧ ∃ d (k : nat), deadline t = Some d
             ∧ (∀ j, (j ≤ k)%nat → localDaysLater LocalTZA j fromDate ≤ toDate)
             ∧ memoryStore.formatDateKey d
               = memoryStore.formatDateKey (localDaysLater LocalTZA k fromDate)) as Hin.
  { intros t. subst r. rewrite getTasksByDeadlineRange_collected, elem_of_collected.
    pose proof (deadlineRangeFuel_rounds fromDate toDate) as Hfuel. split.
    - intros (k & _ & Hto & Hday).
      apply (elem_of_dayTasks _ _ _ Hc) in Hday as (Hst & d & Hd & Hkey).
      split; [done|]. by exists d, k.
    - intros (Hst & d & k & Hd & Hto & Hkey). exists k. split_and!; [|done|].
      + pose proof (localDaysLater_forward k fromDate toDate Hfwd Hto).
        pose proof (Hto k ltac:(lia)). lia.
      + apply (elem_of_dayTasks _ _ _ Hc). split; [done|]. by exists d. }
  split_and!; [|done| |].
  - destruct (deadlineRangeLoop_ends LocalTZA fromDate toDate s Hfwd) as [tasks Hends].
    subst r. unfold memoryStore.getTasksByDeadlineRange. by rewrite Hends.
  - intros t (_ & d & k & Hd & Hto & Hkey)%Hin. exists d. split; [done|].
    pose proof (localDaysLater_forward k fromDate toDate Hfwd Hto).
    pose proof (Hto k ltac:(lia)). rewrite Hkey.
    apply day_range_contains. lia.
  - intros Hle t d Hst Hd Hkey. apply Hin. split; [done|]. exists d, 0%nat.
    split_and!; [done| |done]. intros j Hj. by assert (j = 0%nat) as -> by lia.
Qed.

End AnyTimeZone.


Lemma newYork_moves_forward u : u < memoryStore.nextLocalDay newYork u.
Proof.
  unfold memoryStore.nextLocalDay, memoryStore.UTC, memoryStore.LocalTime, newYork,
    nov1_2026, hour, memoryStore.msPerDay.
  repeat case_decide; lia.
Qed.

Lemma storeInNovember_consistent : indexes_consistent storeInNovember.
Proof.
  apply createTask_consistent; [|done].
  apply createList_consistent, newStore_consistent.
Qed.

Lemma deadline_range_in_any_time_zone_witness :
  let fromDate := nov1_2026 + 3 * hour in
  let toDate := nov1_2026 + 27 * hour + hour / 2 in
  let r := (memoryStore.getTasksByDeadlineRange newYork fromDate toDate 4
              storeInNovember).1 in
  memoryStore.deadlineRangeLoop newYork fromDate toDate storeInNovember = inr r
  ∧ (∀ t, t ∈ r
       ↔ stored t storeInNovember
         ∧ ∃ d (k : nat), deadline t = Some d
             ∧ (∀ j, (j ≤ k)%nat → localDaysLater newYork j fromDate ≤ toDate)
             ∧ memoryStore.formatDateKey d
               = memoryStore.formatDateKey (localDaysLater newYork k fromDate))
  ∧ (∀ t, t ∈ r →
       ∃ d, deadline t = Some d
         ∧ memoryStore.formatDateKey fromDate ≤ memoryStore.formatDateKey d
           ≤ memoryStore.formatDateKey toDate)
  ∧ (fromDate ≤ toDate →
     ∀ t d, stored t storeInNovember → deadline t = Some d →
       memoryStore.formatDateKey d = memoryStore.formatDateKey fromDate → t ∈ r).
Proof.
  apply (deadline_range_in_any_time_zone newYork storeInNovember
           (nov1_2026 + 3 * hour) (nov1_2026 + 27 * hour + hour / 2) 4).
  - apply storeInNovember_consistent.
  - intros u _. apply newYork_moves_forward.
Defined.

(** * Further properties of the identifiers and the task service *)

(** ** isValidUuid *)

Lemma matchesPattern_get pattern x :
  matchesPattern pattern x = true →
  String.length x = length pattern
  ∧ ∀ n test c, pattern !! n = Some test → String.get n x = Some c → test c = true.
Proof.
  revert x. induction pattern as [|test0 pattern IH]; intros x Hm.
  - destruct x; [|done]. split; [done|]. by intros n test c Hn.
  - destruct x as [|c0 x]; [done|]. simpl in Hm.
    apply andb_true_iff in Hm as [H0 Hm]. destruct (IH x Hm) as [Hlen Hall].
    split; [simpl; by rewrite Hlen|]. intros [|n] test c Hn Hc; simpl in *.
    + congruence.
    + by apply (Hall n test c).
Qed.

Lemma get_is_Some n x : is_Some (String.get n x) ↔ (n < String.length x)%nat.
Proof.
  revert n. induction x as [|c x IH]; intros n; simpl.
  - split; [by intros [? ?]|lia].
  - destruct n as [|n]; [split; [lia|by eexists]|]. rewrite IH. lia.
Qed.

Lemma asciiToLower_test (test : Ascii.ascii → bool) :
  test = isHexDigit ∨ test = isChar "-"%char ∨ test = isChar "4"%char
  ∨ test = isVariantDigit →
  ∀ c, test (asciiToLower c) = test c.
Proof.
  intros Htest c. destruct Htest as [->|[->|[->| ->]]];
    by destruct c as [[] [] [] [] [] [] [] []].
Qed.

Lemma matchesPattern_toLowerCase pattern x :
  Forall (λ test : Ascii.ascii → bool, ∀ c, test (asciiToLower c) = test c) pattern →
  matchesPattern pattern (toLowerCase x) = matchesPattern pattern x.
Proof.
  intros Hp. revert x. induction Hp as [|test pattern Htest _ IH]; intros x.
  - by destruct x.
  - destruct x as [|c x]; [done|]. simpl. by rewrite Htest, IH.
Qed.

Lemma uuidPattern_ignores_case :
  Forall (λ test : Ascii.ascii → bool, ∀ c, test (asciiToLower c) = test c) uuidPattern.
Proof.
  unfold uuidPattern. cbn [replicate app].
  repeat (constructor; [apply asciiToLower_test; tauto|]). constructor.
Qed.

Lemma isVariantDigit_isHexDigit c : isVariantDigit c = true → isHexDigit c = true.
Proof.
  unfold isVariantDigit, isHexDigit. intros H. apply bool_decide_eq_true in H.
  apply bool_decide_eq_true. lia.
Qed.

(** X20. What isValidUuid accepts: a text of 36 characters with a dash at
    the positions 8, 13, 18 and 23, the digit 4 at position 14, one of
    8, 9, a, b (in either case) at position 19, and hexadecimal digits
    everywhere else; and it accepts a text exactly when it accepts the text
    in lower case. *)
Theorem isValidUuid_shape x :
  isValidUuid x = true →
  String.length x = 36%nat
  ∧ (∀ n, n ∈ [8; 13; 18; 23]%nat → String.get n x = Some "-"%char)
  ∧ String.get 14 x = Some "4"%char
  ∧ (∃ c, String.get 19 x = Some c ∧ isVariantDigit c = true)
  ∧ (∀ n c, String.get n x = Some c → n ∉ [8; 13; 18; 23]%nat → isHexDigit c = true)
  ∧ isValidUuid (toLowerCase x) = true.
Proof.
  intros Hv. destruct (matchesPattern_get uuidPattern x Hv) as [Hlen Hall].
  change (length uuidPattern) with 36%nat in Hlen.
  assert (∀ n, (n < 36)%nat → ∃ c, String.get n x = Some c) as Hget.
  { intros n Hn. apply get_is_Some. lia. }
  split_and!.
  - done.
  - intros n Hn. destruct (Hget n) as [c Hc].
    { repeat (apply elem_of_cons in Hn as [->|Hn]; [lia|]). by apply elem_of_nil in Hn. }
    rewrite Hc. f_equal.
    repeat (apply elem_of_cons in Hn as [->|Hn];
            [pose proof (λ H, Hall _ (isChar "-"%char) c H Hc) as Ht;
             specialize (Ht eq_refl); by apply bool_decide_eq_true in Ht|]).
    by apply elem_of_nil in Hn.
  - destruct (Hget 14%nat) as [c Hc]; [lia|]. rewrite Hc. f_equal.
    pose proof (Hall 14%nat (isChar "4"%char) c eq_refl Hc) as Ht.
    by apply bool_decide_eq_true in Ht.
  - destruct (Hget 19%nat) as [c Hc]; [lia|]. exists c. split; [done|].
    by apply (Hall 19%nat _ c eq_refl Hc).
  - intros n c Hc Hn.
    assert (n < 36)%nat as Hlt by (rewrite <- Hlen; apply get_is_Some; by exists c).
    destruct (uuidPattern !! n) as [test|] eqn:Hp.
    2:{ apply lookup_ge_None in Hp. change (length uuidPattern) with 36%nat in Hp. lia. }
    pose proof (Hall n test c Hp Hc) as Htest.
    do 36 (destruct n as [|n];
           [injection Hp as <-;
            first [ exact Htest
                  | by apply isVariantDigit_isHexDigit
                  | by (apply bool_decide_eq_true in Htest; subst c)
                  | exfalso; apply Hn; set_solver ]|]).
    lia.
  - unfold isValidUuid. rewrite matchesPattern_toLowerCase; [done|].
    apply uuidPattern_ignores_case.
Qed.

Lemma isValidUuid_shape_witness :
  let x := "123e4567-e89b-42d3-a456-426614174000" in
  String.length x = 36%nat
  ∧ (∀ n, n ∈ [8; 13; 18; 23]%nat → String.get n x = Some "-"%char)
  ∧ String.get 14 x = Some "4"%char
  ∧ (∃ c, String.get 19 x = Some c ∧ isVariantDigit c = true)
  ∧ (∀ n c, String.get n x = Some c → n ∉ [8; 13; 18; 23]%nat → isHexDigit c = true)
  ∧ isValidUuid (toLowerCase x) = true.
Proof.
  apply (isValidUuid_shape "123e4567-e89b-42d3-a456-426614174000"). by vm_compute.
Defined.

(** ** completeTask of the service *)

Lemma repo_completeTask_pending i now s t :
  tasks s !! i = Some t → status t ≠ COMPLETED →
  let t' := memoryStore.mergeTask t (completionPatch now) i now in
  (TaskRepository.completeTask i now s).1 = Ok (Some t')
  ∧ tasks (TaskRepository.completeTask i now s).2 = <[i := t']> (tasks s).
Proof.
  intros Hi Hst t'. unfold TaskRepository.completeTask. simpl. rewrite Hi.
  rewrite decide_False by done. fold (completionPatch now).
  destruct (updateTask_found i (completionPatch now) now (updateStats now s) t Hi)
    as (H1 & H2 & _).
  destruct (memoryStore.updateTask i (completionPatch now) now (updateStats now s))
    as [success s1]. simpl in *. subst success. simpl. rewrite H2.
  by rewrite lookup_insert_eq.
Qed.

(** X21. The outcomes of TaskService.completeTask. It returns a task
    exactly for a valid id under which the store holds a task: the task
    returned is completed and is the one stored under the id afterwards.
    It throws for an id that is not a version 4 UUID (the store is then
    untouched, statistics included) and for an id with no task, and then no
    record has changed; it never throws that it failed to complete. *)
Theorem TaskService_completeTask_outcome i now s :
  let r := TaskService.completeTask i now s in
  match r.1 with
  | Ok t' =>
      isValidUuid i = true ∧ is_Some (tasks s !! i)
      ∧ status t' = COMPLETED ∧ tasks r.2 !! i = Some t'
  | Err e =>
      ((isValidUuid i = false ∧ e = InvalidTaskId i ∧ r.2 = s)
       ∨ (isValidUuid i = true ∧ tasks s !! i = None ∧ e = TaskNotFound i))
      ∧ lists r.2 = lists s ∧ tasks r.2 = tasks s ∧ indexes r.2 = indexes s
  end.
Proof.
  unfold TaskService.completeTask. destruct (isValidUuid i) eqn:Hv; simpl.
  2:{ split; [by left|done]. }
  destruct (tasks s !! i) as [t|] eqn:Hi; simpl.
  2:{ split; [by right|done]. }
  case_decide as Hst; simpl.
  { split_and!; [done|by eexists|done..]. }
  destruct (repo_completeTask_pending i now (updateStats now s) t Hi Hst) as [H1 H2].
  destruct (TaskRepository.completeTask i now (updateStats now s)) as [r s1].
  simpl in *. subst r. simpl. split_and!; [done|by eexists|done|].
  by rewrite H2, lookup_insert_eq.
Qed.

(** * Further properties of the list service *)

(** ** Moving the tasks of a list *)

Lemma mergeTask_toList target now t :
  memoryStore.mergeTask t (TaskRepository.updateData (ListService.toList target)) (id t) now
  = movedTo target now t.
Proof. done. Qed.

Lemma repo_updateTask_lists_dom i input now s k :
  is_Some (lists (TaskRepository.updateTask i input now s).2 !! k) ↔ is_Some (lists s !! k).
Proof.
  rewrite repo_updateTask_state. destruct (tasks s !! i) as [t|]; [|done].
  assert (lists (readsBeforeUpdate t input now s) = lists s) as Hl.
  { unfold readsBeforeUpdate. destruct (ui_list_id input); [|done]. by case_decide. }
  destruct (movesToMissingList t input s); [by rewrite Hl|]. simpl.
  by rewrite updateTask_lists_dom, Hl.
Qed.

Lemma repo_updateTask_moves i target now s t :
  tasks s !! i = Some t → truthy target → target ≠ list_id t →
  is_Some (lists s !! target) →
  isErr (TaskRepository.updateTask i (ListService.toList target) now s).1 = false
  ∧ tasks (TaskRepository.updateTask i (ListService.toList target) now s).2
    = <[i := memoryStore.mergeTask t
               (TaskRepository.updateData (ListService.toList target)) i now]> (tasks s).
Proof.
  intros Hi Htr Hne [l Hl]. split.
  - unfold TaskRepository.updateTask. simpl. rewrite Hi. simpl.
    rewrite decide_True by done. rewrite Hl.
    by destruct (memoryStore.updateTask i _ now _) as [[] ?].
  - rewrite repo_updateTask_state, Hi.
    assert (movesToMissingList t (ListService.toList target) s = false) as ->.
    { unfold movesToMissingList. simpl. rewrite Hl.
      rewrite (bool_decide_eq_false_2 (Some l = None)) by done. apply andb_false_r. }
    simpl.
    assert (tasks (readsBeforeUpdate t (ListService.toList target) now s) !! i = Some t)
      as Hi'.
    { unfold readsBeforeUpdate. simpl. by case_decide. }
    destruct (updateTask_found i (TaskRepository.updateData (ListService.toList target)) now
                (readsBeforeUpdate t (ListService.toList target) now s) t Hi')
      as (_ & -> & _).
    f_equal. unfold readsBeforeUpdate. simpl. by case_decide.
Qed.

Lemma moves_well_formed L target now s :
  truthy target → well_formed_run (moves L target now) s.
Proof.
  intros Htr. revert s. induction L as [|t L IH]; intros s; [done|].
  split; [|apply IH]. simpl. intros [= ->]. by destruct Htr.
Qed.

Lemma moves_cascading L target now s : cascading_run (moves L target now) s.
Proof. revert s. induction L as [|t L IH]; intros s; [done|]. split; [done|apply IH]. Qed.

(** The loop of [moveAllTasksToList] over tasks of the store that are in
    other lists than [target], each once: no call fails, and the tasks of
    the loop are moved. *)
Lemma moveEach_spec L target now s :
  truthy target → is_Some (lists s !! target) → NoDup (id <$> L) →
  (∀ t, t ∈ L → tasks s !! id t = Some t ∧ list_id t ≠ target) →
  let r := ListService.moveEach L target now s in
  r.1 = None
  ∧ r.2 = run (moves L target now) s
  ∧ (∀ k, is_Some (lists r.2 !! k) ↔ is_Some (lists s !! k))
  ∧ ∀ j, tasks r.2 !! j
         = if decide (j ∈ id <$> L) then movedTo target now <$> tasks s !! j
           else tasks s !! j.
Proof.
  intros Htr. revert s. induction L as [|t L IH]; intros s Hl Hnd HL r; unfold r; clear r.
  { split_and!; [done..|]. intros j. rewrite decide_False; [done|]. apply not_elem_of_nil. }
  rewrite fmap_cons in Hnd. apply list.NoDup_cons in Hnd as [Hnew Hnd].
  destruct (HL t) as [Ht Hne]; [by left|].
  destruct (repo_updateTask_moves (id t) target now s t Ht Htr) as [Herr Htasks];
    [done..|].
  pose proof (repo_updateTask_lists_dom (id t) (ListService.toList target) now s) as Hdom.
  assert (run (moves (t :: L) target now) s
          = run (moves L target now)
              (TaskRepository.updateTask (id t) (ListService.toList target) now s).2)
    as -> by done.
  cbn [ListService.moveEach].
  destruct (TaskRepository.updateTask (id t) (ListService.toList target) now s)
    as [res s1]. cbn [fst snd] in Herr, Htasks, Hdom |- *.
  destruct res as [res|e]; [|done].
  destruct (IH s1) as (H1 & H2 & H3 & H4).
  - by apply Hdom.
  - done.
  - intros t' Ht'. destruct (HL t') as [Hs Hn]; [by right|]. split; [|done].
    rewrite Htasks, lookup_insert_ne; [done|]. intros Heq. apply Hnew.
    rewrite Heq. apply list_elem_of_fmap. by exists t'.
  - split_and!; [done|done| |].
    + intros k. by rewrite H3, Hdom.
    + intros j. rewrite H4, Htasks, fmap_cons. destruct (decide (j = id t)) as [->|Hj].
      * rewrite (decide_False _ _ Hnew). rewrite decide_True by (by left).
        rewrite lookup_insert_eq, Ht. done.
      * rewrite lookup_insert_ne by done.
        destruct (decide (j ∈ id <$> L)) as [Hin|Hout].
        -- by rewrite decide_True by (by right).
        -- rewrite decide_False; [done|]. intros [?|?]%elem_of_cons; done.
Qed.

Lemma run_consistent ops s :
  indexes_consistent s → well_formed_run ops s → indexes_consistent (run ops s).
Proof.
  revert s. induction ops as [|[op now] ops IH]; intros s Hc Hw; [done|].
  destruct Hw as [Hop Hw]. simpl. apply IH; [by apply exec_consistent|done].
Qed.

Lemma repo_deleteList_found i c now s :
  is_Some (lists s !! i) → (ListRepository.deleteList i c now s).1 = Ok true.
Proof.
  intros [l Hl]. unfold ListRepository.deleteList. simpl. rewrite Hl.
  rewrite deleteList_unfold. simpl. by rewrite Hl.
Qed.

Lemma deleteList_lists_gone i c now s :
  is_Some (lists s !! i) → lists (memoryStore.deleteList i c now s).2 !! i = None.
Proof.
  intros [l Hl]. rewrite deleteList_unfold, Hl. simpl. apply lookup_delete_eq.
Qed.

Lemma deleteList_unreferenced_tasks i c now s :
  indexes_consistent s → is_Some (lists s !! i) →
  (∀ j t, tasks s !! j = Some t → list_id t ≠ i) →
  tasks (memoryStore.deleteList i c now s).2 = tasks s.
Proof.
  intros Hc Hl Hno. destruct c.
  - destruct (deleteList_cascade_records i now s Hc Hl) as (_ & _ & ->).
    apply map_filter_id. intros j t Ht. simpl. by apply (Hno j).
  - destruct Hl as [l Hl]. by rewrite deleteList_unfold, Hl.
Qed.

Section MoveAndDelete.

Variable localeCompare : string → string → Z.

(** The tasks that [moveAllTasksToList] reads: the tasks of the list, each
    once. *)
Lemma items_of_list i now s :
  indexes_consistent s →
  let L := items (TaskRepository.getTasksByListId localeCompare i
                    None None None None now s).1 in
  NoDup (id <$> L) ∧ ∀ t, t ∈ L ↔ stored t s ∧ list_id t = i.
Proof.
  intros Hc. unfold TaskRepository.getTasksByListId, TaskRepository.query. simpl.
  set (found := match tasksByListId (indexes s) !! i with
                | Some taskIds => memoryStore.tasksOfIds taskIds s
                | None => []
                end).
  set (L := TaskRepository.sortTasks localeCompare found TaskRepository.byCreatedAtDesc).
  assert (L ≡ₚ found) as Hperm by apply arraySort_Permutation.
  assert (∀ t, t ∈ L ↔ stored t s ∧ list_id t = i) as Hin.
  { intros t. rewrite Hperm. unfold found.
    rewrite (elem_of_tasksOfIds_bucket _ listKey i s t (c_list _ _ Hc)). unfold listKey.
    split; intros [? ?]; split; congruence. }
  split; [|done]. apply NoDup_fmap_2_strong.
  - intros t t' Ht Ht' Hid. apply Hin in Ht as [[j Hj] _], Ht' as [[j' Hj'] _].
    pose proof (c_key _ _ Hc j t Hj). pose proof (c_key _ _ Hc j' t' Hj'). congruence.
  - rewrite Hperm. apply NoDup_tasks_of_bucket, (c_key _ _ Hc).
Qed.

(** X22. ListService.deleteList with moveTasksToListId: for two different
    valid ids of lists of a store with consistent indexes it returns, the
    list is gone, no task is deleted: every task of the deleted list is
    now a task of the target list (list_id and updated_at changed, nothing
    else) and every other task is as it was, whatever deleteAssociatedTasks
    is. The indexes are consistent again, the task counts of the lists are
    right if they were, and every task refers to a list of the store if
    that was so before. *)
Theorem ListService_deleteList_moves_the_tasks i target c now s :
  indexes_consistent s →
  isValidUuid i = true → isValidUuid target = true → target ≠ i →
  is_Some (lists s !! i) → is_Some (lists s !! target) →
  let r := ListService.deleteList localeCompare i c (Some target) now s in
  r.1 = Returned ()
  ∧ lists r.2 !! i = None
  ∧ tasks r.2
    = (λ t, if decide (list_id t = i) then movedTo target now t else t) <$> tasks s
  ∧ indexes_consistent r.2
  ∧ (counts_ok s → counts_ok r.2)
  ∧ (refs_ok s → refs_ok r.2).
Proof.
  intros Hc Hvi Hvt Hne [li Hli] [lt Hlt] r.
  assert (truthy target) as Htr by (intros ->; by vm_compute in Hvt).
  set (s2 := updateStats now (updateStats now s)).
  set (s3 := updateStats now s2).
  set (L := items (TaskRepository.getTasksByListId localeCompare i
                     None None None None now s2).1).
  destruct (items_of_list i now s2 Hc) as [Hnd HL]. fold L in Hnd, HL.
  destruct (moveEach_spec L target now s3 Htr) as (Hm1 & Hm2 & Hm3 & Hm4).
  { by exists lt. }
  { done. }
  { intros t Ht. apply HL in Ht as [[j Hj] Hlist]. split; [|congruence].
    simpl. by rewrite (c_key _ _ Hc j t Hj). }
  destruct (ListService.moveEach L target now s3) as [e s4] eqn:Hmove.
  cbn [fst snd] in Hm1, Hm2, Hm3, Hm4. subst e.
  assert (well_formed_run (moves L target now) s3) as Hw by (by apply moves_well_formed).
  assert (indexes_consistent s4) as Hc4.
  { rewrite Hm2. by apply run_consistent. }
  assert (tasks s4
          = (λ t, if decide (list_id t = i) then movedTo target now t else t) <$> tasks s)
    as Ht4.
  { apply map_eq. intros j. rewrite Hm4, lookup_fmap. simpl.
    destruct (tasks s !! j) as [t|] eqn:Hj; simpl.
    - destruct (decide (list_id t = i)) as [Hin|Hout].
      + rewrite decide_True; [done|]. apply list_elem_of_fmap. exists t.
        split; [by rewrite (c_key _ _ Hc j t Hj)|]. apply HL. split; [by exists j|done].
      + rewrite decide_False; [done|]. intros Hin.
        apply list_elem_of_fmap in Hin as (t' & Hid & Ht').
        apply HL in Ht' as [[j' Hj'] Hlist]. simpl in Hj'.
        rewrite <- (c_key _ _ Hc j' t' Hj') in Hj'. rewrite <- Hid in Hj'. congruence.
    - by case_decide. }
  assert (∀ j t, tasks s4 !! j = Some t → list_id t ≠ i) as Hno.
  { intros j t. rewrite Ht4, lookup_fmap. destruct (tasks s !! j) as [t0|]; [|done].
    simpl. intros [= <-]. case_decide; simpl; [congruence|done]. }
  assert (is_Some (lists s4 !! i)) as Hi4 by (apply Hm3; by exists li).
  set (s5 := updateStats now (updateStats now s4)).
  set (c' := default true c).
  assert (r = (Returned (), (memoryStore.deleteList i c' now s5).2)) as ->.
  { unfold r, ListService.deleteList, ListService.moveAllTasksToList.
    rewrite Hvi. simpl. rewrite Hli. rewrite decide_True by done. rewrite Hvt. simpl.
    rewrite Hlt.
    change (ListService.moveEach _ _ _ _) with (ListService.moveEach L target now s3).
    rewrite Hmove. fold c'.
    pose proof (repo_deleteList_found i c' now s4) as Hfound.
    pose proof (repo_deleteList_state i c' now s4) as Hstate.
    destruct Hi4 as [l4 Hl4]. rewrite Hl4 in Hstate.
    destruct (ListRepository.deleteList i c' now s4) as [res s6].
    simpl in Hfound, Hstate. rewrite Hfound by (by exists l4). by rewrite Hstate. }
  simpl. split_and!.
  - done.
  - by apply deleteList_lists_gone.
  - rewrite <- Ht4. by apply (deleteList_unreferenced_tasks i c' now s5).
  - by apply deleteList_consistent.
  - intros Hn. apply deleteList_counts. change (counts_ok s4). rewrite Hm2.
    by apply (run_consistent_counts (moves L target now) s3).
  - intros Hrefs. apply deleteList_unreferenced_refs; [done| |].
    + change (refs_ok s4). rewrite Hm2.
      apply (run_refs (moves L target now) s3); [done..|apply moves_cascading].
    + unfold tasksReferencing. apply map_size_empty_iff, map_empty. intros j.
      apply map_lookup_filter_None. right. intros t Ht. by apply (Hno j t).
Qed.

End MoveAndDelete.

Lemma ListService_deleteList_moves_the_tasks_witness :
  let r := ListService.deleteList (λ _ _, 0) uuidWork None (Some uuidHome) 9
             storeWithUuids in
  r.1 = Returned ()
  ∧ lists r.2 !! uuidWork = None
  ∧ tasks r.2
    = (λ t, if decide (list_id t = uuidWork) then movedTo uuidHome 9 t else t)
      <$> tasks storeWithUuids
  ∧ indexes_consistent r.2
  ∧ (counts_ok storeWithUuids → counts_ok r.2)
  ∧ (refs_ok storeWithUuids → refs_ok r.2).
Proof.
  apply (ListService_deleteList_moves_the_tasks (λ _ _, 0) uuidWork uuidHome None 9
           storeWithUuids).
  - apply run_consistent; [apply newStore_consistent|].
    apply (bool_decide_unpack _). by vm_compute.
  - by vm_compute.
  - by vm_compute.
  - done.
  - eexists. vm_compute. reflexivity.
  - eexists. vm_compute. reflexivity.
Defined.

(** ** Errors the services never raise *)

Lemma moveEach_lists_dom L target now s k :
  is_Some (lists (ListService.moveEach L target now s).2 !! k) ↔ is_Some (lists s !! k).
Proof.
  revert s. induction L as [|t L IH]; intros s; [done|]. cbn [ListService.moveEach].
  pose proof (repo_updateTask_lists_dom (id t) (ListService.toList target) now s k) as Hdom.
  destruct (TaskRepository.updateTask (id t) (ListService.toList target) now s)
    as [[res|e] s1]; cbn [snd] in Hdom |- *; [|done].
  by rewrite IH.
Qed.

Lemma repo_deleteTask_found i now s :
  is_Some (tasks s !! i) → (TaskRepository.deleteTask i now s).1 = Ok true.
Proof.
  intros [t Ht]. unfold TaskRepository.deleteTask. simpl. rewrite Ht.
  destruct (deleteTask_found i now (updateStats now s) t Ht) as [H1 _].
  destruct (memoryStore.deleteTask i now (updateStats now s)) as [success s1].
  simpl in H1. by subst success.
Qed.

Lemma repo_uncompleteTask_found i now s :
  is_Some (tasks s !! i) → ∃ t, (TaskRepository.uncompleteTask i now s).1 = Ok (Some t).
Proof.
  intros [t Ht]. unfold TaskRepository.uncompleteTask. simpl. rewrite Ht.
  case_decide; [by exists t|].
  destruct (updateTask_found i (TaskRepository.taskWithoutCompletedAt t) now
              (updateStats now s) t Ht) as (H1 & H2 & _).
  destruct (memoryStore.updateTask i (TaskRepository.taskWithoutCompletedAt t) now
              (updateStats now s)) as [success s1]. simpl in H1, H2. subst success.
  simpl. rewrite H2, lookup_insert_eq. by eexists.
Qed.

Section InternalErrors.

Variable localeCompare : string → string → Z.

(** X23. The services never raise INTERNAL_ERROR on these paths: once
    TaskService.deleteTask and uncompleteTask have found the task, and
    ListService.deleteList has found the list (and moved its tasks, if it
    was asked to), the repository does not report a failure, so the
    branches that throw "Failed to delete" and "Failed to uncomplete" are
    never taken. *)
Theorem services_never_fail_internally i c target now s about :
  (TaskService.deleteTask i now s).1 ≠ Raised (Thrown INTERNAL_ERROR about)
  ∧ (TaskService.uncompleteTask i now s).1 ≠ Raised (Thrown INTERNAL_ERROR about)
  ∧ (ListService.deleteList localeCompare i c target now s).1
    ≠ Raised (Thrown INTERNAL_ERROR about).
Proof.
  split_and!.
  - unfold TaskService.deleteTask. destruct (isValidUuid i); [|done]. simpl.
    destruct (tasks s !! i) as [t|] eqn:Ht; [|done].
    pose proof (repo_deleteTask_found i now (updateStats now s)) as Hfound.
    destruct (TaskRepository.deleteTask i now (updateStats now s)) as [res s1].
    simpl in Hfound. by rewrite Hfound by (by exists t).
  - unfold TaskService.uncompleteTask. destruct (isValidUuid i); [|done]. simpl.
    destruct (tasks s !! i) as [t|] eqn:Ht; [|done]. case_decide; [done|].
    destruct (repo_uncompleteTask_found i now (updateStats now s)) as [t' Hfound];
      [by exists t|].
    destruct (TaskRepository.uncompleteTask i now (updateStats now s)) as [res s1].
    simpl in Hfound. by rewrite Hfound.
  - unfold ListService.deleteList. destruct (isValidUuid i); [|done]. simpl.
    destruct (lists s !! i) as [l|] eqn:Hl; [|done].
    assert (∀ s0, is_Some (lists s0 !! i) →
              (let (r0, s1) := ListRepository.deleteList i (default true c) now s0 in
               match r0 with
               | Ok true => (Returned (), s1)
               | Ok false => (Raised (Thrown INTERNAL_ERROR i), s1)
               | Err e => (Raised (Passed e), s1)
               end).1 ≠ Raised (Thrown INTERNAL_ERROR about)) as Hgo.
    { intros s0 Hs0. pose proof (repo_deleteList_found i (default true c) now s0 Hs0) as Hf.
      destruct (ListRepository.deleteList i (default true c) now s0) as [res s1].
      simpl in Hf. by rewrite Hf. }
    destruct target as [target|]; [|apply Hgo; by exists l].
    case_decide; [|apply Hgo; by exists l].
    destruct (isValidUuid target); [|done]. simpl.
    destruct (lists s !! target) as [lt|]; [|done].
    unfold ListService.moveAllTasksToList. simpl.
    set (L := TaskRepository.sortTasks _ _ _).
    pose proof (moveEach_lists_dom L target now
                  (updateStats now (updateStats now (updateStats now s))) i) as Hdom.
    destruct (ListService.moveEach L target now _) as [[e|] s4]; [done|].
    apply Hgo, Hdom. by exists l.
Qed.

End InternalErrors.

(** ** The statistics of a list *)

Lemma length_filter_le {A} (p : A → bool) (l : list A) :
  (length (List.filter p l) ≤ length l)%nat.
Proof. induction l as [|x l IH]; simpl; [lia|]. destruct (p x); simpl; lia. Qed.

(** The counts of [statisticsOf] over any list of tasks. *)
Lemma statisticsOf_sums tasks now :
  let st := ListService.statisticsOf tasks now in
  totalTasks st = length tasks
  ∧ (completedTasks st + pendingTasks st = totalTasks st)%nat
  ∧ (highTasks st + mediumTasks st + lowTasks st = totalTasks st)%nat
  ∧ (overdueTasksCount st + upcomingTasksCount st ≤ pendingTasks st)%nat.
Proof.
  simpl. split_and!.
  - done.
  - pose proof (length_filter_le (λ task, bool_decide (status task = COMPLETED)) tasks).
    lia.
  - induction tasks as [|t tasks IH]; [done|]. simpl.
    destruct (priority t); simpl; lia.
  - assert (length (List.filter (λ task, match deadline task with
                      | Some d => bool_decide (status task = PENDING)
                                  && bool_decide (d < now)%Z
                      | None => false
                      end) tasks)
            + length (List.filter (λ task, match deadline task with
                      | Some d => bool_decide (status task = PENDING)
                                  && bool_decide (now ≤ d)%Z
                                  && bool_decide (d ≤ now + 7 * 24 * 60 * 60 * 1000)%Z
                      | None => false
                      end) tasks)
            + length (List.filter (λ task, bool_decide (status task = COMPLETED)) tasks)
            ≤ length tasks)%nat as Hsum; [|lia].
    induction tasks as [|t tasks IH]; [done|]. simpl.
    destruct (deadline t) as [d|], (status t); simpl;
      repeat case_bool_decide; simpl; lia.
Qed.

Section Statistics.

Variable localeCompare : string → string → Z.

(** X24. getListStatistics after any sequence of operations of the
    repositories run from a new store with generated ids unused. For a
    valid id of a list of the store it returns the list, and totalTasks is
    the tasks_count of the list; completed and pending tasks add up to
    totalTasks, and so do the tasks of the three priorities; the overdue
    and the upcoming tasks together are no more than the pending ones. It
    throws a validation error for an invalid id and NOT_FOUND for an id
    with no list. *)
Theorem getListStatistics_counts ops m t0 i now :
  well_formed_run ops (newStore m t0) →
  let s := run ops (newStore m t0) in
  match (ListService.getListStatistics localeCompare i now s).1 with
  | Returned (list, st) =>
      isValidUuid i = true ∧ lists s !! i = Some list
      ∧ totalTasks st = tasks_count list
      ∧ (completedTasks st + pendingTasks st = totalTasks st)%nat
      ∧ (highTasks st + mediumTasks st + lowTasks st = totalTasks st)%nat
      ∧ (overdueTasksCount st + upcomingTasksCount st ≤ pendingTasks st)%nat
  | Raised e =>
      (isValidUuid i = false ∧ e = Thrown VALIDATION_ERROR i)
      ∨ (isValidUuid i = true ∧ lists s !! i = None ∧ e = Thrown NOT_FOUND i)
  end.
Proof.
  intros Hw s.
  destruct (run_consistent_counts ops (newStore m t0)) as [Hc Hn];
    [apply newStore_consistent|apply newStore_counts|done|]. fold s in Hc, Hn.
  unfold ListService.getListStatistics, ListService.getListById.
  destruct (isValidUuid i); simpl; [|by left].
  destruct (lists s !! i) as [list|] eqn:Hl; simpl; [|by right].
  set (L := TaskRepository.sortTasks _ _ _).
  destruct (statisticsOf_sums L now) as (Htotal & Hdone & Hprio & Hdue).
  split_and!; [done|done| |done..].
  unfold L, TaskRepository.sortTasks.
  rewrite (Permutation_length (arraySort_Permutation _ _)).
  rewrite (length_tasksOfIds_bucket _ listKey i (updateStats now s) (c_list _ _ Hc)).
  symmetry. by apply (Hn i list).
Qed.

End Statistics.

Lemma getListStatistics_counts_witness :
  let s := storeWithUuids in
  match (ListService.getListStatistics (λ _ _, 0) uuidWork 50 s).1 with
  | Returned (list, st) =>
      isValidUuid uuidWork = true ∧ lists s !! uuidWork = Some list
      ∧ totalTasks st = tasks_count list
      ∧ (completedTasks st + pendingTasks st = totalTasks st)%nat
      ∧ (highTasks st + mediumTasks st + lowTasks st = totalTasks st)%nat
      ∧ (overdueTasksCount st + upcomingTasksCount st ≤ pendingTasks st)%nat
  | Raised e =>
      (isValidUuid uuidWork = false ∧ e = Thrown VALIDATION_ERROR uuidWork)
      ∨ (isValidUuid uuidWork = true ∧ lists s !! uuidWork = None
         ∧ e = Thrown NOT_FOUND uuidWork)
  end.
Proof.
  apply (getListStatistics_counts (λ _ _, 0) _ 10 0 uuidWork 50).
  apply (bool_decide_unpack _). by vm_compute.
Defined.

(** * What an operation never changes *)

Lemma exec_names_from op now s :
  match op with
  | CreateList _ _ | UpdateList _ _ => True
  | _ => names_from (lists s) (lists (exec op now s))
  end.
Proof.
  destruct op as [input newId|i input|i c|input newId|i input|i|i|i]; simpl; [done..| | | | | |].
  - rewrite repo_deleteList_state. destruct (lists s !! i); [|apply names_from_refl].
    apply (deleteList_names_from i c now (updateStats now (updateStats now s))).
  - rewrite repo_createTask_state.
    destruct (lists s !! ci_list_id input); [|apply names_from_refl].
    apply (createTask_names_from _ now (updateStats now s)).
  - rewrite repo_updateTask_state. destruct (tasks s !! i) as [t|]; [|apply names_from_refl].
    assert (lists (readsBeforeUpdate t input now s) = lists s) as Hl.
    { unfold readsBeforeUpdate. destruct (ui_list_id input); [|done]. by case_decide. }
    destruct (movesToMissingList t input s); [rewrite Hl; apply names_from_refl|].
    simpl. rewrite <- Hl. apply updateTask_names_from.
  - rewrite repo_deleteTask_state. destruct (tasks s !! i); [|apply names_from_refl].
    apply (deleteTask_names_from i now (updateStats now s)).
  - rewrite repo_completeTask_state. destruct (tasks s !! i); [|apply names_from_refl].
    case_decide; [apply names_from_refl|].
    apply (updateTask_names_from i _ now (updateStats now s)).
  - rewrite repo_uncompleteTask_state. destruct (tasks s !! i); [|apply names_from_refl].
    case_decide; [apply names_from_refl|].
    apply (updateTask_names_from i _ now (updateStats now s)).
Qed.

Lemma exec_list_op_tasks op now s :
  match op with
  | CreateList _ _ | UpdateList _ _ => tasks (exec op now s) = tasks s
  | _ => True
  end.
Proof.
  destruct op as [input newId|i input|i c|input newId|i input|i|i|i]; simpl; [| |done..].
  - destruct (repo_createList_cases input newId now s) as [->| ->]; [done|].
    by rewrite createList_tasks.
  - destruct (repo_updateList_cases i input now s) as (s0 & Hs0 & [->| ->]).
    + by destruct Hs0 as [->| ->].
    + simpl. rewrite updateList_tasks. by destruct Hs0 as [->| ->].
Qed.

(** X25. No operation of a repository changes the id or the time of
    creation of a record that it leaves in the store: on a store with
    consistent indexes and lists stored under their ids, a task found
    under a key before and after an operation has the same id and
    created_at, and so has a list. *)
Theorem operations_keep_id_and_created_at op now s :
  indexes_consistent s → list_keys_ok (lists s) → well_formed op s →
  (∀ i t t', tasks s !! i = Some t → tasks (exec op now s) !! i = Some t' →
     id t' = id t ∧ created_at t' = created_at t)
  ∧ (∀ k l l', lists s !! k = Some l → lists (exec op now s) !! k = Some l' →
       l_id l' = l_id l ∧ l_created_at l' = l_created_at l).
Proof.
  intros Hc Hkeys Hw.
  assert (∀ i u s0, tasks s0 = tasks s →
            (∀ t, tasks s !! i = Some t →
               u_created_at u = None ∨ u_created_at u = Some (created_at t)) →
            ∀ j t t', tasks s !! j = Some t →
              tasks (memoryStore.updateTask i u now s0).2 !! j = Some t' →
              id t' = id t ∧ created_at t' = created_at t) as Hupd.
  { intros i u s0 Hs0 Hu j t t' Hj Hj'. destruct (tasks s !! i) as [ti|] eqn:Hi.
    - rewrite <- Hs0 in Hi.
      destruct (updateTask_found i u now s0 ti Hi) as (_ & Ht & _).
      rewrite Ht, Hs0 in Hj'. destruct (decide (i = j)) as [<-|Hne].
      + rewrite lookup_insert_eq in Hj'. injection Hj' as <-.
        rewrite Hs0 in Hi. assert (ti = t) as -> by congruence. simpl.
        split; [by rewrite (c_key _ _ Hc i t Hj)|].
        destruct (Hu t eq_refl) as [-> | ->]; done.
      + rewrite lookup_insert_ne in Hj' by done. split; congruence.
    - rewrite <- Hs0 in Hi. rewrite (updateTask_missing _ _ _ _ Hi) in Hj'.
      simpl in Hj'. rewrite Hs0 in Hj'. split; congruence. }
  assert (∀ ls', names_from (lists s) ls' →
            ∀ k l l', lists s !! k = Some l → ls' !! k = Some l' →
              l_id l' = l_id l ∧ l_created_at l' = l_created_at l) as Hfrom.
  { intros ls' Hf k l l' Hk Hk'. destruct (Hf k l' Hk') as (l0 & Hl0 & Hid & _ & _ & _ & Hcr).
    assert (l0 = l) as -> by congruence. done. }
  pose proof (exec_names_from op now s) as Hlists.
  pose proof (exec_list_op_tasks op now s) as Htasks.
  destruct op as [input newId|i input|i c|input newId|i input|i|i|i];
    (split; [|try by apply Hfrom]).
  - intros i t t' Hi. rewrite Htasks. split; congruence.
  - intros k l l' Hk. simpl.
    destruct (repo_createList_lists input newId now s) as [->|[-> _]].
    + split; congruence.
    + destruct Hw as (Hfresh & _). rewrite lookup_insert_ne by congruence.
      split; congruence.
  - intros j t t' Hj. rewrite Htasks. split; congruence.
  - intros k l l' Hk. simpl. rewrite repo_updateList_lists.
    destruct (lists s !! i) as [li|] eqn:Hi; [|split; congruence].
    destruct (nameTaken i input s); [split; congruence|].
    destruct (decide (i = k)) as [<-|Hne].
    + rewrite lookup_insert_eq. intros [= <-]. assert (li = l) as -> by congruence.
      simpl. split; [by rewrite (Hkeys i l Hk)|done].
    + rewrite lookup_insert_ne by done. split; congruence.
  - intros j t t' Hj. simpl. rewrite repo_deleteList_state.
    destruct (lists s !! i); [|simpl; split; congruence].
    rewrite deleteList_unfold. simpl. destruct (lists s !! i); [|simpl; split; congruence].
    simpl. destruct c; [|simpl; split; congruence].
    intros Hj'. apply deleteTasks_subset in Hj' as [Hj' _]. simpl in Hj'.
    split; congruence.
  - intros j t t' Hj. simpl. rewrite repo_createTask_state.
    destruct (lists s !! ci_list_id input); [|simpl; split; congruence].
    destruct (memoryStore.checkCapacity (updateStats now s)) as [e|] eqn:Hcap.
    + rewrite (createTask_full _ _ _ _ Hcap). simpl. split; congruence.
    + destruct (createTask_ok (newTask input newId now) now (updateStats now s) Hcap)
        as (_ & -> & _). simpl. destruct Hw as (_ & Hfresh & _).
      rewrite lookup_insert_ne by congruence. split; congruence.
  - intros j t t' Hj. simpl. rewrite repo_updateTask_state.
    destruct (tasks s !! i) as [ti|] eqn:Hi; [|simpl; split; congruence].
    assert (tasks (readsBeforeUpdate ti input now s) = tasks s) as Hr.
    { unfold readsBeforeUpdate. destruct (ui_list_id input); [|done]. by case_decide. }
    destruct (movesToMissingList ti input s); [rewrite Hr; split; congruence|].
    simpl. apply (Hupd i _ _ Hr); [|done]. intros ? _. by left.
  - intros j t t' Hj. simpl. rewrite repo_deleteTask_state.
    destruct (tasks s !! i); [|simpl; split; congruence].
    rewrite deleteTask_tasks. simpl. intros Hj'.
    apply lookup_delete_Some in Hj' as [_ Hj']. split; congruence.
  - intros j t t' Hj. simpl. rewrite repo_completeTask_state.
    destruct (tasks s !! i) as [ti|] eqn:Hi; [|simpl; split; congruence].
    case_decide; [simpl; split; congruence|]. simpl.
    apply (Hupd i _ (updateStats now s) eq_refl); [|done]. intros ? _. by left.
  - intros j t t' Hj. simpl. rewrite repo_uncompleteTask_state.
    destruct (tasks s !! i) as [ti|] eqn:Hi; [|simpl; split; congruence].
    case_decide; [simpl; split; congruence|]. simpl.
    apply (Hupd i _ (updateStats now s) eq_refl); [|done].
    intros t0 Ht0. right. simpl. congruence.
Qed.

Lemma operations_keep_id_and_created_at_witness :
  let op := UpdateTask "t1" {| ui_title := Some " Final report "; ui_description := None;
                               ui_deadline := None; ui_priority := Some LOW;
                               ui_status := Some COMPLETED; ui_list_id := None |} in
  (∀ i t t', tasks storeWithReport !! i = Some t →
     tasks (exec op 9 storeWithReport) !! i = Some t' →
     id t' = id t ∧ created_at t' = created_at t)
  ∧ (∀ k l l', lists storeWithReport !! k = Some l →
       lists (exec op 9 storeWithReport) !! k = Some l' →
       l_id l' = l_id l ∧ l_created_at l' = l_created_at l).
Proof.
  intros op. apply (operations_keep_id_and_created_at op 9 storeWithReport).
  - apply storeWithReport_consistent.
  - apply (bool_decide_unpack _). by vm_compute.
  - done.
Defined.

(** * The outcomes of creating and deleting a task *)

Lemma bucket_indexAdd_same `{Countable K} (m : gmap K (gset string)) k i :
  bucket (memoryStore.indexAdd k i m) k = {[i]} ∪ bucket m k.
Proof. unfold memoryStore.indexAdd, bucket. by rewrite lookup_insert_eq. Qed.

(** X26. The outcomes of TaskRepository.createTask on a store with
    consistent indexes and right task counts, given an unused id. It
    throws when listExists says that the list does not exist and when the
    store is full, and only then. Otherwise it returns the new task
    (pending, not completed, title trimmed, priority medium unless given,
    created and updated at the time of the call), which is stored under its
    id, and the tasks_count of its list has grown by one. *)
Theorem createTask_outcome input newId now s :
  indexes_consistent s → counts_ok s → unused newId s →
  let r := TaskRepository.createTask input newId now s in
  let listExists := (ListRepository.listExists (ci_list_id input) now s).1 in
  match r.1 with
  | Ok task =>
      task = newTask input newId now
      ∧ listExists = true ∧ totalEntities s < maxSize s
      ∧ tasks r.2 = <[newId := task]> (tasks s)
      ∧ ∃ l l', lists s !! ci_list_id input = Some l
                ∧ lists r.2 !! ci_list_id input = Some l'
                ∧ tasks_count l' = S (tasks_count l)
  | Err e =>
      (listExists = false ∧ e = ListDoesNotExist (ci_list_id input))
      ∨ (listExists = true ∧ maxSize s ≤ totalEntities s
         ∧ e = CapacityExceeded (maxSize s) (totalEntities s))
  end.
Proof.
  intros Hc Hn (_ & Hfresh & _) r listExists.
  unfold r, listExists, ListRepository.listExists, TaskRepository.createTask. simpl.
  destruct (lists s !! ci_list_id input) as [l|] eqn:Hl; simpl; [|by left].
  fold (newTask input newId now).
  destruct (memoryStore.checkCapacity (updateStats now s)) as [e|] eqn:Hcap.
  - rewrite (createTask_full _ _ _ _ Hcap). simpl. right.
    unfold memoryStore.checkCapacity in Hcap. simpl in Hcap.
    fold (totalEntities s) in Hcap. case_decide; [|done]. injection Hcap as <-.
    split_and!; done.
  - destruct (createTask_ok (newTask input newId now) now (updateStats now s) Hcap)
      as (Hok & Ht & Hix & Hls & _).
    destruct (memoryStore.createTask (newTask input newId now) now (updateStats now s))
      as [res s1]. simpl in Hok, Ht, Hix, Hls. subst res. simpl.
    unfold memoryStore.checkCapacity in Hcap. simpl in Hcap.
    fold (totalEntities s) in Hcap. case_decide; [done|].
    split_and!; [done|done|lia|done|]. exists l. eexists. split; [done|].
    rewrite Hls. unfold recount. simpl. rewrite Hl, lookup_insert_eq.
    split; [done|]. simpl. rewrite Hix. simpl.
    rewrite bucket_indexAdd_same, size_union, size_singleton.
    + by rewrite (Hn _ l Hl).
    + apply disjoint_singleton_l. intros Hin.
      apply (c_list _ _ Hc) in Hin as (t & Ht' & _). congruence.
Qed.

Lemma createTask_outcome_witness :
  let input := {| ci_list_id := "l1"; ci_title := " Slides "; ci_description := None;
                  ci_deadline := None; ci_priority := None |} in
  let r := TaskRepository.createTask input "t2" 9 storeWithReport in
  let listExists := (ListRepository.listExists (ci_list_id input) 9 storeWithReport).1 in
  match r.1 with
  | Ok task =>
      task = newTask input "t2" 9
      ∧ listExists = true ∧ totalEntities storeWithReport < maxSize storeWithReport
      ∧ tasks r.2 = <["t2" := task]> (tasks storeWithReport)
      ∧ ∃ l l', lists storeWithReport !! ci_list_id input = Some l
                ∧ lists r.2 !! ci_list_id input = Some l'
                ∧ tasks_count l' = S (tasks_count l)
  | Err e =>
      (listExists = false ∧ e = ListDoesNotExist (ci_list_id input))
      ∨ (listExists = true ∧ maxSize storeWithReport ≤ totalEntities storeWithReport
         ∧ e = CapacityExceeded (maxSize storeWithReport) (totalEntities storeWithReport))
  end.
Proof.
  intros input.
  apply (createTask_outcome input "t2" 9 storeWithReport).
  - apply storeWithReport_consistent.
  - apply createTask_counts, createList_counts; [apply newStore_counts|done].
  - apply (bool_decide_unpack _). by vm_compute.
Defined.

(** X27. A task that TaskService.deleteTask has deleted is gone: when
    the call returns, the task map is the one before without the id,
    taskExists returns false, and a later getTaskById or a second
    deleteTask with this id throws NOT_FOUND. *)
Theorem deleted_task_is_not_found i now now' s :
  (TaskService.deleteTask i now s).1 = Returned () →
  let s' := (TaskService.deleteTask i now s).2 in
  tasks s' = delete i (tasks s)
  ∧ (TaskRepository.taskExists i now' s').1 = false
  ∧ (TaskService.getTaskById i now' s').1 = Raised (Thrown NOT_FOUND i)
  ∧ (TaskService.deleteTask i now' s').1 = Raised (Thrown NOT_FOUND i).
Proof.
  unfold TaskService.deleteTask at 1 2. destruct (isValidUuid i) eqn:Hv; [|done]. simpl.
  destruct (tasks s !! i) as [t|] eqn:Ht; [|done].
  pose proof (repo_deleteTask_state i now (updateStats now s)) as Hstate.
  simpl in Hstate. rewrite Ht in Hstate.
  destruct (TaskRepository.deleteTask i now (updateStats now s)) as [[[]|e] s1];
    simpl in Hstate |- *; [|done..].
  intros _. assert (tasks s1 = delete i (tasks s)) as Hgone.
  { rewrite Hstate. by rewrite deleteTask_tasks. }
  assert (tasks s1 !! i = None) as Hnone by (rewrite Hgone; apply lookup_delete_eq).
  split_and!; [done|..].
  - unfold TaskRepository.taskExists. simpl. rewrite Hnone.
    by apply bool_decide_eq_false_2, is_Some_None.
  - unfold TaskService.getTaskById. rewrite Hv. simpl. by rewrite Hnone.
  - unfold TaskService.deleteTask. rewrite Hv. simpl. by rewrite Hnone.
Qed.

Lemma deleted_task_is_not_found_witness :
  let i := "123e4567-e89b-42d3-a456-426614174003" in
  let s' := (TaskService.deleteTask i 8 storeWithUuids).2 in
  tasks s' = delete i (tasks storeWithUuids)
  ∧ (TaskRepository.taskExists i 9 s').1 = false
  ∧ (TaskService.getTaskById i 9 s').1 = Raised (Thrown NOT_FOUND i)
  ∧ (TaskService.deleteTask i 9 s').1 = Raised (Thrown NOT_FOUND i).
Proof.
  intros i. apply (deleted_task_is_not_found i 8 9 storeWithUuids). by vm_compute.
Defined.

(** * Stored texts are trimmed *)

Lemma list_of_rev_app x y :
  String.list_ascii_of_string (String.rev_app x y)
  = reverse (String.list_ascii_of_string x) ++ String.list_ascii_of_string y.
Proof.
  revert y. induction x as [|c x IH]; intros y; simpl; [done|].
  rewrite IH, reverse_cons. simpl. by rewrite <- app_assoc.
Qed.

Lemma list_of_rev x :
  String.list_ascii_of_string (String.rev x) = reverse (String.list_ascii_of_string x).
Proof. unfold String.rev. rewrite list_of_rev_app. simpl. by rewrite app_nil_r. Qed.

Lemma list_of_trimStart x :
  String.list_ascii_of_string (trimStart x)
  = dropWhiteSpace (String.list_ascii_of_string x).
Proof. induction x as [|c x IH]; simpl; [done|]. by destruct (isWhiteSpace c). Qed.

Lemma list_of_trim x :
  String.list_ascii_of_string (trim x)
  = reverse (dropWhiteSpace (reverse (dropWhiteSpace (String.list_ascii_of_string x)))).
Proof. unfold trim. by rewrite list_of_rev, list_of_trimStart, list_of_rev, list_of_trimStart. Qed.

Lemma dropWhiteSpace_startsBlack l : startsBlack (dropWhiteSpace l).
Proof.
  induction l as [|c l IH]; simpl; [done|]. by destruct (isWhiteSpace c) eqn:Hc.
Qed.

Lemma dropWhiteSpace_id l : startsBlack l → dropWhiteSpace l = l.
Proof. destruct l as [|c l]; simpl; [done|]. by intros ->. Qed.

Lemma dropWhiteSpace_suffix l : ∃ w, l = w ++ dropWhiteSpace l.
Proof.
  induction l as [|c l [w IH]]; simpl; [by exists []|].
  destruct (isWhiteSpace c); [|by exists []]. exists (c :: w). simpl. by rewrite <- IH.
Qed.

(** Dropping the white space at the end of a list that does not start
    with white space gives a list that does not start with it either. *)
Lemma startsBlack_trimmed_end l :
  startsBlack l → startsBlack (reverse (dropWhiteSpace (reverse l))).
Proof.
  intros Hl. destruct (dropWhiteSpace_suffix (reverse l)) as [w Hw].
  assert (l = reverse (dropWhiteSpace (reverse l)) ++ reverse w) as Heq.
  { rewrite <- reverse_app, <- Hw. by rewrite reverse_involutive. }
  destruct (reverse (dropWhiteSpace (reverse l))) as [|c u]; [done|].
  rewrite Heq in Hl. done.
Qed.

Lemma trim_trimmed x : trimmed (trim x).
Proof.
  unfold trimmed. rewrite <- (String.string_of_list_ascii_of_string (trim (trim x))).
  rewrite <- (String.string_of_list_ascii_of_string (trim x)) at 2. f_equal.
  rewrite (list_of_trim (trim x)), list_of_trim.
  set (t0 := dropWhiteSpace (String.list_ascii_of_string x)).
  set (u := dropWhiteSpace (reverse t0)).
  rewrite (dropWhiteSpace_id (reverse u)).
  - rewrite reverse_involutive. rewrite (dropWhiteSpace_id u); [done|].
    apply dropWhiteSpace_startsBlack.
  - apply startsBlack_trimmed_end, dropWhiteSpace_startsBlack.
Qed.

Lemma trimmed_empty : trimmed "".
Proof. done. Qed.

Lemma trimIfTruthy_trimmed o x : trimIfTruthy o = Some x → trimmed x.
Proof.
  destruct o as [y|]; simpl; [|done]. case_decide as Hy; intros [= <-].
  - apply trim_trimmed.
  - destruct (decide (y = "")) as [->|Hne]; [done|]. by destruct Hy.
Qed.

Lemma trimmedWhenTruthy_trimmed o x : trimmedWhenTruthy o = Some x → trimmed x.
Proof.
  destruct o as [y|]; simpl; [|done]. case_decide; [|done]. intros [= <-].
  apply trim_trimmed.
Qed.

Lemma texts_trimmed_stats now s : texts_trimmed (updateStats now s) ↔ texts_trimmed s.
Proof. done. Qed.

(** The texts of the lists stay trimmed when the lists are only recounted,
    and those of the tasks when the task map is the same. *)
Lemma texts_trimmed_from s s' :
  texts_trimmed s → names_from (lists s) (lists s') →
  (∀ i t, tasks s' !! i = Some t →
     trimmed (title t) ∧ ∀ d, description t = Some d → trimmed d) →
  texts_trimmed s'.
Proof.
  intros [Hl Ht] Hfrom Ht'. split; [|done]. intros k l' Hk.
  destruct (Hfrom k l' Hk) as (l & Hl0 & _ & Hn & Hd & _).
  destruct (Hl k l Hl0) as [H1 H2]. rewrite Hn, Hd. done.
Qed.

Lemma updateTask_texts i u now s :
  texts_trimmed s →
  (∀ x, u_title u = Some x → trimmed x) →
  (∀ x, u_description u = Some x → trimmed x) →
  texts_trimmed (memoryStore.updateTask i u now s).2.
Proof.
  intros Hs Hu1 Hu2. apply (texts_trimmed_from s); [done|apply updateTask_names_from|].
  destruct Hs as [_ Ht]. intros j t' Hj.
  destruct (tasks s !! i) as [t|] eqn:Hi.
  - destruct (updateTask_found i u now s t Hi) as (_ & Htasks & _).
    rewrite Htasks in Hj. destruct (decide (i = j)) as [<-|Hne].
    + rewrite lookup_insert_eq in Hj. injection Hj as <-. destruct (Ht i t Hi) as [H1 H2].
      simpl. split.
      * destruct (u_title u) as [x|] eqn:Hx; simpl; [by apply Hu1|done].
      * intros d. destruct (u_description u) as [x|] eqn:Hx; [|apply H2].
        intros [= <-]. by apply Hu2.
    + rewrite lookup_insert_ne in Hj by done. by apply (Ht j).
  - rewrite (updateTask_missing _ _ _ _ Hi) in Hj. by apply (Ht j).
Qed.

Lemma exec_texts op now s : texts_trimmed s → texts_trimmed (exec op now s).
Proof.
  intros Hs. pose proof (exec_names_from op now s) as Hfrom.
  pose proof (exec_list_op_tasks op now s) as Htasks.
  destruct op as [input newId|i input|i c|input newId|i input|i|i|i].
  - split; [|rewrite Htasks; apply Hs]. intros k l. simpl.
    destruct (repo_createList_lists input newId now s) as [->|[-> _]]; [apply Hs|].
    destruct (decide (newId = k)) as [<-|Hne].
    + rewrite lookup_insert_eq. intros [= <-]. simpl. split; [apply trim_trimmed|].
      apply trimmedWhenTruthy_trimmed.
    + rewrite lookup_insert_ne by done. apply Hs.
  - split; [|rewrite Htasks; apply Hs]. intros k l. simpl. rewrite repo_updateList_lists.
    destruct (lists s !! i) as [li|] eqn:Hi; [|apply Hs].
    destruct (nameTaken i input s); [apply Hs|].
    destruct (decide (i = k)) as [<-|Hne].
    + rewrite lookup_insert_eq. intros [= <-]. destruct Hs as [Hl _].
      destruct (Hl i li Hi) as [H1 H2]. simpl. split.
      * destruct (trimIfTruthy (ul_name input)) as [x|] eqn:Hx; simpl; [|done].
        by apply (trimIfTruthy_trimmed (ul_name input)).
      * intros d. destruct (trimIfTruthy (ul_description input)) as [x|] eqn:Hx; [|apply H2].
        intros [= <-]. by apply (trimIfTruthy_trimmed (ul_description input)).
    + rewrite lookup_insert_ne by done. apply Hs.
  - apply (texts_trimmed_from s); [done..|]. intros j t. simpl.
    rewrite repo_deleteList_state. destruct (lists s !! i); [|apply Hs].
    rewrite deleteList_unfold. simpl. destruct (lists s !! i); [|apply Hs]. simpl.
    destruct c; [|apply Hs]. intros Hj. apply deleteTasks_subset in Hj as [Hj _].
    by apply Hs in Hj.
  - apply (texts_trimmed_from s); [done..|]. intros j t. simpl.
    rewrite repo_createTask_state. destruct (lists s !! ci_list_id input); [|apply Hs].
    destruct (memoryStore.checkCapacity (updateStats now s)) as [e|] eqn:Hcap.
    + rewrite (createTask_full _ _ _ _ Hcap). apply Hs.
    + destruct (createTask_ok (newTask input newId now) now (updateStats now s) Hcap)
        as (_ & -> & _). simpl. destruct (decide (newId = j)) as [<-|Hne].
      * rewrite lookup_insert_eq. intros [= <-]. simpl. split; [apply trim_trimmed|].
        apply trimmedWhenTruthy_trimmed.
      * rewrite lookup_insert_ne by done. apply Hs.
  - simpl. rewrite repo_updateTask_state. destruct (tasks s !! i) as [t|]; [|done].
    assert (texts_trimmed (readsBeforeUpdate t input now s)) as Hr.
    { unfold readsBeforeUpdate. destruct (ui_list_id input); [|done]. by case_decide. }
    destruct (movesToMissingList t input s); [done|].
    apply texts_trimmed_stats, updateTask_texts; [done|..]; simpl; intros x Hx.
    + by apply (trimIfTruthy_trimmed (ui_title input)).
    + by apply (trimIfTruthy_trimmed (ui_description input)).
  - apply (texts_trimmed_from s); [done..|]. intros j t. simpl.
    rewrite repo_deleteTask_state. destruct (tasks s !! i); [|apply Hs].
    rewrite deleteTask_tasks. simpl. intros Hj.
    apply lookup_delete_Some in Hj as [_ Hj]. by apply Hs in Hj.
  - simpl. rewrite repo_completeTask_state. destruct (tasks s !! i); [|done].
    case_decide; [done|]. by apply texts_trimmed_stats, updateTask_texts.
  - simpl. rewrite repo_uncompleteTask_state. destruct (tasks s !! i) as [t|] eqn:Hi; [|done].
    case_decide; [done|]. destruct Hs as [Hl Ht]. destruct (Ht i t Hi) as [H1 H2].
    apply texts_trimmed_stats, updateTask_texts; [done|..]; simpl; intros x Hx.
    + by injection Hx as <-.
    + by apply H2.
Qed.

(** X28. The texts of the store are trimmed: after any sequence of
    operations of the repositories run from a new store, no list name,
    task title or description of a list or a task starts or ends with white
    space (trim leaves each of them as it is). *)
Theorem stored_texts_are_trimmed ops m t0 :
  texts_trimmed (run ops (newStore m t0)).
Proof.
  assert (texts_trimmed (newStore m t0)) as H0.
  { split; intros k x Hk; simpl in Hk; by rewrite lookup_empty in Hk. }
  revert H0. generalize (newStore m t0). induction ops as [|[op now] ops IH]; intros s Hs.
  - done.
  - simpl. by apply IH, exec_texts.
Qed.
